(** * Computational-Geometry-Algorithms: a shallow embedding of Function.cpp

    The C++ program stores every coordinate in a [double] (the fields of a
    [QPointF]).  Here a [double] is a rational number [Q] that a binary64
    variable can hold, and every arithmetic operation of the source is the
    exact operation followed by the rounding of binary64 ([Num.double]:
    round to nearest, ties to even, 53 significant bits, gradual underflow).
    Infinities and NaN are not part of the model: it describes the program
    as long as no result reaches [2 ^ 1024] in magnitude.  A conversion to
    [long long] truncates toward zero; outside the range of [long long] the
    C++ standard leaves it undefined, and the model takes the value the
    x86-64 conversion delivers there.

    The points the widget receives are pixel positions
    ([QMouseEvent::pos()]), that is, integer valued coordinates.  On such
    points, up to a magnitude that the statements below give, the rounded
    operations deliver the exact results; [Module Exact] holds the same
    computations over the rationals, without rounding, and the properties
    of the program on pixel positions are obtained from it. *)

From Stdlib Require Import String QArith Qabs Qround Qminmax Qpower ZArith List Bool Arith Lia Lqa.
From Stdlib Require Import Sorted Permutation Morphisms.
Import ListNotations.

Open Scope Q_scope.

(** ** Numbers *)

Module Num.

(** [a < b] on [double], as a boolean. *)
Definition Qltb (a b : Q) : bool := negb (Qle_bool b a).

(** [2 ^ e]. *)
Definition pow2 (e : Z) : Q := 2 ^ e.

(** The exponent of the leading bit of a positive number:
    [2 ^ ilog2 x <= x < 2 ^ (ilog2 x + 1)]. *)
Definition ilog2 (x : Q) : Z :=
  let k := (Z.log2 (Qnum x) - Z.log2 (Zpos (Qden x)))%Z in
  if Qle_bool (pow2 k) x then k else (k - 1)%Z.

(** The nearest integer, a tie going to the even one. *)
Definition round_half_even (x : Q) : Z :=
  let f := Qfloor x in
  match Qcompare (x - inject_Z f) (1 # 2) with
  | Lt => f
  | Gt => (f + 1)%Z
  | Eq => if Z.even f then f else (f + 1)%Z
  end.

(** The binary64 number nearest to a positive number: 53 significant bits,
    the unit in the last place not below [2 ^ -1074]. *)
Definition round_pos (a : Q) : Q :=
  let e := Z.max (ilog2 a - 52) (-1074) in
  inject_Z (round_half_even (a / pow2 e)) * pow2 e.

(** The value a [double] operation delivers for the exact result [x]
    (round to nearest, ties to even). *)
Definition double (x : Q) : Q :=
  match Qnum x with
  | Z0 => 0
  | Zpos _ => round_pos x
  | Zneg _ => - round_pos (- x)
  end.

(** The four operations on [double]. *)
Definition fadd (a b : Q) : Q := double (a + b).
Definition fsub (a b : Q) : Q := double (a - b).
Definition fmul (a b : Q) : Q := double (a * b).
Definition fdiv (a b : Q) : Q := double (a / b).

Infix "+!" := fadd (at level 50, left associativity).
Infix "-!" := fsub (at level 50, left associativity).
Infix "*!" := fmul (at level 40, left associativity).
Infix "/!" := fdiv (at level 40, left associativity).

(** [(long long) d]: the conversion truncates toward zero.  Where the
    truncated value is not a [long long] the model takes [-2 ^ 63], the
    value the x86-64 conversion delivers. *)
Definition to_long_long (d : Q) : Z :=
  let z := Z.quot (Qnum d) (Zpos (Qden d)) in
  if ((- 2 ^ 63 <=? z) && (z <? 2 ^ 63))%Z then z else (- 2 ^ 63)%Z.

(** A [long long] converted to [double], as in a product of the two. *)
Definition of_long_long (z : Z) : Q := double (inject_Z z).

(** The literals [1e-9] and [1e-10] of the source: the binary64 numbers
    nearest to them. *)
Definition EPSILON : Q := Eval vm_compute in Qred (double (1 # 1000000000)).
Definition TOL10 : Q := Eval vm_compute in Qred (double (1 # 10000000000)).

(** A [double] that holds an integer. *)
Definition integral (d : Q) : Prop := exists z : Z, d == inject_Z z.

End Num.
Import Num.

(** ** Points *)

Record QPointF : Type := mkPoint { px : Q; py : Q }.

Definition origin : QPointF := mkPoint 0 0.

(** A point given by two integers (a pixel position). *)
Definition pixel (a b : Z) : QPointF := mkPoint (inject_Z a) (inject_Z b).

(** [p1 == p2] on points: both coordinates are equal.  ([QPointF]'s operator
    compares with a relative tolerance of [1e-12]; on integer coordinates
    below [1e12] in magnitude that is equality.) *)
Definition point_eqb (a b : QPointF) : bool :=
  Qeq_bool (px a) (px b) && Qeq_bool (py a) (py b).

(** [a - b] on points. *)
Definition point_sub (a b : QPointF) : QPointF :=
  mkPoint (px a -! px b) (py a -! py b).

Definition integral_point (p : QPointF) : Prop :=
  integral (px p) /\ integral (py p).

(** [pts[i]] of a [QVector<QPointF>]; the source never reads out of range. *)
Definition at_ (pts : list QPointF) (i : nat) : QPointF := nth i pts origin.

(** ** Geometric predicates *)

(** [DrawingWidget::crossProduct]. *)
Definition crossProduct (p1 p2 p3 : QPointF) : Q :=
  (px p2 -! px p1) *! (py p3 -! py p1) -! (py p2 -! py p1) *! (px p3 -! px p1).

(** One term of the shoelace sum: [p1.x * p2.y - p2.x * p1.y]. *)
Definition shoelace_term (p1 p2 : QPointF) : Q :=
  px p1 *! py p2 -! px p2 *! py p1.

(** The loop shared by [computeAreaSign], [calculatePolygonArea] and the
    winding computation of [calculateTriangulation]:
    [for (i = 0; i < n; ++i) sum += term(pts[i], pts[(i+1) % n]);] *)
Definition shoelace_loop (pts : list QPointF) : Q :=
  let n := length pts in
  fold_left
    (fun sum i => sum +! shoelace_term (at_ pts i) (at_ pts ((i + 1) mod n)))
    (seq 0 n) 0.

(** [DrawingWidget::computeAreaSign]. *)
Definition computeAreaSign (pts : list QPointF) : Q := shoelace_loop pts.

(** [DrawingWidget::onSegment]. *)
Definition onSegment (a b c : QPointF) : bool :=
  if Qltb (px c) (Qmin (px a) (px b)) || Qltb (Qmax (px a) (px b)) (px c)
     || Qltb (py c) (Qmin (py a) (py b)) || Qltb (Qmax (py a) (py b)) (py c)
  then false
  else Qltb (Qabs (crossProduct a b c)) TOL10.

(** The lambda [cross] of [segmentsIntersect]: the two differences that are
    cast to [long long] are truncated, the products are [double]. *)
Definition cross_ll (a b c : QPointF) : Q :=
  of_long_long (to_long_long (px b -! px a)) *! (py c -! py a)
  -! of_long_long (to_long_long (py b -! py a)) *! (px c -! px a).

(** [DrawingWidget::segmentsIntersect]; [o1 .. o4] are [long long]. *)
Definition segmentsIntersect (p1 p2 q1 q2 : QPointF) : bool :=
  let o1 := to_long_long (cross_ll p1 p2 q1) in
  let o2 := to_long_long (cross_ll p1 p2 q2) in
  let o3 := to_long_long (cross_ll q1 q2 p1) in
  let o4 := to_long_long (cross_ll q1 q2 p2) in
  if (((0 <? o1)%Z && (o2 <? 0)%Z) || ((o1 <? 0)%Z && (0 <? o2)%Z))
     && (((0 <? o3)%Z && (o4 <? 0)%Z) || ((o3 <? 0)%Z && (0 <? o4)%Z))
  then true
  else if (o1 =? 0)%Z && onSegment p1 p2 q1
          && negb (point_eqb q1 p1 || point_eqb q1 p2) then true
  else if (o2 =? 0)%Z && onSegment p1 p2 q2
          && negb (point_eqb q2 p1 || point_eqb q2 p2) then true
  else if (o3 =? 0)%Z && onSegment q1 q2 p1
          && negb (point_eqb p1 q1 || point_eqb p1 q2) then true
  else if (o4 =? 0)%Z && onSegment q1 q2 p2
          && negb (point_eqb p2 q1 || point_eqb p2 q2) then true
  else false.

(** The quantities of [getLineSegmentIntersection]. *)
Definition seg_det (p1 p2 p3 p4 : QPointF) : Q :=
  (px p2 -! px p1) *! (py p4 -! py p3) -! (py p2 -! py p1) *! (px p4 -! px p3).

Definition seg_t (p1 p2 p3 p4 : QPointF) : Q :=
  ((px p3 -! px p1) *! (py p4 -! py p3) -! (py p3 -! py p1) *! (px p4 -! px p3))
  /! seg_det p1 p2 p3 p4.

Definition seg_u (p1 p2 p3 p4 : QPointF) : Q :=
  (- ((px p2 -! px p1) *! (py p3 -! py p1) -! (py p2 -! py p1) *! (px p3 -! px p1)))
  /! seg_det p1 p2 p3 p4.

(** [DrawingWidget::getLineSegmentIntersection]: [None] is [std::nullopt];
    [Some (pt, alpha)] is the returned point together with the value written
    to [out_alpha]. *)
Definition getLineSegmentIntersection (p1 p2 p3 p4 : QPointF)
  : option (QPointF * Q) :=
  let det := seg_det p1 p2 p3 p4 in
  if Qltb (Qabs det) EPSILON then None
  else
    let t := seg_t p1 p2 p3 p4 in
    let u := seg_u p1 p2 p3 p4 in
    if Qltb EPSILON t && Qltb t (1 -! EPSILON)
       && Qltb EPSILON u && Qltb u (1 -! EPSILON)
    then Some (mkPoint (px p1 +! t *! (px p2 -! px p1))
                       (py p1 +! t *! (py p2 -! py p1)), t)
    else None.

(** [DrawingWidget::isPointInsidePolygon]: the loop runs [i = 0 .. n-1] with
    [j] the previous index ([n-1] at first). *)
Definition ray_step (point : QPointF) (polygon : list QPointF)
    (inside : bool) (ij : nat * nat) : bool :=
  let p_i := at_ polygon (fst ij) in
  let p_j := at_ polygon (snd ij) in
  let y_intersect :=
    negb (Bool.eqb (Qltb (py point) (py p_i)) (Qltb (py point) (py p_j))) in
  if y_intersect then
    let x_intersect :=
      (px p_j -! px p_i) *! (py point -! py p_i) /! (py p_j -! py p_i)
      +! px p_i in
    if Qltb (px point) x_intersect then negb inside else inside
  else inside.

Definition isPointInsidePolygon (point : QPointF) (polygon : list QPointF)
  : bool :=
  let n := length polygon in
  if (n <? 3)%nat then false
  else
    fold_left (ray_step point polygon)
      (map (fun i => (i, if (i =? 0)%nat then (n - 1)%nat else (i - 1)%nat))
           (seq 0 n))
      false.

(** ** Triangles *)

Record Triangle : Type := mkTriangle { p1 : QPointF; p2 : QPointF; p3 : QPointF }.

(** [Triangle::contains]. *)
Definition contains (t : Triangle) (pt : QPointF) : bool :=
  let totalArea :=
    Qabs ((px (p2 t) -! px (p1 t)) *! (py (p3 t) -! py (p1 t))
          -! (py (p2 t) -! py (p1 t)) *! (px (p3 t) -! px (p1 t))) in
  let area1 :=
    Qabs ((px (p1 t) -! px pt) *! (py (p2 t) -! py pt)
          -! (py (p1 t) -! py pt) *! (px (p2 t) -! px pt)) in
  let area2 :=
    Qabs ((px (p2 t) -! px pt) *! (py (p3 t) -! py pt)
          -! (py (p2 t) -! py pt) *! (px (p3 t) -! px pt)) in
  let area3 :=
    Qabs ((px (p3 t) -! px pt) *! (py (p1 t) -! py pt)
          -! (py (p3 t) -! py pt) *! (px (p1 t) -! px pt)) in
  Qltb (Qabs (area1 +! area2 +! area3 -! totalArea)) TOL10.

(** ** The polygon validator *)

(** The body of the inner loop of [isSimplePolygon] for the edge pair
    [(i, j)]: [false] where the source returns [false]. *)
Definition simple_pair_ok (poly : list QPointF) (n i j : nat) : bool :=
  let p1 := at_ poly i in
  let p2 := at_ poly ((i + 1) mod n) in
  let q1 := at_ poly j in
  let q2 := at_ poly ((j + 1) mod n) in
  if point_eqb q1 q2 then false
  else if (i =? j)%nat || (j =? (i + 1) mod n)%nat || (i =? (j + 1) mod n)%nat
  then true
  else negb (segmentsIntersect p1 p2 q1 q2).

(** The body of the outer loop for the edge [i]. *)
Definition simple_edge_ok (poly : list QPointF) (n i : nat) : bool :=
  if point_eqb (at_ poly i) (at_ poly ((i + 1) mod n)) then false
  else forallb (simple_pair_ok poly n i) (seq 0 n).

(** [DrawingWidget::isSimplePolygon]. *)
Definition isSimplePolygon (poly : list QPointF) : bool :=
  let n := length poly in
  if (n <? 3)%nat then true
  else if (n =? 3)%nat then true
  else forallb (simple_edge_ok poly n) (seq 0 n).

(** ** The widget *)

Inductive Mode : Type :=
  | IDLE | ADD_POINTS_CONVEX_HULL | DRAW_POLYGON | DRAW_POLYGON_A | DRAW_POLYGON_B.

Inductive BooleanOpType : Type := Intersection | Union.

(** The modal boxes the widget can show ([QMessageBox]), by the place in the
    source that shows them. *)
Inductive Notice : Type :=
  | ChooseHullAlgorithm       (* performCalculation, no hull algorithm chosen *)
  | NeedThreeVertices         (* performCalculation *)
  | PolygonNotSimple          (* performCalculation *)
  | TooFewToTriangulate       (* calculateTriangulation *)
  | NotValidToTriangulate     (* calculateTriangulation *)
  | TriangulationStalled.     (* calculateTriangulation, attempt budget *)

(** The data members of [DrawingWidget] that the computations read or write.
    [notices] records the boxes shown so far; the members that hold Qt paths
    and pixmaps are not modelled. *)
Record DrawingWidget : Type := mkWidget {
  currentMode : Mode;
  taskToPerform : string;
  convexHullAlgorithm : string;
  displayMode : string;
  polygonsReadyForOperation : bool;
  points : list QPointF;
  convexHull : list QPointF;
  polygonVertices : list QPointF;
  triangles : list Triangle;
  polygonA : list QPointF;
  polygonB : list QPointF;
  weilerResultPolygons : list (list QPointF);
  polygonArea : Q;
  triangleCount : Z;
  notices : list Notice
}.

Definition set_currentMode (m : Mode) (w : DrawingWidget) : DrawingWidget :=
  mkWidget m (taskToPerform w) (convexHullAlgorithm w) (displayMode w)
    (polygonsReadyForOperation w) (points w) (convexHull w) (polygonVertices w)
    (triangles w) (polygonA w) (polygonB w) (weilerResultPolygons w)
    (polygonArea w) (triangleCount w) (notices w).

Definition set_convexHull (h : list QPointF) (w : DrawingWidget) : DrawingWidget :=
  mkWidget (currentMode w) (taskToPerform w) (convexHullAlgorithm w) (displayMode w)
    (polygonsReadyForOperation w) (points w) h (polygonVertices w)
    (triangles w) (polygonA w) (polygonB w) (weilerResultPolygons w)
    (polygonArea w) (triangleCount w) (notices w).

Definition set_triangles (t : list Triangle) (w : DrawingWidget) : DrawingWidget :=
  mkWidget (currentMode w) (taskToPerform w) (convexHullAlgorithm w) (displayMode w)
    (polygonsReadyForOperation w) (points w) (convexHull w) (polygonVertices w)
    t (polygonA w) (polygonB w) (weilerResultPolygons w)
    (polygonArea w) (triangleCount w) (notices w).

Definition set_weilerResultPolygons (r : list (list QPointF)) (w : DrawingWidget)
  : DrawingWidget :=
  mkWidget (currentMode w) (taskToPerform w) (convexHullAlgorithm w) (displayMode w)
    (polygonsReadyForOperation w) (points w) (convexHull w) (polygonVertices w)
    (triangles w) (polygonA w) (polygonB w) r
    (polygonArea w) (triangleCount w) (notices w).

Definition set_polygonArea (a : Q) (w : DrawingWidget) : DrawingWidget :=
  mkWidget (currentMode w) (taskToPerform w) (convexHullAlgorithm w) (displayMode w)
    (polygonsReadyForOperation w) (points w) (convexHull w) (polygonVertices w)
    (triangles w) (polygonA w) (polygonB w) (weilerResultPolygons w)
    a (triangleCount w) (notices w).

Definition set_triangleCount (c : Z) (w : DrawingWidget) : DrawingWidget :=
  mkWidget (currentMode w) (taskToPerform w) (convexHullAlgorithm w) (displayMode w)
    (polygonsReadyForOperation w) (points w) (convexHull w) (polygonVertices w)
    (triangles w) (polygonA w) (polygonB w) (weilerResultPolygons w)
    (polygonArea w) c (notices w).

(** [QMessageBox::warning] / [information]. *)
Definition notify (n : Notice) (w : DrawingWidget) : DrawingWidget :=
  mkWidget (currentMode w) (taskToPerform w) (convexHullAlgorithm w) (displayMode w)
    (polygonsReadyForOperation w) (points w) (convexHull w) (polygonVertices w)
    (triangles w) (polygonA w) (polygonB w) (weilerResultPolygons w)
    (polygonArea w) (triangleCount w) (notices w ++ [n]).

(** The outcome of running a loop of the source with a bound on the number
    of iterations that are followed: [OutOfFuel] when the loop is still
    running after that many. *)
Inductive Run (A : Type) : Type :=
  | Done (a : A)
  | OutOfFuel.
Arguments Done {A} a.
Arguments OutOfFuel {A}.

(** ** Area *)

(** The value [calculatePolygonArea] stores in [polygonArea]. *)
Definition shoelace_area (pts : list QPointF) : Q :=
  Qabs (shoelace_loop pts) /! 2.

(** [DrawingWidget::calculatePolygonArea]. *)
Definition calculatePolygonArea (w : DrawingWidget) : DrawingWidget :=
  set_currentMode IDLE (set_polygonArea (shoelace_area (polygonVertices w)) w).

(** ** Ear clipping *)

Module EarClipping.

(** [remaining.removeLast()] when the first and last vertex are equal. *)
Definition drop_closing (remaining : list QPointF) : list QPointF :=
  match remaining with
  | [] => []
  | first :: _ =>
      if point_eqb first (last remaining origin) then removelast remaining
      else remaining
  end.

(** [if (areaSign < 0) std::reverse(...)]. *)
Definition normalize_winding (remaining : list QPointF) : list QPointF :=
  if Qltb (shoelace_loop remaining) 0 then rev remaining else remaining.

(** The vertex list the main loop starts from. *)
Definition prepare (polygonVertices : list QPointF) : list QPointF :=
  normalize_winding (drop_closing polygonVertices).

(** [remaining.remove(k)]. *)
Definition remove_at (k : nat) (l : list QPointF) : list QPointF :=
  firstn k l ++ skipn (S k) l.

(** The candidate [Triangle ear(p1, p2, p3)] at index [i]. *)
Definition ear_at (remaining : list QPointF) (i : nat) : Triangle :=
  let n := length remaining in
  mkTriangle (at_ remaining i) (at_ remaining ((i + 1) mod n))
             (at_ remaining ((i + 2) mod n)).

(** The loop over [j]: no other remaining vertex lies in the candidate. *)
Definition isValidEar (remaining : list QPointF) (i : nat) : bool :=
  let n := length remaining in
  forallb
    (fun j =>
       if negb (j =? i)%nat && negb (j =? (i + 1) mod n)%nat
          && negb (j =? (i + 2) mod n)%nat
       then negb (contains (ear_at remaining i) (at_ remaining j))
       else true)
    (seq 0 n).

(** [long long cross = crossProduct(p1, p2, p3); if (cross > 0) ...] followed
    by the validity loop. *)
Definition is_ear (remaining : list QPointF) (i : nat) : bool :=
  let e := ear_at remaining i in
  (0 <? to_long_long (crossProduct (p1 e) (p2 e) (p3 e)))%Z
  && isValidEar remaining i.

(** The [for] loop over [i]: the first index at which an ear is clipped. *)
Definition find_ear (remaining : list QPointF) : option nat :=
  find (is_ear remaining) (seq 0 (length remaining)).

(** The variables of the main loop. *)
Record State : Type := mkState {
  remaining : list QPointF;
  emitted : list Triangle;       (* the member [triangles] *)
  attempts : Z
}.

(** One pass of the body of the [while] loop. *)
Definition scan (s : State) : State :=
  match find_ear (remaining s) with
  | Some i =>
      mkState (remove_at ((i + 1) mod length (remaining s)) (remaining s))
              (emitted s ++ [ear_at (remaining s) i])
              0
  | None => s
  end.

(** [while (remaining.size() > 3 && attempts < maxAttempts) { ... }] *)
Fixpoint loop (fuel : nat) (maxAttempts : Z) (s : State) : Run State :=
  if (3 <? length (remaining s))%nat && (attempts s <? maxAttempts)%Z then
    match fuel with
    | O => OutOfFuel
    | S fuel' => loop fuel' maxAttempts (scan s)
    end
  else Done s.

(** The code after the main loop. *)
Definition finish (maxAttempts : Z) (s : State) (w : DrawingWidget)
  : DrawingWidget :=
  if (length (remaining s) =? 3)%nat then
    let ts := emitted s ++ [mkTriangle (at_ (remaining s) 0) (at_ (remaining s) 1)
                                       (at_ (remaining s) 2)] in
    set_currentMode IDLE
      (set_triangleCount (Z.of_nat (length ts)) (set_triangles ts w))
  else if (maxAttempts <=? attempts s)%Z then
    set_triangles [] (notify TriangulationStalled (set_triangles (emitted s) w))
  else set_triangles (emitted s) w.

End EarClipping.

(** [DrawingWidget::calculateTriangulation]. *)
Definition calculateTriangulation (fuel : nat) (w : DrawingWidget)
  : Run DrawingWidget :=
  if (length (polygonVertices w) <? 3)%nat then
    Done (notify TooFewToTriangulate w)
  else if negb (isSimplePolygon (polygonVertices w)) then
    Done (notify NotValidToTriangulate w)
  else
    let remaining := EarClipping.prepare (polygonVertices w) in
    let maxAttempts := (Z.of_nat (length remaining) * 2)%Z in
    match EarClipping.loop fuel maxAttempts
            (EarClipping.mkState remaining [] 0) with
    | OutOfFuel => OutOfFuel
    | Done s => Done (EarClipping.finish maxAttempts s w)
    end.

(** ** Convex hulls *)

Module Hull.

(** [std::sort] with comparator [lt].  Where the comparator is a strict weak
    order the result is ordered and holds the same elements, and elements the
    comparator does not separate are equal points for both comparators used
    here, so that any sorting procedure yields the same sequence of values;
    insertion sort is used.  The comparator of Andrew's scan is such an order
    on all points, the polar comparator on pixel positions (near its
    tolerance [1e-9] it is not, and [std::sort] is then free to order the
    points in another way). *)
Fixpoint insert (lt : QPointF -> QPointF -> bool) (x : QPointF)
    (l : list QPointF) : list QPointF :=
  match l with
  | [] => [x]
  | y :: l' => if lt y x then y :: insert lt x l' else x :: l
  end.

Definition sort (lt : QPointF -> QPointF -> bool) (l : list QPointF)
  : list QPointF :=
  fold_right (insert lt) [] l.

(** The comparator of [calculateConvexHull_Andrew]. *)
Definition lex_lt (a b : QPointF) : bool :=
  Qltb (px a) (px b) || (Qeq_bool (px a) (px b) && Qltb (py a) (py b)).

(** A chain ([lower], [upper] or the hull under construction) is held with
    its last element first: [b :: a :: _] has [b = chain.last()] and
    [a = chain[chain.size()-2]]. *)

(** [while (chain.size() >= 2 && crossProduct(a, b, p) <= 0) chain.pop_back();] *)
Fixpoint pop_while (chain : list QPointF) (p : QPointF) : list QPointF :=
  match chain with
  | b :: ((a :: _) as rest) =>
      if Qle_bool (crossProduct a b p) 0 then pop_while rest p else chain
  | _ => chain
  end.

(** The pops followed by [chain.push_back(p)]. *)
Definition push (chain : list QPointF) (p : QPointF) : list QPointF :=
  p :: pop_while chain p.

(** A whole pass over the points in the given order. *)
Definition build_chain (pts : list QPointF) : list QPointF :=
  fold_left push pts [].

(** The hull of [calculateConvexHull_Andrew]:
    [lower] without its last point, then [upper] without its last point. *)
Definition andrew (points : list QPointF) : list QPointF :=
  let sortedPoints := sort lex_lt points in
  let lower := build_chain sortedPoints in
  let upper := build_chain (rev sortedPoints) in
  rev (tl lower) ++ rev (tl upper).

(** The search for the lowest point of [calculateConvexHull_Graham]. *)
Definition lower_than (a b : QPointF) : bool :=
  Qltb (py a) (py b) || (Qeq_bool (py a) (py b) && Qltb (px a) (px b)).

Definition minY_idx (tempPoints : list QPointF) : nat :=
  fold_left
    (fun m i => if lower_than (at_ tempPoints i) (at_ tempPoints m) then i else m)
    (seq 1 (length tempPoints - 1)) 0%nat.

(** [l] with [v] stored at index [k]. *)
Fixpoint set_at (k : nat) (v : QPointF) (l : list QPointF) : list QPointF :=
  match l, k with
  | [], _ => []
  | _ :: l', O => v :: l'
  | x :: l', S k' => x :: set_at k' v l'
  end.

(** [std::swap(tempPoints[0], tempPoints[k])]. *)
Definition swap0 (k : nat) (l : list QPointF) : list QPointF :=
  set_at k (at_ l 0) (set_at 0 (at_ l k) l).

Definition distSq (p0 a : QPointF) : Q :=
  (px p0 -! px a) *! (px p0 -! px a) +! (py p0 -! py a) *! (py p0 -! py a).

(** The polar comparator around [p0]. *)
Definition polar_lt (p0 a b : QPointF) : bool :=
  let order := crossProduct p0 a b in
  if Qltb (Qabs order) EPSILON then Qltb (distSq p0 a) (distSq p0 b)
  else Qltb 0 order.

(** [tempPoints] after the swap and the sort of [begin()+1 .. end()]. *)
Definition graham_order (points : list QPointF) : list QPointF :=
  let tempPoints := swap0 (minY_idx points) points in
  match tempPoints with
  | [] => []
  | p0 :: rest => p0 :: sort (polar_lt p0) rest
  end.

(** The hull of [calculateConvexHull_Graham]. *)
Definition graham (points : list QPointF) : list QPointF :=
  let tempPoints := graham_order points in
  if (length tempPoints <? 3)%nat then tempPoints
  else
    match tempPoints with
    | t0 :: t1 :: rest => rev (fold_left push rest [t1; t0])
    | _ => tempPoints
    end.

End Hull.

(** [DrawingWidget::calculateConvexHull_Andrew]. *)
Definition calculateConvexHull_Andrew (w : DrawingWidget) : DrawingWidget :=
  if (length (points w) <? 3)%nat then w
  else set_currentMode IDLE (set_convexHull (Hull.andrew (points w)) w).

(** [DrawingWidget::calculateConvexHull_Graham]. *)
Definition calculateConvexHull_Graham (w : DrawingWidget) : DrawingWidget :=
  if (length (points w) <? 3)%nat then w
  else set_currentMode IDLE (set_convexHull (Hull.graham (points w)) w).

(** ** Weiler-Atherton *)

(** [struct VertexNode].  A [std::list] iterator designates a list node and
    stays valid when other nodes are inserted; [nid] is that identity (unique
    over both lists), an iterator is [Some nid] and [end()] is [None]. *)
Record VertexNode : Type := mkNode {
  nid : nat;
  point : QPointF;
  is_intersection : bool;
  neighbor : option nat;
  is_entering : bool;
  processed : bool;
  alpha : Q
}.

Module Weiler.

Definition Iter : Type := option nat.

(** [{p}]: a node built from a polygon vertex. *)
Definition vertex_node (id : nat) (p : QPointF) : VertexNode :=
  mkNode id p false None false false 0.

Definition default_node : VertexNode := vertex_node 0 origin.

(** [l.begin()]. *)
Definition begin_it (l : list VertexNode) : Iter :=
  match l with
  | [] => None
  | n :: _ => Some (nid n)
  end.

(** [std::next(it)] (also [++it]). *)
Fixpoint next_it (l : list VertexNode) (id : nat) : Iter :=
  match l with
  | [] => None
  | n :: rest => if (nid n =? id)%nat then begin_it rest else next_it rest id
  end.

(** [(std::next(it) == l.end()) ? l.begin() : std::next(it)]. *)
Definition cyclic_next (l : list VertexNode) (id : nat) : Iter :=
  match next_it l id with
  | None => begin_it l
  | Some x => Some x
  end.

(** [*it]. *)
Definition deref (l : list VertexNode) (it : Iter) : VertexNode :=
  match it with
  | None => default_node
  | Some id =>
      match find (fun n => (nid n =? id)%nat) l with
      | Some n => n
      | None => default_node
      end
  end.

(** [l.insert(it, node)]: in front of the node [it], at the end for [end()]. *)
Fixpoint insert_before (l : list VertexNode) (it : Iter) (node : VertexNode)
  : list VertexNode :=
  match l with
  | [] => [node]
  | n :: rest =>
      if match it with Some id => (nid n =? id)%nat | None => false end
      then node :: n :: rest
      else n :: insert_before rest it node
  end.

(** [it->processed = true]. *)
Definition mark_processed (l : list VertexNode) (it : Iter) : list VertexNode :=
  match it with
  | None => l
  | Some id =>
      map (fun n =>
             if (nid n =? id)%nat
             then mkNode (nid n) (point n) (is_intersection n) (neighbor n)
                         (is_entering n) true (alpha n)
             else n) l
  end.

Record Lists : Type := mkLists {
  listA : list VertexNode;
  listB : list VertexNode
}.

(** The two lists as first built from the polygons. *)
Definition initial_lists (polyA polyB : list QPointF) : Lists :=
  mkLists
    (map (fun ip => vertex_node (fst ip) (snd ip))
         (combine (seq 0 (length polyA)) polyA))
    (map (fun ip => vertex_node (fst ip) (snd ip))
         (combine (seq (length polyA) (length polyB)) polyB)).

(** The body of the inner loop for the edges starting at [itA] and [itB]. *)
Definition intersect_step (itA next_itA : Iter) (itB : nat) (L : Lists) : Lists :=
  let next_itB := cyclic_next (listB L) itB in
  let a := point (deref (listA L) itA) in
  let a' := point (deref (listA L) next_itA) in
  let b := point (deref (listB L) (Some itB)) in
  let b' := point (deref (listB L) next_itB) in
  match getLineSegmentIntersection a a' b b' with
  | Some (pt, alpha) =>
      let idA := (length (listA L) + length (listB L))%nat in
      let idB := S idA in
      let cross := crossProduct origin (point_sub a' a) (point_sub b' b) in
      let nodeA := mkNode idA pt true (Some idB) (Qltb 0 cross) false alpha in
      let nodeB := mkNode idB pt true (Some idA) (Qltb cross 0) false 0 in
      mkLists (insert_before (listA L) next_itA nodeA)
              (insert_before (listB L) next_itB nodeB)
  | None => L
  end.

(** [for (itB = listB.begin(); itB != listB.end(); ++itB)]. *)
Fixpoint loopB (fuel : nat) (itA next_itA : Iter) (itB : Iter) (L : Lists)
  : Run Lists :=
  match itB with
  | None => Done L
  | Some b =>
      match fuel with
      | O => OutOfFuel
      | S fuel' =>
          let L' := intersect_step itA next_itA b L in
          loopB fuel' itA next_itA (next_it (listB L') b) L'
      end
  end.

(** [for (itA = listA.begin(); itA != listA.end(); ++itA)]. *)
Fixpoint loopA (fuel : nat) (itA : Iter) (L : Lists) : Run Lists :=
  match itA with
  | None => Done L
  | Some a =>
      match fuel with
      | O => OutOfFuel
      | S fuel' =>
          match loopB fuel' (Some a) (cyclic_next (listA L) a)
                      (begin_it (listB L)) L with
          | OutOfFuel => OutOfFuel
          | Done L' => loopA fuel' (next_it (listA L') a) L'
          end
      end
  end.

(** The list [current_list] points to. *)
Definition current (in_A : bool) (L : Lists) : list VertexNode :=
  if in_A then listA L else listB L.

Definition mark_in (in_A : bool) (it : Iter) (L : Lists) : Lists :=
  if in_A then mkLists (mark_processed (listA L) it) (listB L)
  else mkLists (listA L) (mark_processed (listB L) it).

Definition iter_eqb (a b : Iter) : bool :=
  match a, b with
  | Some x, Some y => (x =? y)%nat
  | None, None => true
  | _, _ => false
  end.

(** The [do { ... } while (...)] loop that walks one contour; [budget] is the
    number of passes [loop_guard] still allows. *)
Fixpoint walk (budget : nat) (is_union : bool) (it_start : nat)
    (current_iter : Iter) (in_A : bool) (L : Lists)
    (current_result : list QPointF) : Lists * list QPointF :=
  match budget with
  | O => (L, current_result)
  | S budget' =>
      let node := deref (current in_A L) current_iter in
      let L1 := mark_in in_A current_iter L in
      let L2 := if is_intersection node
                then mark_in (negb in_A) (neighbor node) L1 else L1 in
      let result := current_result ++ [point node] in
      let switch := is_intersection node
                    && negb (Bool.eqb is_union (is_entering node)) in
      let iter1 := if switch then neighbor node else current_iter in
      let in_A' := if switch then negb in_A else in_A in
      let iter2 :=
        match iter1 with
        | Some id => cyclic_next (current in_A' L2) id
        | None => None
        end in
      let start := deref (listA L2) (Some it_start) in
      if negb (iter_eqb iter2 (Some it_start))
         && (negb (is_intersection start)
             || negb (iter_eqb iter2 (neighbor start)))
      then walk budget' is_union it_start iter2 in_A' L2 result
      else (L2, result)
  end.

(** The body of the loop over [it_start]. *)
Definition contour_step (opType : BooleanOpType)
    (st : Lists * list (list QPointF)) (it_start : nat)
  : Lists * list (list QPointF) :=
  let L := fst st in
  let start := deref (listA L) (Some it_start) in
  if negb (is_intersection start) || processed start then st
  else
    let is_union := match opType with Union => true | Intersection => false end in
    if Bool.eqb is_union (is_entering start) then st
    else
      let max_loops := (length (listA L) + length (listB L) + 1)%nat in
      let '(L', current_result) :=
        walk max_loops is_union it_start (Some it_start) true L [] in
      if (2 <? length current_result)%nat
      then (L', snd st ++ [current_result])
      else (L', snd st).

(** The contours found by the traversal. *)
Definition contours (opType : BooleanOpType) (L : Lists)
  : list (list QPointF) :=
  snd (fold_left (contour_step opType) (map nid (listA L)) (L, [])).

(** The branch for operands without a common contour. *)
Definition fallback (opType : BooleanOpType) (polyA polyB : list QPointF)
  : list (list QPointF) :=
  let a_in_b := isPointInsidePolygon (at_ polyA 0) polyB in
  let b_in_a := isPointInsidePolygon (at_ polyB 0) polyA in
  match opType with
  | Intersection =>
      if a_in_b then [polyA] else if b_in_a then [polyB] else []
  | Union =>
      if a_in_b then [polyB] else if b_in_a then [polyA] else [polyA; polyB]
  end.

(** [if (computeAreaSign(poly) > 0) std::reverse(...)] on the private copy. *)
Definition normalize (poly : list QPointF) : list QPointF :=
  if Qltb 0 (computeAreaSign poly) then rev poly else poly.

Definition isEmpty {A : Type} (l : list A) : bool :=
  match l with [] => true | _ => false end.

End Weiler.

(** [DrawingWidget::calculateBooleanOp_WeilerAtherton]. *)
Definition calculateBooleanOp_WeilerAtherton (fuel : nat)
    (opType : BooleanOpType) (w : DrawingWidget) : Run DrawingWidget :=
  let w0 := set_weilerResultPolygons [] w in
  if (length (polygonA w0) <? 3)%nat || (length (polygonB w0) <? 3)%nat
  then Done w0
  else
    let polyA := Weiler.normalize (polygonA w0) in
    let polyB := Weiler.normalize (polygonB w0) in
    let L0 := Weiler.initial_lists polyA polyB in
    match Weiler.loopA fuel (Weiler.begin_it (Weiler.listA L0)) L0 with
    | OutOfFuel => OutOfFuel
    | Done L =>
        let found := Weiler.contours opType L in
        let result :=
          if Weiler.isEmpty found && negb (Weiler.isEmpty polyA)
             && negb (Weiler.isEmpty polyB)
          then Weiler.fallback opType polyA polyB
          else found in
        Done (set_weilerResultPolygons result w0)
    end.

(** Two overlapping squares. *)
Definition squareA : list QPointF := [pixel 0 0; pixel 4 0; pixel 4 4; pixel 0 4].
Definition squareB : list QPointF := [pixel 2 2; pixel 6 2; pixel 6 6; pixel 2 6].
Definition blank : DrawingWidget :=
  mkWidget IDLE EmptyString EmptyString EmptyString false [] [] [] [] [] [] []
           (-1) (-1) [].
Definition two_squares : DrawingWidget :=
  mkWidget IDLE EmptyString EmptyString EmptyString true [] [] [] []
           squareA squareB [] (-1) (-1) [].


(** ** Dispatch *)

(** The computations a slot or event handler can start. *)
Inductive Callee : Type :=
  | Call_ConvexHull_Andrew
  | Call_ConvexHull_Graham
  | Call_IntersectionAndUnion
  | Call_BooleanOp_WeilerAtherton (opType : BooleanOpType)
  | Call_Triangulation
  | Call_PolygonArea.

Definition is_IntersectionAndUnion (c : Callee) : bool :=
  match c with Call_IntersectionAndUnion => true | _ => false end.

Definition mode_eqb (a b : Mode) : bool :=
  match a, b with
  | IDLE, IDLE | ADD_POINTS_CONVEX_HULL, ADD_POINTS_CONVEX_HULL
  | DRAW_POLYGON, DRAW_POLYGON | DRAW_POLYGON_A, DRAW_POLYGON_A
  | DRAW_POLYGON_B, DRAW_POLYGON_B => true
  | _, _ => false
  end.

(** What [DrawingWidget::performCalculation] does before its final
    [update()]: the box it shows or the computation it starts. *)
Inductive Dispatch : Type :=
  | Show (n : Notice)
  | Start (c : Callee)
  | Nothing.

Definition performCalculation_dispatch (w : DrawingWidget) : Dispatch :=
  if mode_eqb (currentMode w) ADD_POINTS_CONVEX_HULL then
    if String.eqb (convexHullAlgorithm w) "Andrew" then
      Start Call_ConvexHull_Andrew
    else if String.eqb (convexHullAlgorithm w) "Graham" then
      Start Call_ConvexHull_Graham
    else Show ChooseHullAlgorithm
  else if mode_eqb (currentMode w) DRAW_POLYGON then
    if (length (polygonVertices w) <? 3)%nat then Show NeedThreeVertices
    else if negb (isSimplePolygon (polygonVertices w)) then Show PolygonNotSimple
    else if String.eqb (taskToPerform w) "triangulate" then
      Start Call_Triangulation
    else if String.eqb (taskToPerform w) "area" then Start Call_PolygonArea
    else if mode_eqb (currentMode w) DRAW_POLYGON_B
            && (3 <=? length (polygonB w))%nat then
      Start Call_IntersectionAndUnion
    else Nothing
  else Nothing.

(** The computations started by one call of [performCalculation]. *)
Definition performCalculation_calls (w : DrawingWidget) : list Callee :=
  match performCalculation_dispatch w with
  | Start c => [c]
  | _ => []
  end.

(** The state after a started computation returns.  The QPainterPath
    computation writes only members that are not modelled. *)
Definition run_callee (fuel : nat) (c : Callee) (w : DrawingWidget)
  : Run DrawingWidget :=
  match c with
  | Call_ConvexHull_Andrew => Done (calculateConvexHull_Andrew w)
  | Call_ConvexHull_Graham => Done (calculateConvexHull_Graham w)
  | Call_IntersectionAndUnion => Done w
  | Call_BooleanOp_WeilerAtherton opType =>
      calculateBooleanOp_WeilerAtherton fuel opType w
  | Call_Triangulation => calculateTriangulation fuel w
  | Call_PolygonArea => Done (calculatePolygonArea w)
  end.

(** [DrawingWidget::performCalculation]. *)
Definition performCalculation (fuel : nat) (w : DrawingWidget)
  : Run DrawingWidget :=
  match performCalculation_dispatch w with
  | Show n => Done (notify n w)
  | Start c => run_callee fuel c w
  | Nothing => Done w
  end.

Inductive MouseButton : Type := LeftButton | RightButton | OtherButton.

(** The public slots and event handlers of [DrawingWidget], with [setTask]. *)
Inductive Entry : Type :=
  | E_setTask (task : string)
  | E_setMode (newMode : Mode)
  | E_clearScreen
  | E_performCalculation
  | E_startAndrewConvexHull
  | E_startGrahamConvexHull
  | E_showIntersection_QPainterPath
  | E_showUnion_QPainterPath
  | E_showIntersection_Weiler
  | E_showUnion_Weiler
  | E_mousePressEvent (button : MouseButton) (pos : QPointF)
  | E_paintEvent.

(** The computations each entry point starts in state [w], in order. *)
Definition computations (e : Entry) (w : DrawingWidget) : list Callee :=
  match e with
  | E_performCalculation => performCalculation_calls w
  | E_showIntersection_QPainterPath => [Call_IntersectionAndUnion]
  | E_showUnion_QPainterPath => [Call_IntersectionAndUnion]
  | E_showIntersection_Weiler => [Call_BooleanOp_WeilerAtherton Intersection]
  | E_showUnion_Weiler => [Call_BooleanOp_WeilerAtherton Union]
  | E_mousePressEvent RightButton _ =>
      if mode_eqb (currentMode w) DRAW_POLYGON_A
         && (3 <=? length (polygonA w))%nat then []
      else if mode_eqb (currentMode w) DRAW_POLYGON_B
              && (3 <=? length (polygonB w))%nat then []
      else if mode_eqb (currentMode w) DRAW_POLYGON
              && (3 <=? length (polygonVertices w))%nat then
        if negb (isSimplePolygon (polygonVertices w)) then []
        else performCalculation_calls w
      else if mode_eqb (currentMode w) ADD_POINTS_CONVEX_HULL
              && (3 <=? length (points w))%nat then
        performCalculation_calls w
      else []
  | _ => []
  end.

Definition is_QPainterPath_slot (e : Entry) : bool :=
  match e with
  | E_showIntersection_QPainterPath | E_showUnion_QPainterPath => true
  | _ => false
  end.

Definition set_polygonVertices (v : list QPointF) (w : DrawingWidget)
  : DrawingWidget :=
  mkWidget (currentMode w) (taskToPerform w) (convexHullAlgorithm w) (displayMode w)
    (polygonsReadyForOperation w) (points w) (convexHull w) v
    (triangles w) (polygonA w) (polygonB w) (weilerResultPolygons w)
    (polygonArea w) (triangleCount w) (notices w).
(** * The same computations over the rationals

    [Module Exact] repeats the arithmetic of the program without rounding:
    every operation is the exact one and a conversion to an integer only
    truncates.  These definitions are not the program; they are what the
    program computes wherever its operations are exact, and the notions
    below are stated with them. *)

Module Exact.

(** Truncation toward zero. *)
Definition to_long_long (d : Q) : Z := Z.quot (Qnum d) (Zpos (Qden d)).

(** Twice the signed area of the triangle [p1 p2 p3]. *)
Definition crossProduct (p1 p2 p3 : QPointF) : Q :=
  (px p2 - px p1) * (py p3 - py p1) - (py p2 - py p1) * (px p3 - px p1).

(** One term of the shoelace sum: [p1.x * p2.y - p2.x * p1.y]. *)
Definition shoelace_term (p1 p2 : QPointF) : Q :=
  px p1 * py p2 - px p2 * py p1.

(** The shoelace sum: twice the signed area of the polygon. *)
Definition shoelace_loop (pts : list QPointF) : Q :=
  let n := length pts in
  fold_left
    (fun sum i => sum + shoelace_term (at_ pts i) (at_ pts ((i + 1) mod n)))
    (seq 0 n) 0.

Definition onSegment (a b c : QPointF) : bool :=
  if Qltb (px c) (Qmin (px a) (px b)) || Qltb (Qmax (px a) (px b)) (px c)
     || Qltb (py c) (Qmin (py a) (py b)) || Qltb (Qmax (py a) (py b)) (py c)
  then false
  else Qltb (Qabs (crossProduct a b c)) TOL10.

Definition cross_ll (a b c : QPointF) : Q :=
  inject_Z (to_long_long (px b - px a)) * (py c - py a)
  - inject_Z (to_long_long (py b - py a)) * (px c - px a).

Definition segmentsIntersect (p1 p2 q1 q2 : QPointF) : bool :=
  let o1 := to_long_long (cross_ll p1 p2 q1) in
  let o2 := to_long_long (cross_ll p1 p2 q2) in
  let o3 := to_long_long (cross_ll q1 q2 p1) in
  let o4 := to_long_long (cross_ll q1 q2 p2) in
  if (((0 <? o1)%Z && (o2 <? 0)%Z) || ((o1 <? 0)%Z && (0 <? o2)%Z))
     && (((0 <? o3)%Z && (o4 <? 0)%Z) || ((o3 <? 0)%Z && (0 <? o4)%Z))
  then true
  else if (o1 =? 0)%Z && onSegment p1 p2 q1
          && negb (point_eqb q1 p1 || point_eqb q1 p2) then true
  else if (o2 =? 0)%Z && onSegment p1 p2 q2
          && negb (point_eqb q2 p1 || point_eqb q2 p2) then true
  else if (o3 =? 0)%Z && onSegment q1 q2 p1
          && negb (point_eqb p1 q1 || point_eqb p1 q2) then true
  else if (o4 =? 0)%Z && onSegment q1 q2 p2
          && negb (point_eqb p2 q1 || point_eqb p2 q2) then true
  else false.

(** The determinant and the two parameters of the crossing of two lines. *)
Definition seg_det (p1 p2 p3 p4 : QPointF) : Q :=
  (px p2 - px p1) * (py p4 - py p3) - (py p2 - py p1) * (px p4 - px p3).

Definition seg_t (p1 p2 p3 p4 : QPointF) : Q :=
  ((px p3 - px p1) * (py p4 - py p3) - (py p3 - py p1) * (px p4 - px p3))
  / seg_det p1 p2 p3 p4.

Definition seg_u (p1 p2 p3 p4 : QPointF) : Q :=
  - ((px p2 - px p1) * (py p3 - py p1) - (py p2 - py p1) * (px p3 - px p1))
  / seg_det p1 p2 p3 p4.

(** The scans of the two hull algorithms. *)
Fixpoint pop_while (chain : list QPointF) (p : QPointF) : list QPointF :=
  match chain with
  | b :: ((a :: _) as rest) =>
      if Qle_bool (crossProduct a b p) 0 then pop_while rest p else chain
  | _ => chain
  end.

Definition push (chain : list QPointF) (p : QPointF) : list QPointF :=
  p :: pop_while chain p.

Definition build_chain (pts : list QPointF) : list QPointF :=
  fold_left push pts [].

Definition andrew (points : list QPointF) : list QPointF :=
  let sortedPoints := Hull.sort Hull.lex_lt points in
  let lower := build_chain sortedPoints in
  let upper := build_chain (rev sortedPoints) in
  rev (tl lower) ++ rev (tl upper).

Definition distSq (p0 a : QPointF) : Q :=
  (px p0 - px a) * (px p0 - px a) + (py p0 - py a) * (py p0 - py a).

Definition polar_lt (p0 a b : QPointF) : bool :=
  let order := crossProduct p0 a b in
  if Qltb (Qabs order) EPSILON then Qltb (distSq p0 a) (distSq p0 b)
  else Qltb 0 order.

Definition graham_order (points : list QPointF) : list QPointF :=
  let tempPoints := Hull.swap0 (Hull.minY_idx points) points in
  match tempPoints with
  | [] => []
  | p0 :: rest => p0 :: Hull.sort (polar_lt p0) rest
  end.

Definition graham (points : list QPointF) : list QPointF :=
  let tempPoints := graham_order points in
  if (length tempPoints <? 3)%nat then tempPoints
  else
    match tempPoints with
    | t0 :: t1 :: rest => rev (fold_left push rest [t1; t0])
    | _ => tempPoints
    end.

End Exact.

(** ** Notions used to state the properties *)

(** The sum of the shoelace terms over the consecutive pairs of an open
    chain of points. *)
Fixpoint path_sum (l : list QPointF) : Q :=
  match l with
  | [] => 0
  | x :: t =>
      match t with
      | [] => 0
      | y :: _ => Exact.shoelace_term x y + path_sum t
      end
  end.

(** The chain closed by a copy of its first point. *)
Definition close (l : list QPointF) : list QPointF :=
  match l with
  | [] => []
  | a :: _ => l ++ [a]
  end.

(** [F 0 + ... + F (k-1)]. *)
Fixpoint sum_upto (F : nat -> Q) (k : nat) : Q :=
  match k with
  | O => 0
  | S k' => sum_upto F k' + F k'
  end.

(** The vertex list started [k] places later (a cyclic rotation). *)
Definition rotate (k : nat) (l : list QPointF) : list QPointF :=
  skipn k l ++ firstn k l.

(** The winding convention as the specification words it: a positive
    shoelace sum is a clockwise polygon, and the clockwise polygon is the one
    whose vertex order is reversed. *)
Definition winds_clockwise (pts : list QPointF) : bool :=
  Qltb 0 (shoelace_loop pts).

Definition normalize_as_worded (pts : list QPointF) : list QPointF :=
  if winds_clockwise pts then rev pts else pts.

(** Two triangles that meet in the vertex (200, 200), drawn in one stroke:
    that pixel is clicked twice. *)
Definition hourglass : list QPointF :=
  [pixel 100 100; pixel 200 200; pixel 300 100;
   pixel 300 300; pixel 200 200; pixel 100 300].

(** Two points with the same coordinates. *)
Definition same_point (a b : QPointF) : Prop :=
  px a == px b /\ py a == py b.

(** The polygon has an edge of length zero: a vertex equal to its successor
    (the successor of the last vertex is the first). *)
Definition has_zero_length_edge (poly : list QPointF) : Prop :=
  exists i, (i < length poly)%nat
            /\ same_point (at_ poly i) (at_ poly ((i + 1) mod length poly)).

(** The segments [p1 p2] and [q1 q2] cross: they are not parallel and have a
    common point that is an end point of neither. *)
Definition properly_cross (p1 p2 q1 q2 : QPointF) : Prop :=
  ~ Exact.seg_det p1 p2 q1 q2 == 0
  /\ exists t u : Q,
       0 < t /\ t < 1 /\ 0 < u /\ u < 1
       /\ px p1 + t * (px p2 - px p1) == px q1 + u * (px q2 - px q1)
       /\ py p1 + t * (py p2 - py p1) == py q1 + u * (py q2 - py q1).

(** The edges [i] and [j] of an [n]-gon are the same edge or share a vertex
    as neighbours. *)
Definition adjacent_edges (n i j : nat) : Prop :=
  i = j \/ j = ((i + 1) mod n)%nat \/ i = ((j + 1) mod n)%nat.

(** Two edges of the polygon that are not adjacent cross. *)
Definition has_crossing_edges (poly : list QPointF) : Prop :=
  let n := length poly in
  exists i j, (i < n)%nat /\ (j < n)%nat /\ ~ adjacent_edges n i j
              /\ properly_cross (at_ poly i) (at_ poly ((i + 1) mod n))
                                (at_ poly j) (at_ poly ((j + 1) mod n)).

(** A bow-tie on pixels. *)
Definition bowtie : list QPointF := [pixel 0 0; pixel 2 2; pixel 2 0; pixel 0 2].

(** No edge of [A] has a strict interior intersection with an edge of [B],
    as [getLineSegmentIntersection] finds them. *)
Definition no_strict_intersection (A B : list QPointF) : Prop :=
  forall i j, (i < length A)%nat -> (j < length B)%nat ->
    getLineSegmentIntersection
      (at_ A i) (at_ A ((i + 1) mod length A))
      (at_ B j) (at_ B ((j + 1) mod length B)) = None.

(** Two squares far from each other, and a small square inside [squareB]. *)
Definition squareC : list QPointF := [pixel 10 0; pixel 14 0; pixel 14 4; pixel 10 4].
Definition squareD : list QPointF := [pixel 3 3; pixel 5 3; pixel 5 5; pixel 3 5].

Definition with_operands (A B : list QPointF) : DrawingWidget :=
  mkWidget IDLE EmptyString EmptyString EmptyString true [] [] [] []
           A B [] (-1) (-1) [].

(** The list of nodes built from a polygon, numbered from [s]. *)
Definition nodes_from (s : nat) (poly : list QPointF) : list VertexNode :=
  map (fun ip => Weiler.vertex_node (fst ip) (snd ip))
      (combine (seq s (length poly)) poly).

(** ** Orders in which the hull scans receive the points *)

(** Vectors from the pivot of the angular sweep: the closed upper half plane
    without the ray to the left. *)
Definition upper_half (x y : Q) : Prop := 0 < y \/ (y == 0 /\ 0 <= x).

Definition vcross (ux uy vx vy : Q) : Q := ux * vy - uy * vx.

Definition vnorm (ux uy : Q) : Q := ux * ux + uy * uy.

(** [u] comes before [v] around the pivot: a smaller polar angle, or the same
    angle and not farther away. *)
Definition vpolar_le (ux uy vx vy : Q) : Prop :=
  0 < vcross ux uy vx vy
  \/ (vcross ux uy vx vy == 0 /\ vnorm ux uy <= vnorm vx vy).

(** The cross product of three points given by their vectors. *)
Definition cross3 (ax ay bx by_ cx cy : Q) : Q :=
  (bx - ax) * (cy - ay) - (by_ - ay) * (cx - ax).

(** The order of [lex_lt]: by [x], then by [y]. *)
Definition lex_le (a b : QPointF) : Prop :=
  px a < px b \/ (px a == px b /\ py a <= py b).

(** The same order read backwards, in which the upper chain is built. *)
Definition lex_ge (a b : QPointF) : Prop := lex_le b a.

(** [q] is not below the pivot [p0]: the order of [lower_than]. *)
Definition above (p0 q : QPointF) : Prop :=
  upper_half (px q - px p0) (py q - py p0).

(** The order of [polar_lt] around [p0] when its tolerance test is exact. *)
Definition polar_le (p0 a b : QPointF) : Prop :=
  vpolar_le (px a - px p0) (py a - py p0) (px b - px p0) (py b - py p0).

(** ** Chains *)

(** [R] holds of every element and the one that follows it. *)
Fixpoint pairs_ok (R : QPointF -> QPointF -> Prop) (l : list QPointF) : Prop :=
  match l with
  | b :: ((a :: _) as t) => R b a /\ pairs_ok R t
  | _ => True
  end.

(** [R] holds of every three elements in a row. *)
Fixpoint triples_ok (R : QPointF -> QPointF -> QPointF -> Prop)
    (l : list QPointF) : Prop :=
  match l with
  | c :: ((b :: a :: _) as t) => R c b a /\ triples_ok R t
  | _ => True
  end.

(** [a] is immediately followed by [b] in [l]. *)
Definition adj (a b : QPointF) (l : list QPointF) : Prop :=
  exists l1 l2, l = l1 ++ a :: b :: l2.

(** Every point of [pts] is on the left of, or on, the line from [a] to [b]. *)
Definition supports (pts : list QPointF) (a b : QPointF) : Prop :=
  forall q, In q pts -> 0 <= Exact.crossProduct a b q.

(** ** Convex hulls of a point set *)

(** Some three points of the set are not on one line. *)
Definition non_collinear (pts : list QPointF) : Prop :=
  exists a b c, In a pts /\ In b pts /\ In c pts /\ ~ Exact.crossProduct a b c == 0.

(** [v] is a corner of the polygon [H] around [pts]: it has a predecessor and a
    successor among the vertices, the lines through the two edges leave
    every point of [pts] on their left, and the turn at [v] is a strict left
    turn. *)
Definition corner (pts H : list QPointF) (v : QPointF) : Prop :=
  exists z u, In z H /\ In u H
              /\ supports pts z v /\ supports pts v u
              /\ 0 < Exact.crossProduct z v u.

(** [H] is a list of corners of [pts], all of them points of [pts]. *)
Definition is_hull (pts H : list QPointF) : Prop :=
  H <> [] /\ incl H pts /\ forall v, In v H -> corner pts H v.

(** The two lists have the same points. *)
Definition same_vertices (H1 H2 : list QPointF) : Prop :=
  (forall v, In v H1 -> exists v', In v' H2 /\ same_point v v')
  /\ (forall v, In v H2 -> exists v', In v' H1 /\ same_point v v').

(** [q] is on the left of, or on, every edge of the polygon [H], the edge
    from the last vertex to the first included. *)
Definition on_or_inside (H : list QPointF) (q : QPointF) : Prop :=
  forall i, (i < length H)%nat ->
            0 <= Exact.crossProduct (at_ H i) (at_ H ((i + 1) mod length H)) q.

(** The distance along the direction from [v] to [u]. *)
Definition along (v u q : QPointF) : Q :=
  (px u - px v) * (px q - px v) + (py u - py v) * (py q - py v).

(** ** The scan of a hull, for an order [le] on the points of [D] *)

(** The chain is kept with its last element first. *)
Definition chain_sorted (le : QPointF -> QPointF -> Prop) (C : list QPointF)
  : Prop :=
  pairs_ok (fun b a => le a b) C.

Definition chain_turns (C : list QPointF) : Prop :=
  triples_ok (fun c b a => 0 < Exact.crossProduct a b c) C.

(** A processed point between two neighbours of the chain is on the left of
    the edge between them. *)
Definition chain_local (le : QPointF -> QPointF -> Prop) (P C : list QPointF)
  : Prop :=
  pairs_ok (fun b a => forall q, In q P -> le a q -> le q b ->
                                 0 <= Exact.crossProduct a b q) C.

(** Every processed point not before the top of the chain is on the left of
    the line from the top to the new point [p]. *)
Definition pop_inv (le : QPointF -> QPointF -> Prop) (P : list QPointF)
    (p : QPointF) (C : list QPointF) : Prop :=
  forall q t, In q P -> hd_error C = Some t -> le t q ->
              0 <= Exact.crossProduct t p q.

(** The chain [C] after the points [P] have been pushed. *)
Record Inv (D : QPointF -> Prop) (le : QPointF -> QPointF -> Prop)
    (P C : list QPointF) : Prop := mkInv {
  inv_D : Forall D P;
  inv_incl : incl C P;
  inv_ends : match P with
             | [] => C = []
             | s :: _ => hd_error C = Some (last P origin)
                         /\ last C origin = s
             end;
  inv_sorted : chain_sorted le C;
  inv_turns : chain_turns C;
  inv_local : chain_local le P C;
  inv_top : forall q t, In q P -> hd_error C = Some t -> le q t;
  inv_bot : forall q, In q P -> le (last C origin) q
}.

(** The points come in the order [le]. *)
Definition scan_sorted (D : QPointF -> Prop) (le : QPointF -> QPointF -> Prop)
    (S : list QPointF) : Prop :=
  forall P p rest, S = P ++ p :: rest -> D p /\ forall q, In q P -> le q p.

(** What the corners need of a finished chain. *)
Record Chain (pts C : list QPointF) : Prop := mkChain {
  ch_len : (2 <= length C)%nat;
  ch_incl : incl C pts;
  ch_supports : pairs_ok (fun b a => supports pts a b) C;
  ch_turns : triples_ok (fun c b a => 0 < Exact.crossProduct a b c) C;
  ch_distinct : pairs_ok (fun b a => ~ same_point a b) C
}.

(** A widget on which the points of [pts] have been clicked. *)
Definition with_points (pts : list QPointF) : DrawingWidget :=
  mkWidget ADD_POINTS_CONVEX_HULL EmptyString EmptyString EmptyString false
           pts [] [] [] [] [] [] (-1) (-1) [].

(** Six pixels: the corners of a rectangle, one pixel on its lower side and
    one inside. *)
Definition six_pixels : list QPointF :=
  [pixel 2 1; pixel 0 0; pixel 4 3; pixel 2 0; pixel 0 3; pixel 4 0].


(** ** Pixel positions *)

(** A pixel position whose coordinates are at most [B] in magnitude. *)
Definition pixel_within (B : Z) (p : QPointF) : Prop :=
  exists x y : Z, p = pixel x y /\ (Z.abs x <= B)%Z /\ (Z.abs y <= B)%Z.

Definition pixels (B : Z) (pts : list QPointF) : Prop :=
  Forall (pixel_within B) pts.

(** An integer of magnitude at most [M]. *)
Definition int_le (M : Z) (q : Q) : Prop :=
  exists z : Z, q == inject_Z z /\ (Z.abs z <= M)%Z.

(** A triangle on pixel positions beyond [2 ^ 25]. *)
Definition big_triangle : list QPointF :=
  [pixel 40062742 15776117; pixel 112916253 79138243; pixel 37903733 121642844].

(** Two segments on pixel positions beyond [2 ^ 25]: the end point
    (71212269, 66214394) of the first is the midpoint of the second. *)
Definition touching_p1 : QPointF := pixel 142424539 132428789.
Definition touching_p2 : QPointF := pixel 71212269 66214394.
Definition touching_p3 : QPointF := pixel 0 0.
Definition touching_p4 : QPointF := pixel 142424538 132428788.

(** A bow-tie on pixel positions beyond [2 ^ 25]: its first and third edge
    cross next to the vertex (103089513, 106261498). *)
Definition big_bowtie : list QPointF :=
  [pixel 120705 124419; pixel 103089513 106261498;
   pixel 103089578 106261565; pixel 0 0].

(** Three pixel positions beyond [2 ^ 25], not on one line: the second is two
    units of area off the line through the other two. *)
Definition far_pixels : list QPointF :=
  [pixel 3684409 2786367; pixel 85981944 56310073; pixel 240616971 156879789].

(** The lines through two segments cross at a point strictly inside both:
    the determinant is not zero and both parameters of the crossing are
    strictly between 0 and 1. *)
Definition crosses_inside (p1 p2 p3 p4 : QPointF) : Prop :=
  ~ Exact.seg_det p1 p2 p3 p4 == 0
  /\ 0 < Exact.seg_t p1 p2 p3 p4 /\ Exact.seg_t p1 p2 p3 p4 < 1
  /\ 0 < Exact.seg_u p1 p2 p3 p4 /\ Exact.seg_u p1 p2 p3 p4 < 1.

(** A triangle and a square on either side of the line [x = 200]: the
    vertex (200, 100) of the triangle lies on the left side of the square,
    and the two have no other point in common. *)
Definition touch_triangle : list QPointF :=
  [pixel 200 100; pixel 0 0; pixel 0 200].
Definition touch_square : list QPointF :=
  [pixel 200 0; pixel 400 0; pixel 400 200; pixel 200 200].

(** One turn of the loop of [isPointInsidePolygon]: whether the ray from
    [point] to the right is counted as crossing the edge from [p_j] to
    [p_i]. *)
Definition crossed_by_ray (point p_i p_j : QPointF) : bool :=
  negb (Bool.eqb (Qltb (py point) (py p_i)) (Qltb (py point) (py p_j)))
  && Qltb (px point)
          ((px p_j -! px p_i) *! (py point -! py p_i) /! (py p_j -! py p_i)
           +! px p_i).

(** A vertical or a horizontal line has all of [P] strictly on one side and
    all of [R] strictly on the other. *)
Definition separated (P R : list QPointF) : Prop :=
  (forall p r, In p P -> In r R -> px p < px r)
  \/ (forall p r, In p P -> In r R -> px r < px p)
  \/ (forall p r, In p P -> In r R -> py p < py r)
  \/ (forall p r, In p P -> In r R -> py r < py p).

(** The rectangle with opposite corners [(x0, y0)] and [(x1, y1)], and the
    points strictly inside it. *)
Definition rectangle (x0 y0 x1 y1 : Z) : list QPointF :=
  [pixel x0 y0; pixel x1 y0; pixel x1 y1; pixel x0 y1].

Definition strictly_in_box (x0 y0 x1 y1 : Z) (p : QPointF) : Prop :=
  inject_Z x0 < px p /\ px p < inject_Z x1
  /\ inject_Z y0 < py p /\ py p < inject_Z y1.

(** The call returns and stores [result] in [weilerResultPolygons]. *)
Definition WeilerAtherton_returns (fuel : nat) (opType : BooleanOpType)
    (w : DrawingWidget) (result : list (list QPointF)) : Prop :=
  exists w',
    calculateBooleanOp_WeilerAtherton fuel opType w = Done w'
    /\ weilerResultPolygons w' = result.

(** * Properties *)

(** ** Rounding *)


Lemma pow2_pos (e : Z) : 0 < pow2 e.
Proof. unfold pow2. apply Qpower_0_lt. reflexivity. Qed.

Lemma pow2_plus (a b : Z) : pow2 (a + b) == pow2 a * pow2 b.
Proof. unfold pow2. apply Qpower_plus. discriminate. Qed.

Lemma pow2_le (a b : Z) : (a <= b)%Z -> pow2 a <= pow2 b.
Proof. intro H. unfold pow2. apply Qpower_le_compat_l; [exact H|discriminate]. Qed.

Lemma pow2_lt_inv (a b : Z) : pow2 a < pow2 b -> (a < b)%Z.
Proof. intro H. apply (Qpower_lt_compat_l_inv 2); [exact H|reflexivity]. Qed.

Lemma pow2_Z (n : Z) : (0 <= n)%Z -> pow2 n == inject_Z (2 ^ n).
Proof. intro H. unfold pow2. rewrite Zpower_Qpower by exact H. reflexivity. Qed.

Lemma pow2_div (x : Q) (a b : Z) : x * pow2 a / pow2 b == x * pow2 (a - b).
Proof.
  replace a with ((a - b) + b)%Z at 1 by ring.
  rewrite pow2_plus. field.
  pose proof (pow2_pos b). lra.
Qed.

Lemma Q_as_fraction (x : Q) :
  x * inject_Z (Zpos (Qden x)) == inject_Z (Qnum x).
Proof.
  destruct x as [n d]. unfold Qeq. cbn. rewrite Pos.mul_1_r. ring.
Qed.

Lemma Qnum_pos (x : Q) : 0 < x -> (0 < Qnum x)%Z.
Proof. destruct x as [n d]. unfold Qlt. cbn. lia. Qed.

Lemma inject_Z_lt (a b : Z) : (a < b)%Z -> inject_Z a < inject_Z b.
Proof. intro H. rewrite <- Zlt_Qlt. exact H. Qed.

Lemma inject_Z_le (a b : Z) : (a <= b)%Z -> inject_Z a <= inject_Z b.
Proof. intro H. rewrite <- Zle_Qle. exact H. Qed.

(** The leading bit. *)
Lemma ilog2_spec (x : Q) :
  0 < x -> pow2 (ilog2 x) <= x /\ x < pow2 (ilog2 x + 1).
Proof.
  intro Hx.
  pose proof (Qnum_pos x Hx) as Hn.
  pose proof (Q_as_fraction x) as Hf.
  set (n := Qnum x) in *. set (d := Zpos (Qden x)) in *.
  assert (Hd : (0 < d)%Z) by (unfold d; lia).
  destruct (Z.log2_spec n Hn) as [Ha1 Ha2].
  destruct (Z.log2_spec d Hd) as [Hb1 Hb2].
  pose proof (Z.log2_nonneg n) as Ha0.
  pose proof (Z.log2_nonneg d) as Hb0.
  set (a := Z.log2 n) in *. set (b := Z.log2 d) in *.
  assert (Qd : 0 < inject_Z d) by (apply (inject_Z_lt 0); exact Hd).
  assert (Ea : pow2 a <= inject_Z n).
  { rewrite pow2_Z by exact Ha0. apply inject_Z_le. exact Ha1. }
  assert (Ea' : inject_Z n < pow2 (a + 1)).
  { rewrite pow2_Z by lia. apply inject_Z_lt.
    replace (a + 1)%Z with (Z.succ a) by lia. exact Ha2. }
  assert (Eb : pow2 b <= inject_Z d).
  { rewrite pow2_Z by exact Hb0. apply inject_Z_le. exact Hb1. }
  assert (Eb' : inject_Z d < pow2 (b + 1)).
  { rewrite pow2_Z by lia. apply inject_Z_lt.
    replace (b + 1)%Z with (Z.succ b) by lia. exact Hb2. }
  (* x < 2^(a-b+1) and 2^(a-b-1) < x *)
  assert (Hup : x < pow2 (a - b + 1)).
  { apply Qnot_le_lt. intro Hc.
    assert (pow2 (a - b + 1) * pow2 b <= x * inject_Z d).
    { apply Qle_trans with (x * pow2 b).
      - apply Qmult_le_compat_r; [exact Hc|]. apply Qlt_le_weak, pow2_pos.
      - apply Qmult_le_l; [exact Hx|exact Eb]. }
    rewrite <- pow2_plus in H. replace (a - b + 1 + b)%Z with (a + 1)%Z in H by ring.
    rewrite Hf in H. apply (Qlt_not_le _ _ Ea' H). }
  assert (Hlow : pow2 (a - b - 1) < x).
  { apply Qnot_le_lt. intro Hc.
    assert (x * inject_Z d < pow2 (a - b - 1) * pow2 (b + 1)).
    { apply Qle_lt_trans with (pow2 (a - b - 1) * inject_Z d).
      - apply Qmult_le_compat_r; [exact Hc|]. apply Qlt_le_weak. exact Qd.
      - apply Qmult_lt_l; [apply pow2_pos|exact Eb']. }
    rewrite <- pow2_plus in H. replace (a - b - 1 + (b + 1))%Z with a in H by ring.
    rewrite Hf in H. apply (Qlt_not_le _ _ H Ea). }
  unfold ilog2. fold n d a b.
  destruct (Qle_bool (pow2 (a - b)) x) eqn:E.
  - apply Qle_bool_iff in E. split; [exact E|exact Hup].
  - split.
    + apply Qlt_le_weak. exact Hlow.
    + replace (a - b - 1 + 1)%Z with (a - b)%Z by ring.
      apply Qnot_le_lt. intro Hc. apply Qle_bool_iff in Hc. congruence.
Qed.

Lemma ilog2_le (x y : Q) : 0 < x -> x <= y -> (ilog2 x <= ilog2 y)%Z.
Proof.
  intros Hx Hxy.
  destruct (ilog2_spec x Hx) as [H1 _].
  destruct (ilog2_spec y (Qlt_le_trans _ _ _ Hx Hxy)) as [_ H2].
  assert (H : pow2 (ilog2 x) < pow2 (ilog2 y + 1)).
  { eapply Qle_lt_trans; [exact H1|]. eapply Qle_lt_trans; [exact Hxy|exact H2]. }
  apply pow2_lt_inv in H. lia.
Qed.

(** Rounding to an integer. *)
Lemma round_half_even_bounds (x : Q) :
  (Qfloor x <= round_half_even x <= Qfloor x + 1)%Z.
Proof.
  unfold round_half_even.
  destruct (Qcompare (x - inject_Z (Qfloor x)) (1 # 2)); [destruct (Z.even (Qfloor x))| |]; lia.
Qed.

Lemma round_half_even_int (x : Q) (z : Z) :
  x == inject_Z z -> round_half_even x = z.
Proof.
  intro E. unfold round_half_even.
  assert (Ef : Qfloor x = z) by (rewrite E; apply Qfloor_Z).
  rewrite Ef.
  assert (Hlt : x - inject_Z z < 1 # 2) by (rewrite E; lra).
  rewrite Qlt_alt in Hlt. rewrite Hlt. reflexivity.
Qed.

Lemma round_half_even_mono (x y : Q) :
  x <= y -> (round_half_even x <= round_half_even y)%Z.
Proof.
  intro Hxy.
  pose proof (Qfloor_resp_le x y Hxy) as Hf.
  pose proof (round_half_even_bounds x) as Bx.
  pose proof (round_half_even_bounds y) as By.
  destruct (Z.eq_dec (Qfloor x) (Qfloor y)) as [Ef | Ef]; [|lia].
  unfold round_half_even. rewrite <- Ef.
  destruct (Qcompare (x - inject_Z (Qfloor x)) (1 # 2)) eqn:Ex;
  destruct (Qcompare (y - inject_Z (Qfloor x)) (1 # 2)) eqn:Ey;
    try (destruct (Z.even (Qfloor x))); try lia;
    try (rewrite <- Qeq_alt in Ex); try (rewrite <- Qlt_alt in Ex);
    try (rewrite <- Qgt_alt in Ex);
    try (rewrite <- Qeq_alt in Ey); try (rewrite <- Qlt_alt in Ey);
    try (rewrite <- Qgt_alt in Ey); exfalso; lra.
Qed.

Lemma round_pos_nonneg (a : Q) : 0 < a -> 0 <= round_pos a.
Proof.
  intro Ha. unfold round_pos.
  set (e := Z.max (ilog2 a - 52) (-1074)).
  apply Qmult_le_0_compat; [|apply Qlt_le_weak, pow2_pos].
  apply (inject_Z_le 0).
  assert (H0 : (round_half_even 0 <= round_half_even (a / pow2 e))%Z).
  { apply round_half_even_mono. apply Qlt_le_weak.
    apply Qlt_shift_div_l; [apply pow2_pos|lra]. }
  rewrite (round_half_even_int 0 0) in H0 by reflexivity. exact H0.
Qed.

Lemma round_pos_mono (x y : Q) :
  0 < x -> x <= y -> round_pos x <= round_pos y.
Proof.
  intros Hx Hxy.
  assert (Hy : 0 < y) by (eapply Qlt_le_trans; eauto).
  pose proof (ilog2_le x y Hx Hxy) as HL.
  destruct (ilog2_spec x Hx) as [_ Hx2].
  destruct (ilog2_spec y Hy) as [Hy1 _].
  unfold round_pos.
  set (ex := Z.max (ilog2 x - 52) (-1074)).
  set (ey := Z.max (ilog2 y - 52) (-1074)).
  assert (Hee : (ex <= ey)%Z) by (unfold ex, ey; lia).
  destruct (Z.eq_dec ex ey) as [E | E].
  - rewrite <- E. apply Qmult_le_compat_r; [|apply Qlt_le_weak, pow2_pos].
    apply inject_Z_le, round_half_even_mono.
    apply Qmult_le_compat_r; [exact Hxy|].
    apply Qlt_le_weak, Qinv_lt_0_compat, pow2_pos.
  - assert (Hey : ey = (ilog2 y - 52)%Z) by (unfold ex, ey in *; lia).
    assert (Hex : (ilog2 x - 52 <= ex)%Z) by (unfold ex; lia).
    apply Qle_trans with (pow2 (ilog2 y)).
    + (* the rounded x stays below the next power of two *)
      assert (Hq : x / pow2 ex <= inject_Z (2 ^ 53)).
      { apply Qle_shift_div_r; [apply pow2_pos|].
        rewrite <- pow2_Z by lia. rewrite <- pow2_plus.
        apply Qlt_le_weak. eapply Qlt_le_trans; [exact Hx2|].
        apply pow2_le. lia. }
      assert (Hr : (round_half_even (x / pow2 ex) <= 2 ^ 53)%Z).
      { rewrite <- (round_half_even_int (inject_Z (2 ^ 53)) (2 ^ 53)) by reflexivity.
        apply round_half_even_mono. exact Hq. }
      apply Qle_trans with (inject_Z (2 ^ 53) * pow2 ex).
      * apply Qmult_le_compat_r; [apply inject_Z_le; exact Hr|].
        apply Qlt_le_weak, pow2_pos.
      * rewrite <- pow2_Z by lia. rewrite <- pow2_plus. apply pow2_le. lia.
    + assert (Hq : inject_Z (2 ^ 52) <= y / pow2 ey).
      { apply Qle_shift_div_l; [apply pow2_pos|].
        rewrite <- pow2_Z by lia. rewrite <- pow2_plus.
        eapply Qle_trans; [|exact Hy1]. apply pow2_le. lia. }
      assert (Hr : (2 ^ 52 <= round_half_even (y / pow2 ey))%Z).
      { rewrite <- (round_half_even_int (inject_Z (2 ^ 52)) (2 ^ 52)) at 1
          by reflexivity.
        apply round_half_even_mono. exact Hq. }
      apply Qle_trans with (inject_Z (2 ^ 52) * pow2 ey).
      * rewrite <- pow2_Z by lia. rewrite <- pow2_plus. apply pow2_le. lia.
      * apply Qmult_le_compat_r; [apply inject_Z_le; exact Hr|].
        apply Qlt_le_weak, pow2_pos.
Qed.

Lemma double_cases (x : Q) :
  (x == 0 /\ double x = 0)
  \/ (0 < x /\ double x = round_pos x)
  \/ (x < 0 /\ double x = - round_pos (- x)).
Proof.
  destruct x as [[|p|p] d]; unfold double; cbn [Qnum].
  - left. split; reflexivity.
  - right. left. split; reflexivity.
  - right. right. split; reflexivity.
Qed.

(** Rounding is monotone. *)
Lemma double_mono (x y : Q) : x <= y -> double x <= double y.
Proof.
  intro Hxy.
  destruct (double_cases x) as [[Hx Ex] | [[Hx Ex] | [Hx Ex]]];
  destruct (double_cases y) as [[Hy Ey] | [[Hy Ey] | [Hy Ey]]];
    rewrite Ex, Ey; try (exfalso; lra).
  - lra.
  - apply round_pos_nonneg. exact Hy.
  - apply round_pos_mono; assumption.
  - assert (H := round_pos_nonneg (- x)). lra.
  - assert (H := round_pos_nonneg (- x)). assert (H' := round_pos_nonneg y). lra.
  - assert (H := round_pos_mono (- y) (- x)). lra.
Qed.

#[export] Instance double_Proper : Proper (Qeq ==> Qeq) double.
Proof.
  intros x y E. apply Qle_antisym; apply double_mono; rewrite E; apply Qle_refl.
Qed.

Lemma double_opp (x : Q) : double (- x) == - double x.
Proof.
  destruct x as [[|p|p] d]; unfold double; cbn [Qnum Qopp Z.opp].
  - reflexivity.
  - reflexivity.
  - change (- (Z.neg p # d)) with (Z.pos p # d). ring.
Qed.

(** A number with at most 53 significant bits is delivered as it is. *)
Lemma round_pos_exact (x : Q) (m e : Z) :
  0 < x -> x == inject_Z m * pow2 e -> (m <= 2 ^ 53)%Z -> (-1074 <= e)%Z ->
  round_pos x == x.
Proof.
  intros Hx E Hm He.
  destruct (ilog2_spec x Hx) as [H1 H2].
  assert (Hm0 : (0 < m)%Z).
  { apply Z.nle_gt. intro Hc. apply (inject_Z_le m 0) in Hc.
    pose proof (pow2_pos e) as Hp.
    assert (inject_Z m * pow2 e <= 0).
    { setoid_replace 0 with (0 * pow2 e) by ring.
      apply Qmult_le_compat_r; [exact Hc|lra]. }
    lra. }
  (* the leading bit is at most 53 + e *)
  assert (HL : (ilog2 x <= 53 + e)%Z).
  { assert (H : pow2 (ilog2 x) < pow2 (53 + e + 1)).
    { eapply Qle_lt_trans; [exact H1|]. rewrite E.
      rewrite (pow2_plus (53 + e) 1), (pow2_plus 53 e).
      apply Qle_lt_trans with (pow2 53 * pow2 e).
      - apply Qmult_le_compat_r; [|apply Qlt_le_weak, pow2_pos].
        rewrite pow2_Z by lia. apply inject_Z_le. exact Hm.
      - pose proof (pow2_pos 53). pose proof (pow2_pos e).
        assert (0 < pow2 53 * pow2 e) by (apply Qmult_lt_0_compat; assumption).
        change (pow2 1) with 2. lra. }
    apply pow2_lt_inv in H. lia. }
  unfold round_pos. set (ee := Z.max (ilog2 x - 52) (-1074)).
  destruct (Z.le_gt_cases ee e) as [Hle | Hgt].
  - (* the unit in the last place divides x *)
    assert (Ei : x / pow2 ee == inject_Z (m * 2 ^ (e - ee))).
    { rewrite E, pow2_div, inject_Z_mult, <- pow2_Z by lia. reflexivity. }
    rewrite (round_half_even_int _ _ Ei), <- Ei. field.
    pose proof (pow2_pos ee). lra.
  - (* x is the power of two 2^(53+e) *)
    assert (HL' : ilog2 x = (53 + e)%Z) by (unfold ee in Hgt; lia).
    assert (Hee : ee = (e + 1)%Z) by (unfold ee; lia).
    assert (Em : m = (2 ^ 53)%Z).
    { apply Z.le_antisymm; [exact Hm|].
      apply Z.nlt_ge. intro Hc.
      assert (Hm' : (m <= 2 ^ 53 - 1)%Z) by lia.
      rewrite HL', E, (pow2_plus 53 e) in H1.
      apply Qmult_le_r in H1; [|apply pow2_pos].
      rewrite pow2_Z in H1 by lia. rewrite <- Zle_Qle in H1. lia. }
    assert (Ei : x / pow2 ee == inject_Z (2 ^ 52)).
    { rewrite E, Em, Hee, <- (pow2_Z 53), <- (pow2_Z 52) by lia.
      rewrite (pow2_plus e 1). replace 53%Z with (52 + 1)%Z by lia.
      rewrite (pow2_plus 52 1). field.
      pose proof (pow2_pos e). pose proof (pow2_pos 1). split; lra. }
    rewrite (round_half_even_int _ _ Ei), <- Ei. field.
    pose proof (pow2_pos ee). lra.
Qed.

Lemma double_exact (x : Q) (m e : Z) :
  x == inject_Z m * pow2 e -> (Z.abs m <= 2 ^ 53)%Z -> (-1074 <= e)%Z ->
  double x == x.
Proof.
  intros E Hm He.
  destruct (double_cases x) as [[Hx Ex] | [[Hx Ex] | [Hx Ex]]]; rewrite Ex.
  - rewrite Hx. reflexivity.
  - apply (round_pos_exact x (Z.abs m) e Hx); [|lia|exact He].
    rewrite E. destruct (Z.abs_spec m) as [[_ Ea] | [Hneg Ea]]; rewrite Ea;
      [reflexivity|].
    exfalso. apply (inject_Z_lt m 0) in Hneg.
    pose proof (pow2_pos e) as Hp.
    assert (inject_Z m * pow2 e < 0).
    { setoid_replace 0 with (0 * pow2 e) by ring.
      apply Qmult_lt_compat_r; assumption. }
    lra.
  - assert (H : round_pos (- x) == - x).
    { apply (round_pos_exact (- x) (- m) e); [lra| |lia|exact He].
      rewrite E, inject_Z_opp. ring. }
    rewrite H. ring.
Qed.

(** Integers up to [2 ^ 53] in magnitude are delivered as they are. *)
Lemma double_Z (x : Q) (z : Z) :
  x == inject_Z z -> (Z.abs z <= 2 ^ 53)%Z -> double x == x.
Proof.
  intros E Hz. apply (double_exact x z 0); [|exact Hz|lia].
  rewrite E. unfold pow2. change (2 ^ 0) with 1. ring.
Qed.

(** ** Comparisons *)

Lemma Qltb_lt (a b : Q) : Qltb a b = true <-> a < b.
Proof.
  unfold Qltb. rewrite negb_true_iff.
  split; intro H.
  - apply Qnot_le_lt. intro Hle. apply Qle_bool_iff in Hle. congruence.
  - destruct (Qle_bool b a) eqn:E; [|reflexivity].
    apply Qle_bool_iff in E. exfalso. apply (Qlt_not_le _ _ H E).
Qed.

Lemma Qltb_ge (a b : Q) : Qltb a b = false <-> b <= a.
Proof.
  unfold Qltb. rewrite negb_false_iff. apply Qle_bool_iff.
Qed.
(** ** Dispatch *)

Lemma performCalculation_dispatch_not_QPainterPath (w : DrawingWidget) :
  performCalculation_dispatch w <> Start Call_IntersectionAndUnion.
Proof.
  unfold performCalculation_dispatch.
  destruct (currentMode w) eqn:Hm; cbn;
    repeat match goal with
           | |- (if ?c then _ else _) <> _ => destruct c
           end; discriminate.
Qed.

(** C9.  Whatever the state of the widget, [performCalculation] does not
    start [calculateIntersectionAndUnion]: the test
    [currentMode == DRAW_POLYGON_B] sits inside the branch taken only when
    [currentMode == DRAW_POLYGON].  Over all slots and event handlers, that
    computation is started exactly by the two QPainterPath slots
    [showIntersection_QPainterPath] and [showUnion_QPainterPath]. *)
Theorem performCalculation_never_starts_IntersectionAndUnion :
  (forall w, performCalculation_dispatch w <> Start Call_IntersectionAndUnion)
  /\ (forall w, existsb is_IntersectionAndUnion (performCalculation_calls w)
                = false)
  /\ (forall e w, existsb is_IntersectionAndUnion (computations e w)
                  = is_QPainterPath_slot e).
Proof.
  assert (Hcalls : forall w,
             existsb is_IntersectionAndUnion (performCalculation_calls w) = false).
  { intro w. unfold performCalculation_calls.
    pose proof (performCalculation_dispatch_not_QPainterPath w) as H.
    destruct (performCalculation_dispatch w) as [n|c|]; try reflexivity.
    destruct c; try reflexivity. now elim H. }
  split; [exact performCalculation_dispatch_not_QPainterPath|].
  split; [exact Hcalls|].
  intros e w. destruct e; try reflexivity.
  - apply Hcalls.
  - destruct button; try reflexivity. cbn.
    repeat match goal with
           | |- existsb _ (if ?c then _ else _) = _ => destruct c
           end; try reflexivity; apply Hcalls.
Qed.
(** ** The operands of Weiler-Atherton are left alone *)

(** C10.  When [calculateBooleanOp_WeilerAtherton] returns, [polygonA] and
    [polygonB] hold the vertex sequences they held before the call (the
    reversal and the node lists work on the copies [polyA] and [polyB]);
    of the modelled members only [weilerResultPolygons] is written. *)
Theorem WeilerAtherton_keeps_operands (fuel : nat) (opType : BooleanOpType)
    (w w' : DrawingWidget) :
  calculateBooleanOp_WeilerAtherton fuel opType w = Done w' ->
  polygonA w' = polygonA w /\ polygonB w' = polygonB w
  /\ polygonVertices w' = polygonVertices w /\ points w' = points w
  /\ currentMode w' = currentMode w.
Proof.
  unfold calculateBooleanOp_WeilerAtherton.
  match goal with |- (if ?c then _ else _) = _ -> _ => destruct c end.
  - intro H. injection H as <-. repeat split.
  - match goal with |- match ?r with _ => _ end = _ -> _ => destruct r end;
      [|discriminate].
    intro H. injection H as <-. repeat split.
Qed.

(** The call returns on two overlapping squares, one of which is reversed on
    the private copy, and the operands are as before. *)
Lemma WeilerAtherton_keeps_operands_witness :
  exists w',
    calculateBooleanOp_WeilerAtherton 40 Intersection two_squares = Done w'
    /\ polygonA w' = squareA /\ polygonB w' = squareB.
Proof.
  destruct (calculateBooleanOp_WeilerAtherton 40 Intersection two_squares)
    as [w'|] eqn:E.
  - exists w'. split; [reflexivity|].
    destruct (WeilerAtherton_keeps_operands 40 Intersection two_squares w' E)
      as (HA & HB & _).
    split; [exact HA | exact HB].
  - exfalso. vm_compute in E. discriminate E.
Defined.
(** ** Ear clipping does not stop when no ear is found *)

(** A pass that finds no ear changes nothing, so the loop goes on for ever:
    [attempts] is never incremented. *)
Lemma loop_without_ear (maxAttempts : Z) (s : EarClipping.State) :
  EarClipping.find_ear (EarClipping.remaining s) = None ->
  (3 < length (EarClipping.remaining s))%nat ->
  (EarClipping.attempts s < maxAttempts)%Z ->
  forall fuel, EarClipping.loop fuel maxAttempts s = OutOfFuel.
Proof.
  intros Hnone Hlen Hatt fuel.
  assert (Hscan : EarClipping.scan s = s).
  { unfold EarClipping.scan. now rewrite Hnone. }
  apply Nat.ltb_lt in Hlen. apply Z.ltb_lt in Hatt.
  induction fuel as [|fuel IH]; cbn [EarClipping.loop]; rewrite Hlen, Hatt;
    cbn [andb]; [reflexivity|].
  rewrite Hscan. exact IH.
Qed.

Lemma scan_attempts (s : EarClipping.State) :
  EarClipping.attempts s = 0%Z -> EarClipping.attempts (EarClipping.scan s) = 0%Z.
Proof.
  unfold EarClipping.scan. destruct (EarClipping.find_ear _); auto.
Qed.

(** The counter [attempts] is 0 whenever the loop is left. *)
Lemma loop_attempts (fuel : nat) (maxAttempts : Z) (s s' : EarClipping.State) :
  EarClipping.attempts s = 0%Z ->
  EarClipping.loop fuel maxAttempts s = Done s' ->
  EarClipping.attempts s' = 0%Z.
Proof.
  revert s. induction fuel as [|fuel IH]; intros s H0; cbn [EarClipping.loop].
  - destruct (_ && _); [discriminate|]. intro H. now injection H as <-.
  - destruct (_ && _).
    + apply IH. now apply scan_attempts.
    + intro H. now injection H as <-.
Qed.

(** The box for an exhausted attempt budget is never shown: a run of
    [calculateTriangulation] that returns has added at most one of the two
    boxes of its entry checks. *)
Lemma triangulation_never_reports_stall (fuel : nat) (w w' : DrawingWidget) :
  calculateTriangulation fuel w = Done w' ->
  notices w' = notices w
  \/ notices w' = notices w ++ [TooFewToTriangulate]
  \/ notices w' = notices w ++ [NotValidToTriangulate].
Proof.
  unfold calculateTriangulation.
  destruct (length (polygonVertices w) <? 3)%nat eqn:Hn.
  { intro H. injection H as <-. right. left. reflexivity. }
  destruct (isSimplePolygon (polygonVertices w)) eqn:Hs; cbn [negb].
  2:{ intro H. injection H as <-. right. right. reflexivity. }
  destruct (EarClipping.loop _ _ _) as [s|] eqn:Hl; [|discriminate].
  intro H. injection H as <-. left.
  apply loop_attempts in Hl; [|reflexivity].
  unfold EarClipping.finish.
  destruct (length (EarClipping.remaining s) =? 3)%nat; [reflexivity|].
  rewrite Hl.
  assert (Hpos : (0 < length (EarClipping.prepare (polygonVertices w)))%nat).
  { apply Nat.ltb_ge in Hn. unfold EarClipping.prepare, EarClipping.normalize_winding.
    assert (0 < length (EarClipping.drop_closing (polygonVertices w)))%nat.
    { unfold EarClipping.drop_closing.
      destruct (polygonVertices w) as [|a [|b t]] eqn:Ev; cbn in Hn; try lia.
      destruct (point_eqb _ _); [|cbn; lia].
      cbn. destruct t; cbn; lia. }
    destruct (Qltb _ 0); [rewrite length_rev|]; assumption. }
  destruct (_ <=? 0)%Z eqn:Hz; [|reflexivity].
  apply Z.leb_le in Hz. lia.
Qed.

(** C1 (the code does not do this).  On the hourglass, which the validator
    accepts, no pass of the ear search finds an ear, and
    [calculateTriangulation] is still running after any number of passes of
    its main loop: it neither returns nor reports failure. *)
Theorem triangulation_runs_forever_on_hourglass (w : DrawingWidget) :
  isSimplePolygon hourglass = true
  /\ EarClipping.find_ear (EarClipping.prepare hourglass) = None
  /\ forall fuel,
       calculateTriangulation fuel (set_polygonVertices hourglass w) = OutOfFuel.
Proof.
  assert (Hs : isSimplePolygon hourglass = true) by (vm_compute; reflexivity).
  assert (He : EarClipping.find_ear (EarClipping.prepare hourglass) = None)
    by (vm_compute; reflexivity).
  split; [exact Hs|]. split; [exact He|].
  intro fuel. unfold calculateTriangulation.
  change (polygonVertices (set_polygonVertices hourglass w)) with hourglass.
  change (length hourglass <? 3)%nat with false. cbv iota.
  rewrite Hs. cbn [negb].
  rewrite loop_without_ear; [reflexivity|exact He| |].
  - vm_compute. lia.
  - vm_compute. reflexivity.
Qed.
(** ** Exact shoelace sums *)

Lemma fold_sum_upto (F : nat -> Q) (k : nat) :
  fold_left (fun sum i => sum + F i) (seq 0 k) 0 = sum_upto F k.
Proof.
  induction k as [|k IH]; [reflexivity|].
  rewrite seq_S, fold_left_app, IH. reflexivity.
Qed.

Lemma sum_upto_ext (F G : nat -> Q) (k : nat) :
  (forall i, (i < k)%nat -> F i == G i) -> sum_upto F k == sum_upto G k.
Proof.
  induction k as [|k IH]; intro H; cbn; [reflexivity|].
  rewrite IH by (intros; apply H; lia). rewrite (H k) by lia. reflexivity.
Qed.

Lemma sum_upto_shift (F : nat -> Q) (k : nat) :
  sum_upto F (S k) == F 0%nat + sum_upto (fun i => F (S i)) k.
Proof.
  induction k as [|k IH]; cbn in *; [ring|].
  rewrite IH. ring.
Qed.

Lemma path_sum_indexed (l : list QPointF) :
  path_sum l
  == sum_upto (fun i => Exact.shoelace_term (at_ l i) (at_ l (S i))) (length l - 1).
Proof.
  induction l as [|x t IH]; [reflexivity|].
  destruct t as [|y t']; [reflexivity|].
  change (path_sum (x :: y :: t')) with (Exact.shoelace_term x y + path_sum (y :: t')).
  rewrite IH.
  replace (length (x :: y :: t') - 1)%nat with (S (length (y :: t') - 1))
    by (cbn; lia).
  rewrite sum_upto_shift. reflexivity.
Qed.

Lemma shoelace_loop_closed (l : list QPointF) :
  Exact.shoelace_loop l == path_sum (close l).
Proof.
  unfold Exact.shoelace_loop. rewrite fold_sum_upto.
  destruct l as [|a t]; [reflexivity|].
  rewrite path_sum_indexed.
  unfold close. rewrite length_app. cbn [length].
  replace (S (length t) + 1 - 1)%nat with (S (length t)) by lia.
  apply sum_upto_ext. intros i Hi. unfold at_.
  rewrite (app_nth1 (a :: t) [a] origin) by (cbn; lia).
  destruct (Nat.eq_dec (S i) (S (length t))) as [E|E].
  - replace ((i + 1) mod S (length t))%nat with 0%nat
      by (replace (i + 1)%nat with (S (length t)) by lia;
          now rewrite Nat.Div0.mod_same).
    rewrite E. rewrite (app_nth2 (a :: t) [a] origin) by (cbn; lia).
    cbn [length]. rewrite Nat.sub_diag. reflexivity.
  - rewrite Nat.mod_small by lia.
    replace (i + 1)%nat with (S i) by lia.
    rewrite (app_nth1 (a :: t) [a] origin) by (cbn; lia). reflexivity.
Qed.

Lemma path_sum_snoc (l : list QPointF) (x y : QPointF) :
  path_sum (l ++ [x; y]) == path_sum (l ++ [x]) + Exact.shoelace_term x y.
Proof.
  induction l as [|a t IH]; [cbn; ring|].
  destruct t as [|b t'].
  - cbn. ring.
  - change (path_sum ((a :: b :: t') ++ [x; y]))
      with (Exact.shoelace_term a b + path_sum ((b :: t') ++ [x; y])).
    change (path_sum ((a :: b :: t') ++ [x]))
      with (Exact.shoelace_term a b + path_sum ((b :: t') ++ [x])).
    rewrite IH. ring.
Qed.

Lemma shoelace_term_swap (x y : QPointF) :
  Exact.shoelace_term y x == - Exact.shoelace_term x y.
Proof. unfold Exact.shoelace_term. ring. Qed.

Lemma path_sum_rev (l : list QPointF) : path_sum (rev l) == - path_sum l.
Proof.
  induction l as [|a t IH]; [reflexivity|].
  destruct t as [|b t']; [reflexivity|].
  change (path_sum (a :: b :: t')) with (Exact.shoelace_term a b + path_sum (b :: t')).
  change (rev (a :: b :: t')) with ((rev t' ++ [b]) ++ [a]).
  rewrite <- app_assoc. cbn [app].
  rewrite path_sum_snoc.
  change (rev t' ++ [b]) with (rev (b :: t')).
  rewrite IH, shoelace_term_swap. ring.
Qed.

(** Moving the first vertex to the end leaves the sum unchanged. *)
Lemma shoelace_loop_rotate1 (a : QPointF) (t : list QPointF) :
  Exact.shoelace_loop (t ++ [a]) == Exact.shoelace_loop (a :: t).
Proof.
  rewrite !shoelace_loop_closed.
  destruct t as [|b t']; [reflexivity|].
  change (close ((b :: t') ++ [a])) with (((b :: t') ++ [a]) ++ [b]).
  rewrite <- app_assoc. cbn [app].
  change (b :: t' ++ [a; b]) with ((b :: t') ++ [a; b]).
  rewrite path_sum_snoc.
  change (close (a :: b :: t')) with (a :: (b :: t') ++ [a]).
  change (path_sum (a :: (b :: t') ++ [a]))
    with (Exact.shoelace_term a b + path_sum ((b :: t') ++ [a])).
  ring.
Qed.

Lemma shoelace_loop_app_comm (l1 l2 : list QPointF) :
  Exact.shoelace_loop (l2 ++ l1) == Exact.shoelace_loop (l1 ++ l2).
Proof.
  revert l2. induction l1 as [|a l1 IH]; intro l2.
  - now rewrite app_nil_r.
  - replace (l2 ++ a :: l1) with ((l2 ++ [a]) ++ l1)
      by (now rewrite <- app_assoc).
    rewrite IH. rewrite app_assoc. apply shoelace_loop_rotate1.
Qed.

Lemma shoelace_loop_rev (l : list QPointF) :
  Exact.shoelace_loop (rev l) == - Exact.shoelace_loop l.
Proof.
  destruct l as [|a t]; [reflexivity|].
  change (rev (a :: t)) with (rev t ++ [a]).
  rewrite shoelace_loop_rotate1.
  rewrite !shoelace_loop_closed.
  change (close (a :: rev t)) with (a :: rev t ++ [a]).
  change (close (a :: t)) with (a :: t ++ [a]).
  rewrite <- path_sum_rev.
  cbn [rev]. rewrite rev_app_distr. reflexivity.
Qed.
Lemma shoelace_loop_triangle (a b c : QPointF) :
  Exact.shoelace_loop [a; b; c] == Exact.crossProduct a b c.
Proof. unfold Exact.shoelace_loop, Exact.crossProduct, Exact.shoelace_term, at_. cbn. ring. Qed.

(** ** Integer coordinates in exact arithmetic *)

Lemma integral_inject (z : Z) : integral (inject_Z z).
Proof. exists z. reflexivity. Qed.

Lemma integral_sub (a b : Q) : integral a -> integral b -> integral (a - b).
Proof.
  intros [x Hx] [y Hy]. exists (x - y)%Z.
  rewrite Hx, Hy. unfold Z.sub. rewrite inject_Z_plus, inject_Z_opp. reflexivity.
Qed.

Lemma integral_mult (a b : Q) : integral a -> integral b -> integral (a * b).
Proof.
  intros [x Hx] [y Hy]. exists (x * y)%Z.
  rewrite Hx, Hy, inject_Z_mult. reflexivity.
Qed.

(** Truncation returns the integer a [double] holds. *)
Lemma to_long_long_integral (a : Q) (z : Z) :
  a == inject_Z z -> Exact.to_long_long a = z.
Proof.
  unfold Exact.to_long_long, Qeq. destruct a as [n d]. cbn.
  rewrite Z.mul_1_r. intros ->. apply Z.quot_mul. discriminate.
Qed.

Lemma to_long_long_back (a : Q) :
  integral a -> inject_Z (Exact.to_long_long a) == a.
Proof.
  intros [z Hz]. rewrite (to_long_long_integral a z Hz). now symmetry.
Qed.

Lemma cross_ll_integral (a b c : QPointF) :
  integral_point a -> integral_point b ->
  Exact.cross_ll a b c == Exact.crossProduct a b c.
Proof.
  intros [Hax Hay] [Hbx Hby]. unfold Exact.cross_ll, Exact.crossProduct.
  rewrite !to_long_long_back by (apply integral_sub; assumption).
  reflexivity.
Qed.

Lemma crossProduct_integral (a b c : QPointF) :
  integral_point a -> integral_point b -> integral_point c ->
  integral (Exact.crossProduct a b c).
Proof.
  intros [Hax Hay] [Hbx Hby] [Hcx Hcy]. unfold Exact.crossProduct.
  apply integral_sub; apply integral_mult; apply integral_sub; assumption.
Qed.

(** On pixel coordinates the [long long] orientation has the sign of the
    exact cross product. *)
Lemma orientation_sign (a b c : QPointF) :
  integral_point a -> integral_point b -> integral_point c ->
  ((0 <? Exact.to_long_long (Exact.cross_ll a b c))%Z = Qltb 0 (Exact.crossProduct a b c))
  /\ ((Exact.to_long_long (Exact.cross_ll a b c) <? 0)%Z = Qltb (Exact.crossProduct a b c) 0).
Proof.
  intros Ha Hb Hc.
  destruct (crossProduct_integral a b c Ha Hb Hc) as [z Hz].
  rewrite (to_long_long_integral (Exact.cross_ll a b c) z)
    by (now rewrite cross_ll_integral).
  split; apply eq_true_iff_eq; rewrite Qltb_lt, Z.ltb_lt, Hz;
    change 0 with (inject_Z 0); rewrite <- Zlt_Qlt; reflexivity.
Qed.

(** The four orientations of two crossing segments. *)
Lemma crossing_orientations (p1 p2 q1 q2 : QPointF) (t u : Q) :
  px p1 + t * (px p2 - px p1) == px q1 + u * (px q2 - px q1) ->
  py p1 + t * (py p2 - py p1) == py q1 + u * (py q2 - py q1) ->
  Exact.crossProduct p1 p2 q1 == - u * Exact.seg_det p1 p2 q1 q2
  /\ Exact.crossProduct p1 p2 q2 == (1 - u) * Exact.seg_det p1 p2 q1 q2
  /\ Exact.crossProduct q1 q2 p1 == t * Exact.seg_det p1 p2 q1 q2
  /\ Exact.crossProduct q1 q2 p2 == (t - 1) * Exact.seg_det p1 p2 q1 q2.
Proof.
  intros Hx Hy. unfold Exact.crossProduct, Exact.seg_det.
  assert (Ex : px q1 == px p1 + t * (px p2 - px p1) - u * (px q2 - px q1)) by lra.
  assert (Ey : py q1 == py p1 + t * (py p2 - py p1) - u * (py q2 - py q1)) by lra.
  set (a := px q2 - px q1) in *. set (b := py q2 - py q1) in *.
  assert (Ea : px q2 == a + px q1) by (unfold a; ring).
  assert (Eb : py q2 == b + py q1) by (unfold b; ring).
  rewrite Ea, Eb. rewrite Ex, Ey. repeat split; ring.
Qed.

Lemma segmentsIntersect_crossing (p1 p2 q1 q2 : QPointF) :
  integral_point p1 -> integral_point p2 ->
  integral_point q1 -> integral_point q2 ->
  properly_cross p1 p2 q1 q2 ->
  Exact.segmentsIntersect p1 p2 q1 q2 = true.
Proof.
  intros Hp1 Hp2 Hq1 Hq2 [Hdet (t & u & Ht0 & Ht1 & Hu0 & Hu1 & Hx & Hy)].
  destruct (crossing_orientations p1 p2 q1 q2 t u Hx Hy) as (E1 & E2 & E3 & E4).
  unfold Exact.segmentsIntersect.
  destruct (orientation_sign p1 p2 q1 Hp1 Hp2 Hq1) as [A1 B1].
  destruct (orientation_sign p1 p2 q2 Hp1 Hp2 Hq2) as [A2 B2].
  destruct (orientation_sign q1 q2 p1 Hq1 Hq2 Hp1) as [A3 B3].
  destruct (orientation_sign q1 q2 p2 Hq1 Hq2 Hp2) as [A4 B4].
  rewrite A1, B1, A2, B2, A3, B3, A4, B4.
  set (d := Exact.seg_det p1 p2 q1 q2) in *.
  destruct (Q_dec d 0) as [[Hneg|Hpos]|Hz]; [| |contradiction].
  - assert (F1 : Qltb 0 (Exact.crossProduct p1 p2 q1) = true)
      by (apply Qltb_lt; rewrite E1; nra).
    assert (F2 : Qltb (Exact.crossProduct p1 p2 q2) 0 = true)
      by (apply Qltb_lt; rewrite E2; nra).
    assert (F3 : Qltb (Exact.crossProduct q1 q2 p1) 0 = true)
      by (apply Qltb_lt; rewrite E3; nra).
    assert (F4 : Qltb 0 (Exact.crossProduct q1 q2 p2) = true)
      by (apply Qltb_lt; rewrite E4; nra).
    rewrite F1, F2, F3, F4. cbn. rewrite !orb_true_r. reflexivity.
  - assert (F1 : Qltb (Exact.crossProduct p1 p2 q1) 0 = true)
      by (apply Qltb_lt; rewrite E1; nra).
    assert (F2 : Qltb 0 (Exact.crossProduct p1 p2 q2) = true)
      by (apply Qltb_lt; rewrite E2; nra).
    assert (F3 : Qltb 0 (Exact.crossProduct q1 q2 p1) = true)
      by (apply Qltb_lt; rewrite E3; nra).
    assert (F4 : Qltb (Exact.crossProduct q1 q2 p2) 0 = true)
      by (apply Qltb_lt; rewrite E4; nra).
    rewrite F1, F2, F3, F4. cbn. rewrite !orb_true_r. reflexivity.
Qed.

Lemma point_eqb_same (a b : QPointF) : point_eqb a b = true <-> same_point a b.
Proof.
  unfold point_eqb, same_point. rewrite andb_true_iff, !Qeq_bool_iff. tauto.
Qed.

Lemma forallb_false_at {A : Type} (f : A -> bool) (l : list A) (x : A) :
  In x l -> f x = false -> forallb f l = false.
Proof.
  intros Hin Hf. destruct (forallb f l) eqn:E; [|reflexivity].
  rewrite forallb_forall in E. rewrite (E x Hin) in Hf. discriminate.
Qed.

Lemma isSimplePolygon_edge (poly : list QPointF) (i : nat) :
  (4 <= length poly)%nat -> (i < length poly)%nat ->
  simple_edge_ok poly (length poly) i = false ->
  isSimplePolygon poly = false.
Proof.
  intros Hn Hi Hedge. unfold isSimplePolygon.
  destruct (length poly <? 3)%nat eqn:E3; [apply Nat.ltb_lt in E3; lia|].
  destruct (length poly =? 3)%nat eqn:E4; [apply Nat.eqb_eq in E4; lia|].
  apply (forallb_false_at _ _ i); [apply in_seq; lia | exact Hedge].
Qed.

(** The edge [i] of the reversed list is an edge of the list, reversed. *)
Lemma rev_edge (l : list QPointF) (i : nat) :
  (i < length l)%nat ->
  exists k, (k < length l)%nat
            /\ at_ (rev l) i = at_ l ((k + 1) mod length l)
            /\ at_ (rev l) ((i + 1) mod length l) = at_ l k.
Proof.
  intro Hi. set (n := length l) in *.
  assert (Hm : ((i + 1) mod n < n)%nat) by (apply Nat.mod_upper_bound; lia).
  exists (n - 1 - (i + 1) mod n)%nat. unfold at_.
  rewrite !rev_nth by (fold n; lia). fold n.
  split; [lia|].
  destruct (Nat.eq_dec (i + 1) n) as [E|E].
  - rewrite E, Nat.Div0.mod_same.
    replace (n - 1 - 0 + 1)%nat with n by lia.
    rewrite Nat.Div0.mod_same. split; f_equal; lia.
  - rewrite (Nat.mod_small (i + 1) n) by lia.
    rewrite (Nat.mod_small (n - 1 - (i + 1) + 1) n) by lia.
    split; f_equal; lia.
Qed.

(** ** Convex hulls in exact arithmetic *)

(** A vector on the ray of [u], not nearer than [u], is a multiple of [u]. *)
Lemma same_ray_scale ux uy vx vy :
  upper_half ux uy -> upper_half vx vy ->
  vcross ux uy vx vy == 0 -> vnorm ux uy <= vnorm vx vy ->
  (ux == 0 /\ uy == 0)
  \/ exists k, 1 <= k /\ vx == k * ux /\ vy == k * uy.
Proof.
  unfold upper_half, vcross, vnorm. intros Hu Hv E L.
  destruct Hu as [Hu|[Hu Hu']].
  - right. exists (vy / uy).
    assert (Hk : vy == vy / uy * uy) by (field; lra).
    assert (Hx : vx == vy / uy * ux) by (field_simplify_eq; [lra | lra]).
    set (k := vy / uy) in *. clearbody k.
    split; [|split; assumption].
    assert (0 <= k) by (destruct Hv as [Hv|[Hv Hv']]; nra).
    rewrite Hx, Hk in L.
    destruct (Qlt_le_dec k 1) as [K|K]; [exfalso|exact K].
    assert (K2 : k * k < 1) by nra.
    assert (Np : 0 < ux * ux + uy * uy) by nra.
    assert (K3 : (1 - k * k) * (ux * ux + uy * uy) <= 0) by lra.
    nra.
  - destruct (Qlt_le_dec 0 ux) as [P|P].
    + right. exists (vx / ux).
      assert (Hk : vx == vx / ux * ux) by (field; lra).
      assert (Hy : vy == 0) by nra.
      set (k := vx / ux) in *. clearbody k.
      split; [|split; [assumption|rewrite Hy, Hu; ring]].
      assert (0 <= k) by (destruct Hv as [Hv|[Hv Hv']]; nra).
      rewrite Hy, Hu, Hk in L.
      destruct (Qlt_le_dec k 1) as [K|K]; [exfalso|exact K].
      assert (K2 : k * k < 1) by nra.
      assert (Np : 0 < ux * ux) by nra.
      assert (K3 : (1 - k * k) * (ux * ux) <= 0) by lra.
      nra.
    + left. split; lra.
Qed.

Lemma zero_scale k x : 1 <= k -> 0 == k * x -> x == 0.
Proof. intros K E. destruct (Q_dec x 0) as [[h|h]|h]; [nra|nra|exact h]. Qed.

Lemma zero_scale' k x : 1 <= k -> k * x == 0 -> x == 0.
Proof. intros K E. destruct (Q_dec x 0) as [[h|h]|h]; [nra|nra|exact h]. Qed.

(** Split [vpolar_le u v] into the strict case and the cases in which [u] is
    the pivot itself or [v] is a multiple of [u]. *)
Ltac polar h :=
  let a := fresh h in
  destruct h as [h|[h a]];
  [ | match type of h with
      | vcross ?ux ?uy ?vx ?vy == 0 =>
          let k := fresh "k" in let hk := fresh "Hk" in
          let ex := fresh "Ex" in let ey := fresh "Ey" in
          destruct (same_ray_scale ux uy vx vy ltac:(assumption) ltac:(assumption) h a)
            as [[ex ey]|(k & hk & ex & ey)]
      end ].

Ltac vec_simpl :=
  unfold upper_half, vcross, vnorm, cross3 in *;
  repeat match goal with
         | E : 0 == ?k * ?x, K : 1 <= ?k |- _ => apply (zero_scale k x K) in E
         | E : ?k * ?x == 0, K : 1 <= ?k |- _ => apply (zero_scale' k x K) in E
         | E : ?v == _ |- _ => is_var v; try rewrite E in *; clear E
         end.

Ltac vec_solve := vec_simpl; try nra.

Lemma vpolar_trans ux uy vx vy wx wy :
  upper_half ux uy -> upper_half vx vy -> upper_half wx wy ->
  vpolar_le ux uy vx vy -> vpolar_le vx vy wx wy -> vpolar_le ux uy wx wy.
Proof.
  intros Hu Hv Hw H1 H2. unfold vpolar_le in *.
  destruct (Qlt_le_dec 0 (vcross ux uy wx wy)) as [P|P]; [left; exact P|right].
  polar H1; polar H2; split; vec_solve.
Qed.

Lemma vpolar_total ux uy vx vy : vpolar_le ux uy vx vy \/ vpolar_le vx vy ux uy.
Proof.
  unfold vpolar_le, vnorm, vcross.
  destruct (Q_dec (ux * vy - uy * vx) 0) as [[h|h]|h].
  - right. left. lra.
  - left. left. lra.
  - destruct (Qlt_le_dec (ux * ux + uy * uy) (vx * vx + vy * vy)).
    + left. right. split; lra.
    + right. right. split; lra.
Qed.

Lemma vpolar_antisym ux uy vx vy :
  upper_half ux uy -> upper_half vx vy ->
  vpolar_le ux uy vx vy -> vpolar_le vx vy ux uy -> ux == vx /\ uy == vy.
Proof.
  intros Hu Hv H1 H2. unfold vpolar_le in *.
  destruct H1 as [H1|[H1 L1]];
    [unfold vcross in *; destruct H2 as [H2|[H2 _]]; lra|].
  destruct H2 as [H2|[H2 L2]]; [unfold vcross in *; lra|].
  destruct (same_ray_scale ux uy vx vy Hu Hv H1 L1) as [[Ex Ey]|(k & K & Ex & Ey)];
    unfold vnorm in *.
  - rewrite Ex, Ey in *.
    assert (vx * vx + vy * vy <= 0) by lra.
    assert (vx == 0) by nra. assert (vy == 0) by nra. split; lra.
  - rewrite Ex, Ey in L2.
    destruct (Qlt_le_dec 1 k) as [K1|K1].
    + assert (K2 : 1 < k * k) by nra.
      assert (K3 : (k * k - 1) * (ux * ux + uy * uy) <= 0) by lra.
      assert (K4 : ux * ux + uy * uy <= 0) by nra.
      assert (ux == 0) by nra. assert (uy == 0) by nra.
      rewrite Ex, Ey. split; nra.
    + assert (k == 1) by lra. rewrite Ex, Ey. split; nra.
Qed.

Lemma vpolar_pop_far ax ay bx by_ qx qy px py :
  upper_half ax ay -> upper_half bx by_ -> upper_half qx qy -> upper_half px py ->
  vpolar_le ax ay bx by_ -> vpolar_le bx by_ qx qy -> vpolar_le qx qy px py ->
  cross3 ax ay bx by_ px py <= 0 -> 0 <= cross3 bx by_ px py qx qy ->
  0 <= cross3 ax ay px py qx qy.
Proof.
  intros Ha Hb Hq Hp H1 H2 H3 H4 H5. unfold vpolar_le in *.
  polar H1; polar H2; polar H3; vec_solve.
Qed.

Lemma vpolar_pop_near ax ay bx by_ qx qy px py :
  upper_half ax ay -> upper_half bx by_ -> upper_half qx qy -> upper_half px py ->
  vpolar_le ax ay qx qy -> vpolar_le qx qy bx by_ -> vpolar_le bx by_ px py ->
  0 <= cross3 ax ay bx by_ qx qy -> cross3 ax ay bx by_ px py <= 0 ->
  0 <= cross3 ax ay px py qx qy.
Proof.
  intros Ha Hb Hq Hp H1 H2 H3 H4 H5. unfold vpolar_le in *.
  polar H1; polar H2; polar H3; vec_solve.
Qed.

Lemma vpolar_up ax ay bx by_ cx cy qx qy :
  upper_half ax ay -> upper_half bx by_ -> upper_half cx cy -> upper_half qx qy ->
  vpolar_le ax ay bx by_ -> vpolar_le bx by_ cx cy -> vpolar_le qx qy bx by_ ->
  0 < cross3 ax ay bx by_ cx cy -> 0 <= cross3 ax ay bx by_ qx qy ->
  0 <= cross3 bx by_ cx cy qx qy.
Proof.
  intros Ha Hb Hc Hq H1 H2 H3 H4 H5. unfold vpolar_le in *.
  polar H1; polar H2; polar H3; vec_solve.
Qed.

Lemma vpolar_down ax ay bx by_ cx cy qx qy :
  upper_half ax ay -> upper_half bx by_ -> upper_half cx cy -> upper_half qx qy ->
  vpolar_le ax ay bx by_ -> vpolar_le bx by_ cx cy -> vpolar_le bx by_ qx qy ->
  0 < cross3 ax ay bx by_ cx cy -> 0 <= cross3 bx by_ cx cy qx qy ->
  0 <= cross3 ax ay bx by_ qx qy.
Proof.
  intros Ha Hb Hc Hq H1 H2 H3 H4 H5. unfold vpolar_le in *.
  polar H1; polar H2; polar H3; vec_solve.
Qed.

(** ** The scan shared by both hull algorithms *)

Lemma crossProduct_same_3 (a b q q' : QPointF) :
  same_point q q' -> Exact.crossProduct a b q == Exact.crossProduct a b q'.
Proof. intros [Hx Hy]. unfold Exact.crossProduct. rewrite Hx, Hy. reflexivity. Qed.

Lemma crossProduct_twice (a b : QPointF) : Exact.crossProduct a b b == 0.
Proof. unfold Exact.crossProduct. ring. Qed.

Lemma crossProduct_twice' (a b : QPointF) : Exact.crossProduct a b a == 0.
Proof. unfold Exact.crossProduct. ring. Qed.

Lemma pairs_ok_tail R x l : pairs_ok R (x :: l) -> pairs_ok R l.
Proof. destruct l; cbn; tauto. Qed.

Lemma triples_ok_tail R x l : triples_ok R (x :: l) -> triples_ok R l.
Proof. destruct l as [|y [|z l]]; cbn; tauto. Qed.

Lemma pairs_ok_suffix R pre l : pairs_ok R (pre ++ l) -> pairs_ok R l.
Proof.
  induction pre as [|x pre IH]; [auto|].
  intro H. apply IH. exact (pairs_ok_tail R x _ H).
Qed.

Lemma triples_ok_suffix R pre l : triples_ok R (pre ++ l) -> triples_ok R l.
Proof.
  induction pre as [|x pre IH]; [auto|].
  intro H. apply IH. exact (triples_ok_tail R x _ H).
Qed.

Lemma pairs_ok_impl (R R' : QPointF -> QPointF -> Prop) l :
  (forall b a, In b l -> In a l -> R b a -> R' b a) ->
  pairs_ok R l -> pairs_ok R' l.
Proof.
  induction l as [|b l IH]; [auto|].
  destruct l as [|a l]; [auto|].
  intros Himp [H1 H2]. split.
  - apply Himp; cbn; auto.
  - apply IH; [|exact H2]. intros b' a' Hb' Ha'. apply Himp; right; assumption.
Qed.

Section Scan.

Variable D : QPointF -> Prop.
Variable le : QPointF -> QPointF -> Prop.

Hypothesis le_trans :
  forall a b c, D a -> D b -> D c -> le a b -> le b c -> le a c.
Hypothesis le_total : forall a b, D a -> D b -> le a b \/ le b a.
Hypothesis le_antisym :
  forall a b, D a -> D b -> le a b -> le b a -> same_point a b.
Hypothesis pop_far :
  forall a b q p, D a -> D b -> D q -> D p ->
    le a b -> le b q -> le q p ->
    Exact.crossProduct a b p <= 0 -> 0 <= Exact.crossProduct b p q ->
    0 <= Exact.crossProduct a p q.
Hypothesis pop_near :
  forall a b q p, D a -> D b -> D q -> D p ->
    le a q -> le q b -> le b p ->
    0 <= Exact.crossProduct a b q -> Exact.crossProduct a b p <= 0 ->
    0 <= Exact.crossProduct a p q.
Hypothesis turn_up :
  forall a b c q, D a -> D b -> D c -> D q ->
    le a b -> le b c -> le q b ->
    0 < Exact.crossProduct a b c -> 0 <= Exact.crossProduct a b q ->
    0 <= Exact.crossProduct b c q.
Hypothesis turn_down :
  forall a b c q, D a -> D b -> D c -> D q ->
    le a b -> le b c -> le b q ->
    0 < Exact.crossProduct a b c -> 0 <= Exact.crossProduct b c q ->
    0 <= Exact.crossProduct a b q.

Lemma le_refl a : D a -> le a a.
Proof. intro Ha. destruct (le_total a a Ha Ha); assumption. Qed.

Lemma pop_while_spec (P : list QPointF) (p : QPointF) :
  Forall D P -> D p -> (forall q, In q P -> le q p) ->
  forall C, incl C P -> chain_sorted le C -> chain_local le P C -> pop_inv le P p C ->
    (exists pre, C = pre ++ Exact.pop_while C p)
    /\ (C <> [] -> Exact.pop_while C p <> [])
    /\ last (Exact.pop_while C p) origin = last C origin
    /\ pop_inv le P p (Exact.pop_while C p)
    /\ match Exact.pop_while C p with
       | b :: a :: _ => 0 < Exact.crossProduct a b p
       | _ => True
       end.
Proof.
  intros HD Hp Hmax. rewrite Forall_forall in HD.
  induction C as [|b C IH]; intros Hincl Hsort Hloc Hpop.
  { cbn. repeat split; auto. exists []. reflexivity. }
  destruct C as [|a rest].
  { cbn. repeat split; auto. exists []. reflexivity. }
  change (Exact.pop_while (b :: a :: rest) p)
    with (if Qle_bool (Exact.crossProduct a b p) 0
          then Exact.pop_while (a :: rest) p else b :: a :: rest).
  destruct (Qle_bool (Exact.crossProduct a b p) 0) eqn:E.
  - apply Qle_bool_iff in E.
    assert (Hb : In b P) by (apply Hincl; cbn; auto).
    assert (Ha : In a P) by (apply Hincl; cbn; auto).
    destruct Hsort as [Hab Hsort]. destruct Hloc as [Hlab Hloc].
    assert (Hpop' : pop_inv le P p (a :: rest)).
    { intros q t Hq Ht Haq. cbn in Ht. injection Ht as <-.
      destruct (le_total q b (HD q Hq) (HD b Hb)) as [Hqb|Hbq].
      - apply (pop_near a b q p); auto.
      - apply (pop_far a b q p); auto; apply (Hpop q b); auto. }
    destruct (IH (fun x Hx => Hincl x (or_intror Hx)) Hsort Hloc Hpop')
      as ((pre & Hpre) & Hne & Hlast & Hinv & Hexit).
    split; [exists (b :: pre); cbn [app]; f_equal; exact Hpre|].
    split; [intros _; apply Hne; discriminate|].
    split; [exact Hlast|].
    split; assumption.
  - assert (E' : 0 < Exact.crossProduct a b p).
    { apply Qnot_le_lt. intro Hle. apply Qle_bool_iff in Hle. congruence. }
    split; [exists []; reflexivity|].
    split; [auto|]. split; [reflexivity|]. split; assumption.
Qed.

Lemma hd_error_last_snoc (P : list QPointF) (p : QPointF) :
  last (P ++ [p]) origin = p.
Proof. apply last_last. Qed.

(** One step of the scan keeps the invariant. *)
Lemma push_inv (P C : list QPointF) (p : QPointF) :
  Inv D le P C -> D p -> (forall q, In q P -> le q p) ->
  Inv D le (P ++ [p]) (Exact.push C p).
Proof.
  intros [HD Hincl Hends Hsort Hturns Hloc Htop Hbot] Hp Hmax.
  assert (HDa := HD). rewrite Forall_forall in HDa.
  assert (Hpop0 : pop_inv le P p C).
  { intros q t Hq Ht Htq.
    assert (Ht' : In t P).
    { apply Hincl. destruct C; [discriminate|]. injection Ht as <-. cbn; auto. }
    pose proof (le_antisym t q (HDa t Ht') (HDa q Hq) Htq (Htop q t Hq Ht)) as Hs.
    rewrite (crossProduct_same_3 t p q t) by (destruct Hs; split; symmetry; assumption).
    rewrite crossProduct_twice'. lra. }
  destruct (pop_while_spec P p HD Hp Hmax C Hincl Hsort Hloc Hpop0)
    as ((pre & Hpre) & Hne & Hlast & Hinv & Hexit).
  set (C' := Exact.pop_while C p) in *.
  assert (Hincl' : incl C' P).
  { intros x Hx. apply Hincl. rewrite Hpre. apply in_or_app. now right. }
  assert (Hsort' : chain_sorted le C').
  { unfold chain_sorted in *. rewrite Hpre in Hsort.
    exact (pairs_ok_suffix _ pre C' Hsort). }
  assert (Hturns' : chain_turns C').
  { unfold chain_turns in *. rewrite Hpre in Hturns.
    exact (triples_ok_suffix _ pre C' Hturns). }
  assert (Hloc' : chain_local le P C').
  { unfold chain_local in *. rewrite Hpre in Hloc.
    exact (pairs_ok_suffix _ pre C' Hloc). }
  unfold Exact.push. fold C'.
  constructor.
  - apply Forall_app. split; [exact HD|]. constructor; [exact Hp|constructor].
  - intros x [<-|Hx]; apply in_or_app; [right; cbn; auto|left; auto].
  - destruct P as [|s P'].
    + cbn. subst C. cbn in C'. subst C'. cbn. auto.
    + cbn [app]. split.
      * cbn [hd_error]. f_equal. symmetry.
        change (s :: P' ++ [p]) with ((s :: P') ++ [p]). apply last_last.
      * destruct Hends as [Hhd Hl].
        assert (C <> []) by (intro HC; rewrite HC in Hhd; discriminate).
        specialize (Hne H).
        destruct C' as [|c C'']; [contradiction|].
        change (last (p :: c :: C'') origin) with (last (c :: C'') origin).
        rewrite Hlast. exact Hl.
  - unfold chain_sorted. destruct C' as [|b C'']; [cbn; auto|].
    split; [|exact Hsort'].
    apply Hmax. apply Hincl'. cbn; auto.
  - unfold chain_turns. destruct C' as [|b [|a C'']]; [cbn; auto|cbn; auto|].
    split; [exact Hexit|exact Hturns'].
  - unfold chain_local.
    assert (Hold : pairs_ok
              (fun b a => forall q, In q (P ++ [p]) -> le a q -> le q b ->
                                    0 <= Exact.crossProduct a b q) C').
    { apply (pairs_ok_impl
               (fun b a => forall q, In q P -> le a q -> le q b ->
                                     0 <= Exact.crossProduct a b q)); [|exact Hloc'].
      intros b a Hb Ha Hab q Hq Haq Hqb.
      apply in_app_or in Hq. destruct Hq as [Hq|[<-|[]]]; [now apply Hab|].
      assert (Hb' : In b P) by (apply Hincl'; exact Hb).
      pose proof (le_antisym b p (HDa b Hb') Hp (Hmax b Hb') Hqb) as Hs.
      rewrite (crossProduct_same_3 a b p b)
        by (destruct Hs; split; symmetry; assumption).
      rewrite crossProduct_twice. lra. }
    destruct C' as [|b C'']; [cbn; auto|].
    split; [|exact Hold].
    intros q Hq Hbq Hqp.
    apply in_app_or in Hq. destruct Hq as [Hq|[<-|[]]].
    + apply (Hinv q b); auto.
    + rewrite crossProduct_twice. lra.
  - intros q t Hq Ht. cbn in Ht. injection Ht as <-.
    apply in_app_or in Hq. destruct Hq as [Hq|[<-|[]]]; [now apply Hmax|].
    now apply le_refl.
  - intros q Hq.
    destruct P as [|s P'].
    + subst C. cbn in C'. subst C'. cbn.
      destruct Hq as [<-|[]]. now apply le_refl.
    + destruct Hends as [Hhd Hl].
      assert (HC : C <> []) by (intro HC; rewrite HC in Hhd; discriminate).
      specialize (Hne HC).
      destruct C' as [|c C'']; [contradiction|].
      change (last (p :: c :: C'') origin) with (last (c :: C'') origin).
      rewrite Hlast.
      apply in_app_or in Hq. destruct Hq as [Hq|[<-|[]]]; [now apply Hbot|].
      rewrite Hl. apply Hmax. cbn; auto.
Qed.

Lemma Inv_nil : Inv D le [] [].
Proof.
  constructor; cbn; auto; try constructor; try (intros; contradiction).
  intros x [].
Qed.

Lemma fold_push_inv (rest : list QPointF) :
  forall P C, Inv D le P C -> scan_sorted D le (P ++ rest) ->
    Inv D le (P ++ rest) (fold_left Exact.push rest C).
Proof.
  induction rest as [|p rest IH]; intros P C HI Hall.
  - rewrite app_nil_r. exact HI.
  - cbn [fold_left].
    replace (P ++ p :: rest) with ((P ++ [p]) ++ rest) in *
      by (rewrite <- app_assoc; reflexivity).
    destruct (Hall P p rest) as [Hp Hmax];
      [rewrite <- app_assoc; reflexivity|].
    apply IH; [apply push_inv; assumption|exact Hall].
Qed.

Lemma build_chain_inv (S : list QPointF) :
  scan_sorted D le S -> Inv D le S (Exact.build_chain S).
Proof.
  intro HS. apply (fold_push_inv S [] [] Inv_nil HS).
Qed.

(** From an edge that has [q] on its left, down the chain. *)
Lemma supports_down (q : QPointF) (Hq : D q) (l : list QPointF) :
  forall c, chain_sorted le (c :: l) -> chain_turns (c :: l) ->
    (forall x, In x (c :: l) -> D x) ->
    match l with
    | b :: _ => le b q /\ 0 <= Exact.crossProduct b c q
    | [] => True
    end ->
    pairs_ok (fun b a => 0 <= Exact.crossProduct a b q) (c :: l).
Proof.
  induction l as [|b l IH]; intros c Hs Ht HD Hbc; [exact I|].
  destruct Hbc as [Hbq Hbc]. split; [exact Hbc|].
  apply IH.
  - exact (pairs_ok_tail _ _ _ Hs).
  - exact (triples_ok_tail _ _ _ Ht).
  - intros x Hx. apply HD. now right.
  - destruct l as [|a l]; [exact I|].
    destruct Hs as [Hcb [Hba _]]. destruct Ht as [Habc _].
    assert (Da : D a) by (apply HD; cbn; auto).
    assert (Db : D b) by (apply HD; cbn; auto).
    assert (Dc : D c) by (apply HD; cbn; auto).
    split; [apply (le_trans a b q); assumption|].
    apply (turn_down a b c q); assumption.
Qed.

(** At the end of the scan every point is on the left of every edge of the
    chain. *)
Lemma chain_supports_all (P : list QPointF) (q : QPointF) (Hq : In q P)
    (HD : Forall D P) :
  forall C, incl C P -> chain_sorted le C -> chain_turns C -> chain_local le P C ->
    le (last C origin) q ->
    (forall t, hd_error C = Some t -> le q t) ->
    pairs_ok (fun b a => 0 <= Exact.crossProduct a b q) C.
Proof.
  rewrite Forall_forall in HD. pose proof (HD q Hq) as Dq.
  induction C as [|c C IH]; intros Hincl Hs Ht Hl Hbot Htop; [exact I|].
  destruct C as [|b rest]; [exact I|].
  assert (Dc : D c) by (apply HD, Hincl; cbn; auto).
  assert (Db : D b) by (apply HD, Hincl; cbn; auto).
  destruct (le_total b q Db Dq) as [Hbq|Hqb].
  - apply (supports_down q Dq (b :: rest) c Hs Ht).
    + intros x Hx. apply HD, Hincl, Hx.
    + split; [exact Hbq|]. destruct Hl as [Hl _]. apply Hl; auto.
  - assert (Htail : pairs_ok (fun b a => 0 <= Exact.crossProduct a b q) (b :: rest)).
    { apply IH.
      - intros x Hx. apply Hincl. now right.
      - exact (pairs_ok_tail _ _ _ Hs).
      - exact (triples_ok_tail _ _ _ Ht).
      - exact (pairs_ok_tail _ _ _ Hl).
      - exact Hbot.
      - intros t Et. cbn in Et. injection Et as <-. exact Hqb. }
    split; [|exact Htail].
    destruct rest as [|a rest].
    + cbn in Hbot.
      pose proof (le_antisym b q Db Dq Hbot Hqb) as Hsame.
      rewrite (crossProduct_same_3 b c q b)
        by (destruct Hsame; split; symmetry; assumption).
      rewrite crossProduct_twice'. lra.
    + assert (Da : D a) by (apply HD, Hincl; cbn; auto).
      destruct Hs as [Hcb [Hba _]]. destruct Ht as [Habc _].
      destruct Htail as [Habq _].
      apply (turn_up a b c q); assumption.
Qed.

Lemma Inv_supports (S C : list QPointF) :
  Inv D le S C -> pairs_ok (fun b a => supports S a b) C.
Proof.
  intros [HD Hincl Hends Hsort Hturns Hloc Htop Hbot].
  assert (H : forall q, In q S ->
                pairs_ok (fun b a => 0 <= Exact.crossProduct a b q) C).
  { intros q Hq. apply (chain_supports_all S q Hq HD); auto. }
  clear - H. induction C as [|b C IH]; [exact I|].
  destruct C as [|a C]; [exact I|]. split.
  - intros q Hq. exact (proj1 (H q Hq)).
  - apply IH. intros q Hq. exact (pairs_ok_tail _ _ _ (H q Hq)).
Qed.

End Scan.

(** ** The three orders satisfy what the scan needs *)

Ltac coords :=
  repeat match goal with
         | p : QPointF |- _ => destruct p as [? ?]
         end;
  unfold lex_ge, lex_le, same_point, Exact.crossProduct in *; cbn [px py] in *.

Ltac lex_split :=
  repeat match goal with
         | H : _ < _ \/ (_ == _ /\ _ <= _) |- _ => destruct H as [H|[H ?]]
         end.

Lemma lex_le_trans a b c : lex_le a b -> lex_le b c -> lex_le a c.
Proof. coords. intros H1 H2. lex_split; [left|left|left|right; split]; lra. Qed.

Lemma lex_le_total a b : lex_le a b \/ lex_le b a.
Proof.
  destruct a as [ax ay], b as [bx by_]. unfold lex_le. cbn [px py].
  destruct (Q_dec ax bx) as [[h|h]|h]; [left; left; exact h|right; left; exact h|].
  destruct (Qlt_le_dec ay by_); [left|right]; right; split; lra.
Qed.

Lemma lex_le_antisym a b : lex_le a b -> lex_le b a -> same_point a b.
Proof. coords. intros H1 H2. lex_split; split; lra. Qed.

Lemma lex_pop_far a b q p :
  lex_le a b -> lex_le b q -> lex_le q p ->
  Exact.crossProduct a b p <= 0 -> 0 <= Exact.crossProduct b p q -> 0 <= Exact.crossProduct a p q.
Proof. coords. intros H1 H2 H3 H4 H5. lex_split; nra. Qed.

Lemma lex_pop_near a b q p :
  lex_le a q -> lex_le q b -> lex_le b p ->
  0 <= Exact.crossProduct a b q -> Exact.crossProduct a b p <= 0 -> 0 <= Exact.crossProduct a p q.
Proof. coords. intros H1 H2 H3 H4 H5. lex_split; nra. Qed.

Lemma lex_turn_up a b c q :
  lex_le a b -> lex_le b c -> lex_le q b ->
  0 < Exact.crossProduct a b c -> 0 <= Exact.crossProduct a b q -> 0 <= Exact.crossProduct b c q.
Proof. coords. intros H1 H2 H3 H4 H5. lex_split; nra. Qed.

Lemma lex_turn_down a b c q :
  lex_le a b -> lex_le b c -> lex_le b q ->
  0 < Exact.crossProduct a b c -> 0 <= Exact.crossProduct b c q -> 0 <= Exact.crossProduct a b q.
Proof. coords. intros H1 H2 H3 H4 H5. lex_split; nra. Qed.

Lemma lex_ge_pop_far a b q p :
  lex_ge a b -> lex_ge b q -> lex_ge q p ->
  Exact.crossProduct a b p <= 0 -> 0 <= Exact.crossProduct b p q -> 0 <= Exact.crossProduct a p q.
Proof. coords. intros H1 H2 H3 H4 H5. lex_split; nra. Qed.

Lemma lex_ge_pop_near a b q p :
  lex_ge a q -> lex_ge q b -> lex_ge b p ->
  0 <= Exact.crossProduct a b q -> Exact.crossProduct a b p <= 0 -> 0 <= Exact.crossProduct a p q.
Proof. coords. intros H1 H2 H3 H4 H5. lex_split; nra. Qed.

Lemma lex_ge_turn_up a b c q :
  lex_ge a b -> lex_ge b c -> lex_ge q b ->
  0 < Exact.crossProduct a b c -> 0 <= Exact.crossProduct a b q -> 0 <= Exact.crossProduct b c q.
Proof. coords. intros H1 H2 H3 H4 H5. lex_split; nra. Qed.

Lemma lex_ge_turn_down a b c q :
  lex_ge a b -> lex_ge b c -> lex_ge b q ->
  0 < Exact.crossProduct a b c -> 0 <= Exact.crossProduct b c q -> 0 <= Exact.crossProduct a b q.
Proof. coords. intros H1 H2 H3 H4 H5. lex_split; nra. Qed.

(** The cross product seen from the pivot. *)
Lemma crossProduct_from (p0 a b c : QPointF) :
  Exact.crossProduct a b c
  == cross3 (px a - px p0) (py a - py p0) (px b - px p0) (py b - py p0)
            (px c - px p0) (py c - py p0).
Proof. unfold Exact.crossProduct, cross3. ring. Qed.

Section Polar.

Variable p0 : QPointF.

Lemma polar_le_trans a b c :
  above p0 a -> above p0 b -> above p0 c ->
  polar_le p0 a b -> polar_le p0 b c -> polar_le p0 a c.
Proof. unfold above, polar_le. apply vpolar_trans. Qed.

Lemma polar_le_total a b : polar_le p0 a b \/ polar_le p0 b a.
Proof. unfold polar_le. apply vpolar_total. Qed.

Lemma polar_le_antisym a b :
  above p0 a -> above p0 b ->
  polar_le p0 a b -> polar_le p0 b a -> same_point a b.
Proof.
  unfold above, polar_le, same_point. intros Ha Hb H1 H2.
  destruct (vpolar_antisym _ _ _ _ Ha Hb H1 H2). split; lra.
Qed.

Lemma polar_pop_far a b q p :
  above p0 a -> above p0 b -> above p0 q -> above p0 p ->
  polar_le p0 a b -> polar_le p0 b q -> polar_le p0 q p ->
  Exact.crossProduct a b p <= 0 -> 0 <= Exact.crossProduct b p q -> 0 <= Exact.crossProduct a p q.
Proof.
  unfold above, polar_le. rewrite !(crossProduct_from p0). apply vpolar_pop_far.
Qed.

Lemma polar_pop_near a b q p :
  above p0 a -> above p0 b -> above p0 q -> above p0 p ->
  polar_le p0 a q -> polar_le p0 q b -> polar_le p0 b p ->
  0 <= Exact.crossProduct a b q -> Exact.crossProduct a b p <= 0 -> 0 <= Exact.crossProduct a p q.
Proof.
  unfold above, polar_le. rewrite !(crossProduct_from p0). apply vpolar_pop_near.
Qed.

Lemma polar_turn_up a b c q :
  above p0 a -> above p0 b -> above p0 c -> above p0 q ->
  polar_le p0 a b -> polar_le p0 b c -> polar_le p0 q b ->
  0 < Exact.crossProduct a b c -> 0 <= Exact.crossProduct a b q -> 0 <= Exact.crossProduct b c q.
Proof.
  unfold above, polar_le. rewrite !(crossProduct_from p0). apply vpolar_up.
Qed.

Lemma polar_turn_down a b c q :
  above p0 a -> above p0 b -> above p0 c -> above p0 q ->
  polar_le p0 a b -> polar_le p0 b c -> polar_le p0 b q ->
  0 < Exact.crossProduct a b c -> 0 <= Exact.crossProduct b c q -> 0 <= Exact.crossProduct a b q.
Proof.
  unfold above, polar_le. rewrite !(crossProduct_from p0). apply vpolar_down.
Qed.

End Polar.

(** ** Sorting *)

Lemma insert_perm lt x l : Permutation (Hull.insert lt x l) (x :: l).
Proof.
  induction l as [|y l IH]; [reflexivity|].
  cbn. destruct (lt y x); [|reflexivity].
  rewrite IH. apply perm_swap.
Qed.

Lemma sort_perm lt l : Permutation (Hull.sort lt l) l.
Proof.
  induction l as [|x l IH]; [reflexivity|].
  cbn. rewrite insert_perm. now constructor.
Qed.

Section Sorting.

Variable D : QPointF -> Prop.
Variable le : QPointF -> QPointF -> Prop.
Variable lt : QPointF -> QPointF -> bool.

Hypothesis le_trans :
  forall a b c, D a -> D b -> D c -> le a b -> le b c -> le a c.
Hypothesis lt_le : forall a b, D a -> D b -> lt a b = true -> le a b.
Hypothesis nlt_le : forall a b, D a -> D b -> lt a b = false -> le b a.

Lemma insert_sorted x l :
  D x -> Forall D l -> StronglySorted le l ->
  StronglySorted le (Hull.insert lt x l).
Proof.
  intros Dx Dl Hs. induction l as [|y l IH]; cbn.
  - constructor; constructor.
  - inversion Dl as [|? ? Dy Dl']; subst.
    inversion Hs as [|? ? Hs' Hy]; subst.
    destruct (lt y x) eqn:E.
    + constructor; [apply IH; assumption|].
      assert (Hperm := insert_perm lt x l).
      rewrite Forall_forall in *. intros z Hz.
      apply (Permutation_in _ Hperm) in Hz. destruct Hz as [<-|Hz].
      * apply lt_le; assumption.
      * apply Hy, Hz.
    + constructor; [exact Hs|].
      constructor; [apply nlt_le; assumption|].
      rewrite Forall_forall in *. intros z Hz.
      apply (le_trans x y z); auto.
Qed.

Lemma sort_sorted l : Forall D l -> StronglySorted le (Hull.sort lt l).
Proof.
  induction l as [|x l IH]; intro Dl; cbn; [constructor|].
  inversion Dl; subst. apply insert_sorted; auto.
  rewrite Forall_forall in *. intros z Hz. apply H2.
  exact (Permutation_in _ (sort_perm lt l) Hz).
Qed.

End Sorting.

Lemma sorted_scan D le S :
  Forall D S -> StronglySorted le S -> scan_sorted D le S.
Proof.
  intros HD HS P. revert S HD HS.
  induction P as [|x P IH]; intros S HD HS p rest E; subst S.
  - inversion HD; subst. split; [assumption|]. intros q [].
  - inversion HD as [|? ? Dx HD']; subst.
    inversion HS as [|? ? HS' Hx]; subst.
    destruct (IH _ HD' HS' p rest eq_refl) as [Dp Hle].
    split; [exact Dp|].
    intros q [<-|Hq]; [|now apply Hle].
    rewrite Forall_forall in Hx. apply Hx. apply in_or_app. right. now left.
Qed.

Lemma sorted_snoc (R : QPointF -> QPointF -> Prop) l x :
  StronglySorted R l -> Forall (fun y => R y x) l -> StronglySorted R (l ++ [x]).
Proof.
  induction 1 as [|y l HS IH Hy]; intro Hx; cbn.
  - constructor; constructor.
  - inversion Hx; subst. constructor; [apply IH; assumption|].
    apply Forall_app. split; [assumption|]. constructor; [assumption|constructor].
Qed.

Lemma sorted_rev (le : QPointF -> QPointF -> Prop) (S : list QPointF) :
  StronglySorted le S -> StronglySorted (fun a b => le b a) (rev S).
Proof.
  induction 1 as [|x S HS IH Hx]; cbn; [constructor|].
  apply sorted_snoc; [exact IH|].
  rewrite Forall_forall in *. intros y Hy. apply Hx. now apply in_rev.
Qed.

(** *** The comparators of the source decide the orders *)

Lemma lex_lt_le a b : Hull.lex_lt a b = true -> lex_le a b.
Proof.
  unfold Hull.lex_lt, lex_le. rewrite orb_true_iff, andb_true_iff.
  rewrite !Qltb_lt, Qeq_bool_iff. intros [H|[H1 H2]]; [left; exact H|right].
  split; [exact H1|lra].
Qed.

Lemma lex_nlt_le a b : Hull.lex_lt a b = false -> lex_le b a.
Proof.
  unfold Hull.lex_lt, lex_le. rewrite orb_false_iff, andb_false_iff.
  intros [H1 H2]. apply Qltb_ge in H1.
  destruct (Q_dec (px b) (px a)) as [[h|h]|h]; [left; exact h|lra|].
  right. split; [exact h|].
  destruct H2 as [H2|H2].
  - apply Qeq_bool_neq in H2. exfalso. apply H2. now symmetry.
  - now apply Qltb_ge in H2.
Qed.

Lemma integral_small (x : Q) : integral x -> Qabs x < EPSILON -> x == 0.
Proof.
  intros [z Hz] Hlt. rewrite Hz in *.
  assert (Hz0 : z = 0%Z).
  { unfold EPSILON in Hlt.
    destruct (Z.eq_dec z 0) as [E|E]; [exact E|exfalso].
    assert (H1 : 1 <= Qabs (inject_Z z)).
    { apply Qabs_case; intro H0.
      - change 1 with (inject_Z 1). rewrite <- Zle_Qle.
        change 0 with (inject_Z 0) in H0. rewrite <- Zle_Qle in H0. lia.
      - rewrite <- inject_Z_opp. change 1 with (inject_Z 1). rewrite <- Zle_Qle.
        change 0 with (inject_Z 0) in H0. rewrite <- Zle_Qle in H0. lia. }
    lra. }
  rewrite Hz0. reflexivity.
Qed.

Lemma distSq_vnorm (p0 a : QPointF) :
  Exact.distSq p0 a == vnorm (px a - px p0) (py a - py p0).
Proof. unfold Exact.distSq, vnorm. ring. Qed.

Lemma crossProduct_pivot (p0 a b : QPointF) :
  Exact.crossProduct p0 a b
  == vcross (px a - px p0) (py a - py p0) (px b - px p0) (py b - py p0).
Proof. unfold Exact.crossProduct, vcross. ring. Qed.

Section PolarComparator.

Variable p0 : QPointF.
Hypothesis p0_int : integral_point p0.

Lemma polar_lt_le a b :
  integral_point a -> integral_point b ->
  Exact.polar_lt p0 a b = true -> polar_le p0 a b.
Proof.
  intros Ha Hb. unfold Exact.polar_lt, polar_le, vpolar_le.
  rewrite <- !crossProduct_pivot, <- !distSq_vnorm.
  destruct (Qltb (Qabs (Exact.crossProduct p0 a b)) EPSILON) eqn:E.
  - apply Qltb_lt in E.
    apply integral_small in E; [|now apply crossProduct_integral].
    rewrite Qltb_lt. intro H. right. split; [exact E|lra].
  - rewrite Qltb_lt. intro H. left. exact H.
Qed.

Lemma polar_nlt_le a b :
  integral_point a -> integral_point b ->
  Exact.polar_lt p0 a b = false -> polar_le p0 b a.
Proof.
  intros Ha Hb. unfold Exact.polar_lt, polar_le, vpolar_le.
  rewrite <- !crossProduct_pivot, <- !distSq_vnorm.
  assert (Hflip : Exact.crossProduct p0 b a == - Exact.crossProduct p0 a b)
    by (unfold Exact.crossProduct; ring).
  rewrite Hflip.
  destruct (Qltb (Qabs (Exact.crossProduct p0 a b)) EPSILON) eqn:E.
  - apply Qltb_lt in E.
    apply integral_small in E; [|now apply crossProduct_integral].
    rewrite Qltb_ge. intro H. right. split; [lra|exact H].
  - apply Qltb_ge in E. rewrite Qltb_ge. intro H. left.
    assert (~ Exact.crossProduct p0 a b == 0).
    { intro E0. rewrite E0 in E. unfold EPSILON in E. cbn in E. lra. }
    lra.
Qed.

End PolarComparator.

(** ** The corners of a point set are determined by the set *)

Ltac pcoords :=
  repeat match goal with
         | p : QPointF |- _ => destruct p as [? ?]
         end;
  unfold same_point, along, Exact.crossProduct in *; cbn [px py] in *.

Lemma sum_sq_zero (a b : Q) : a * a + b * b <= 0 -> a == 0 /\ b == 0.
Proof.
  intro H.
  destruct (Q_dec a 0) as [[h|h]|h]; [nra|nra|].
  destruct (Q_dec b 0) as [[h'|h']|h']; [nra|nra|]. split; assumption.
Qed.

Lemma sq_nonneg (a : Q) : 0 <= a * a.
Proof. destruct (Qlt_le_dec a 0); nra. Qed.

Lemma along_self_nonneg (v u : QPointF) : 0 <= along v u u.
Proof.
  unfold along.
  pose proof (sq_nonneg (px u - px v)). pose proof (sq_nonneg (py u - py v)).
  lra.
Qed.

Lemma along_self_pos (z v : QPointF) : ~ same_point z v -> 0 < along z v v.
Proof.
  intro Hzv.
  destruct (Qlt_le_dec 0 (along z v v)) as [h|h]; [exact h|].
  exfalso. apply Hzv. unfold along in h.
  destruct (sum_sq_zero _ _ h) as [Hx Hy]. split; lra.
Qed.

(** Points on one line. *)
Lemma collinear_three (z v q1 q2 q3 : QPointF) :
  ~ same_point z v ->
  Exact.crossProduct z v q1 == 0 -> Exact.crossProduct z v q2 == 0 ->
  Exact.crossProduct z v q3 == 0 ->
  Exact.crossProduct q1 q2 q3 == 0.
Proof.
  intros Hzv H1 H2 H3.
  pose proof (along_self_pos z v Hzv) as Hn.
  assert (E : along z v v * Exact.crossProduct q1 q2 q3
              == along z v q2 * Exact.crossProduct z v q3
                 - Exact.crossProduct z v q2 * along z v q3
                 - (along z v q2 * Exact.crossProduct z v q1
                    - Exact.crossProduct z v q2 * along z v q1)
                 - (along z v q1 * Exact.crossProduct z v q3
                    - Exact.crossProduct z v q1 * along z v q3))
    by (unfold along, Exact.crossProduct; ring).
  rewrite H1, H2, H3 in E.
  assert (E' : along z v v * Exact.crossProduct q1 q2 q3 == 0) by (rewrite E; ring).
  apply Qmult_integral in E'. destruct E' as [E'|E']; [lra|exact E'].
Qed.

Lemma supports_line_collinear (pts : list QPointF) (z v : QPointF) :
  ~ same_point z v ->
  (forall q, In q pts -> Exact.crossProduct z v q == 0) ->
  ~ non_collinear pts.
Proof.
  intros Hzv Hall (a & b & c & Ha & Hb & Hc & Hn).
  apply Hn. apply (collinear_three z v); auto.
Qed.

(** Two supporting edges that meet in [v] make a strict left turn unless the
    second one goes on in the direction of the first. *)
Lemma junction (pts : list QPointF) (z v u : QPointF) :
  non_collinear pts -> In u pts ->
  supports pts z v -> supports pts v u ->
  ~ same_point z v -> ~ same_point v u ->
  (Exact.crossProduct z v u == 0 -> along z v u <= along z v v) ->
  0 < Exact.crossProduct z v u.
Proof.
  intros Hnc Hu Hzv Hvu Dzv Dvu Hback.
  destruct (Qlt_le_dec 0 (Exact.crossProduct z v u)) as [h|h]; [exact h|exfalso].
  assert (E0 : Exact.crossProduct z v u == 0) by (specialize (Hzv u Hu); lra).
  specialize (Hback E0).
  apply (supports_line_collinear pts z v Dzv); [|exact Hnc].
  intros q Hq. specialize (Hzv q Hq). specialize (Hvu q Hq).
  pose proof (along_self_pos z v Dzv) as Hn.
  (* (u - v) = s (v - z) with s = (along z v u - along z v v) / along z v v *)
  assert (E1 : along z v v * Exact.crossProduct v u q
               == (along z v u - along z v v) * Exact.crossProduct z v q
                  - Exact.crossProduct z v u * (along z v q - along z v v))
    by (unfold along, Exact.crossProduct; ring).
  rewrite E0 in E1.
  assert (Hlt : along z v u < along z v v).
  { destruct (Qlt_le_dec (along z v u) (along z v v)) as [h'|h']; [exact h'|].
    exfalso. apply Dvu.
    assert (Ea : along z v u - along z v v == 0) by lra.
    assert (E2 : along z v v * along v u u
                 == (along z v u - along z v v) * (along z v u - along z v v)
                    + Exact.crossProduct z v u * Exact.crossProduct z v u)
      by (unfold along, Exact.crossProduct; ring).
    rewrite Ea, E0 in E2.
    assert (E3 : along z v v * along v u u == 0) by (rewrite E2; ring).
    apply Qmult_integral in E3. destruct E3 as [E3|E3]; [lra|].
    unfold along in E3.
    destruct (sum_sq_zero (px u - px v) (py u - py v)) as [Hx Hy]; [lra|].
    split; lra. }
  nra.
Qed.

(** A least element for a pair of keys compared one after the other. *)
Lemma key_min (f g : QPointF -> Q) (l : list QPointF) :
  l <> [] ->
  exists h, In h l
            /\ forall x, In x l -> f h < f x \/ (f h == f x /\ g h <= g x).
Proof.
  induction l as [|a l IH]; [congruence|]. intros _.
  destruct l as [|b l].
  { exists a. split; [now left|]. intros x [<-|[]]. right. split; [reflexivity|lra]. }
  destruct (IH ltac:(discriminate)) as (h & Hh & Hmin).
  assert (Hcmp : (f a < f h \/ (f a == f h /\ g a <= g h))
                 \/ (f h < f a \/ (f h == f a /\ g h <= g a))).
  { destruct (Q_dec (f a) (f h)) as [[c|c]|c]; [left; left; exact c|right; left; exact c|].
    destruct (Qlt_le_dec (g h) (g a)); [right|left]; right; split; lra. }
  destruct Hcmp as [Ha|Ha].
  - exists a. split; [now left|].
    intros x [<-|Hx]; [right; split; [reflexivity|lra]|].
    specialize (Hmin x Hx). destruct Ha as [Ha|[Ha1 Ha2]], Hmin as [Hm|[Hm1 Hm2]];
      [left; lra|left; lra|left; lra|right; split; lra].
  - exists h. split; [now right|].
    intros x [<-|Hx]; [exact Ha|now apply Hmin].
Qed.

(** A corner of the point set is a vertex of every hull of the set. *)
Lemma corner_in_hull (pts H : list QPointF) (v z u : QPointF) :
  is_hull pts H -> In v pts ->
  supports pts z v -> supports pts v u -> 0 < Exact.crossProduct z v u ->
  exists v', In v' H /\ same_point v v'.
Proof.
  intros (Hne & Hincl & Hcorner) Hv Hzv Hvu Hturn.
  set (f := fun q => Exact.crossProduct v u q).
  set (g := fun q => along v u q).
  destruct (key_min f g H Hne) as (h & Hh & Hmin).
  exists h. split; [exact Hh|].
  destruct (Hcorner h Hh) as (hm & hp & Hhm & Hhp & Shm & Shp & HD).
  pose proof (Shm v Hv) as HA. pose proof (Shp v Hv) as HB.
  pose proof (Hmin hp Hhp) as Kp. pose proof (Hmin hm Hhm) as Km.
  assert (Hpts : forall x, In x H -> 0 <= f x)
    by (intros x Hx; apply Hvu, Hincl, Hx).
  pose proof (Hpts h Hh) as Fh.
  (* points of the supporting line through v and u lie ahead of v *)
  assert (Hahead : forall q, In q pts -> f q == 0 -> 0 <= g q).
  { intros q Hq E. pose proof (Hzv q Hq) as Hzq.
    assert (Id : Exact.crossProduct z v q * along v u u
                 == Exact.crossProduct z v u * g q
                    + along z v u * f q - along z v v * f q)
      by (unfold f, g, along, Exact.crossProduct; ring).
    rewrite E in Id.
    pose proof (along_self_nonneg v u) as Huu.
    nra. }
  assert (If : Exact.crossProduct hm h hp * (f v - f h)
               == Exact.crossProduct hm h v * (f hp - f h)
                  + Exact.crossProduct h hp v * (f hm - f h))
    by (unfold f, Exact.crossProduct; ring).
  assert (Ig : Exact.crossProduct hm h hp * (g v - g h)
               == Exact.crossProduct hm h v * (g hp - g h)
                  + Exact.crossProduct h hp v * (g hm - g h))
    by (unfold g, along, Exact.crossProduct; ring).
  assert (Fv : f v == 0) by (unfold f, Exact.crossProduct; ring).
  assert (Gv : g v == 0) by (unfold g, along; ring).
  rewrite Fv in If. rewrite Gv in Ig.
  set (A := Exact.crossProduct hm h v) in *. set (B := Exact.crossProduct h hp v) in *.
  set (Dt := Exact.crossProduct hm h hp) in *.
  assert (Fp : f h <= f hp) by (destruct Kp as [Kp|[Kp _]]; lra).
  assert (Fm : f h <= f hm) by (destruct Km as [Km|[Km _]]; lra).
  assert (F0 : f h == 0) by nra.
  assert (Gh : 0 <= g h) by (apply Hahead; [apply Hincl, Hh|exact F0]).
  assert (Tp : 0 <= A * (g hp - g h)).
  { destruct Kp as [Kp|[Kp1 Kp2]]; [|nra].
    assert (A == 0) by nra. nra. }
  assert (Tm : 0 <= B * (g hm - g h)).
  { destruct Km as [Km|[Km1 Km2]]; [|nra].
    assert (B == 0) by nra. nra. }
  assert (G0 : g h == 0) by nra.
  (* f h = 0 and g h = 0 with u different from v *)
  assert (L : along v u u * along v h h == f h * f h + g h * g h)
    by (unfold f, g, along, Exact.crossProduct; ring).
  rewrite F0, G0 in L.
  assert (Huv : 0 < along v u u).
  { apply along_self_pos. intros [Ex Ey].
    assert (Exact.crossProduct z v u == 0)
      by (unfold Exact.crossProduct; rewrite Ex, Ey; ring).
    lra. }
  assert (L' : along v u u * along v h h == 0) by (rewrite L; ring).
  apply Qmult_integral in L'. destruct L' as [L'|L']; [lra|].
  unfold along in L'.
  destruct (sum_sq_zero (px h - px v) (py h - py v)) as [Hx Hy]; [lra|].
  split; lra.
Qed.

(** Two hulls of the same point set have the same vertices. *)
Theorem hulls_same_vertices (pts H1 H2 : list QPointF) :
  is_hull pts H1 -> is_hull pts H2 -> same_vertices H1 H2.
Proof.
  intros Hh1 Hh2. split; intros v Hv.
  - destruct Hh1 as (_ & Hincl & Hc).
    destruct (Hc v Hv) as (z & u & _ & _ & S1 & S2 & Ht).
    apply (corner_in_hull pts H2 v z u); auto.
  - destruct Hh2 as (_ & Hincl & Hc).
    destruct (Hc v Hv) as (z & u & _ & _ & S1 & S2 & Ht).
    apply (corner_in_hull pts H1 v z u); auto.
Qed.

(** ** Neighbours in a list *)

Lemma pairs_ok_adj R l b a : pairs_ok R l -> adj b a l -> R b a.
Proof.
  intros H (l1 & l2 & ->). apply pairs_ok_suffix in H. exact (proj1 H).
Qed.

Lemma triples_ok_adj3 R l l1 c b a l2 :
  triples_ok R l -> l = l1 ++ c :: b :: a :: l2 -> R c b a.
Proof.
  intros H ->. apply triples_ok_suffix in H. exact (proj1 H).
Qed.

Lemma adj_rev (a b : QPointF) (l : list QPointF) : adj a b (rev l) -> adj b a l.
Proof.
  intros (l1 & l2 & E). exists (rev l2), (rev l1).
  rewrite <- (rev_involutive l), E, rev_app_distr. cbn.
  rewrite <- !app_assoc. reflexivity.
Qed.

Lemma adj_in (a b : QPointF) (l : list QPointF) : adj a b l -> In a l /\ In b l.
Proof.
  intros (l1 & l2 & ->). split; apply in_or_app; right; cbn; auto.
Qed.

(** Two lists that share an end point, put one after the other. *)
Lemma adj_shared (a b c : QPointF) (X Y : list QPointF) :
  adj a b (X ++ c :: Y) -> adj a b (X ++ [c]) \/ adj a b (c :: Y).
Proof.
  revert a b. induction X as [|x X IH]; intros a b (l1 & l2 & E).
  - right. exists l1, l2. exact E.
  - destruct l1 as [|y l1]; cbn in E.
    + injection E as <- E. left. destruct X as [|x' X]; cbn in E |- *.
      * injection E as <- _. exists [], []. reflexivity.
      * injection E as <- _. exists [], (X ++ [c]). reflexivity.
    + injection E as <- E.
      destruct (IH a b (ex_intro _ l1 (ex_intro _ l2 E))) as [(k1 & k2 & E')|H].
      * left. exists (x :: k1), k2. cbn. now rewrite E'.
      * right. exact H.
Qed.

(** The edge [i] of a polygon joins two neighbours of the closed path. *)
Lemma edge_index (H : list QPointF) (i : nat) :
  (i < length H)%nat ->
  adj (at_ H i) (at_ H ((i + 1) mod length H)) (close H).
Proof.
  intro Hi. destruct H as [|h0 H']; [cbn in Hi; lia|].
  set (H := h0 :: H') in *. change (close H) with (H ++ [h0]).
  destruct (Nat.eq_dec (S i) (length H)) as [E|E].
  - replace ((i + 1) mod length H)%nat with 0%nat
      by (replace (i + 1)%nat with (length H) by lia;
          now rewrite Nat.Div0.mod_same).
    exists (firstn i H), [].
    rewrite <- (firstn_skipn i H) at 1.
    rewrite <- app_assoc. f_equal.
    assert (Hs : skipn i H = [at_ H i]).
    { unfold at_. rewrite <- (firstn_skipn i H) at 2.
      rewrite app_nth2 by (rewrite length_firstn; lia).
      rewrite length_firstn. replace (i - Nat.min i (length H))%nat with 0%nat by lia.
      assert (Hl : length (skipn i H) = 1%nat) by (rewrite length_skipn; lia).
      destruct (skipn i H) as [|x [|y r]]; cbn in Hl; try lia. reflexivity. }
    rewrite Hs. reflexivity.
  - rewrite Nat.mod_small by lia.
    exists (firstn i H), (skipn (i + 2) H ++ [h0]).
    rewrite <- (firstn_skipn i H) at 1. rewrite <- app_assoc. f_equal.
    assert (Hs : skipn i H = at_ H i :: at_ H (i + 1) :: skipn (i + 2) H).
    { assert (Hi2 : (i + 1 < length H)%nat) by lia.
      clearbody H. clear - Hi2. revert i Hi2.
      induction H as [|x H IH]; intros i Hi2; [cbn in Hi2; lia|].
      destruct i as [|i].
      - destruct H as [|y H]; [cbn in Hi2; lia|]. reflexivity.
      - cbn [skipn]. rewrite (IH i) by (cbn in Hi2; lia). reflexivity. }
    rewrite Hs. reflexivity.
Qed.

Lemma edges_support_inside (pts H : list QPointF) :
  (forall a b, adj a b (close H) -> supports pts a b) ->
  forall q, In q pts -> on_or_inside H q.
Proof.
  intros Hedges q Hq i Hi.
  exact (Hedges _ _ (edge_index H i Hi) q Hq).
Qed.

(** ** The length of a chain *)

Lemma pop_while_nonempty C p : C <> [] -> Exact.pop_while C p <> [].
Proof.
  induction C as [|b C IH]; [congruence|]. intros _.
  destruct C as [|a C]; [discriminate|].
  change (Exact.pop_while (b :: a :: C) p)
    with (if Qle_bool (Exact.crossProduct a b p) 0
          then Exact.pop_while (a :: C) p else b :: a :: C).
  destruct (Qle_bool _ _); [apply IH|]; discriminate.
Qed.

Lemma push_length C p : C <> [] -> (2 <= length (Exact.push C p))%nat.
Proof.
  intro H. unfold Exact.push.
  pose proof (pop_while_nonempty C p H).
  destruct (Exact.pop_while C p); [congruence|cbn; lia].
Qed.

Lemma fold_push_length rest :
  forall C, (2 <= length C)%nat -> (2 <= length (fold_left Exact.push rest C))%nat.
Proof.
  induction rest as [|p rest IH]; intros C HC; [exact HC|].
  cbn [fold_left]. apply IH. apply push_length.
  destruct C; [cbn in HC; lia|discriminate].
Qed.

Lemma build_chain_length S :
  (2 <= length S)%nat -> (2 <= length (Exact.build_chain S))%nat.
Proof.
  destruct S as [|s1 [|s2 S]]; cbn [length]; try lia. intros _.
  unfold Exact.build_chain. cbn [fold_left].
  apply fold_push_length. apply push_length. discriminate.
Qed.

(** ** Neighbours in a chain are different points *)

Lemma turn_distinct (a b c : QPointF) :
  0 < Exact.crossProduct a b c -> ~ same_point a b /\ ~ same_point b c.
Proof.
  intro H. split; intros [Ex Ey]; unfold Exact.crossProduct in H.
  - rewrite Ex, Ey in H. lra.
  - rewrite Ex, Ey in H. lra.
Qed.

Lemma chain_distinct (C : list QPointF) :
  triples_ok (fun c b a => 0 < Exact.crossProduct a b c) C ->
  (forall b a, C = [b; a] -> ~ same_point a b) ->
  pairs_ok (fun b a => ~ same_point a b) C.
Proof.
  induction C as [|c C IH]; intros Ht H2; [exact I|].
  destruct C as [|b C]; [exact I|].
  destruct C as [|a C].
  - split; [|exact I]. now apply H2.
  - destruct Ht as [Hcba Ht].
    destruct (turn_distinct a b c Hcba) as [Hab Hbc].
    split; [exact Hbc|].
    apply IH; [exact Ht|].
    intros b' a' E. injection E as <- <- ->. exact Hab.
Qed.

Lemma all_same_collinear (pts : list QPointF) (a : QPointF) :
  (forall q, In q pts -> same_point a q) -> ~ non_collinear pts.
Proof.
  intros H (x & y & z & Hx & Hy & Hz & Hn). apply Hn.
  destruct (H x Hx) as [Ex1 Ex2], (H y Hy) as [Ey1 Ey2], (H z Hz) as [Ez1 Ez2].
  unfold Exact.crossProduct. rewrite <- Ex1, <- Ex2, <- Ey1, <- Ey2, <- Ez1, <- Ez2. ring.
Qed.

(** ** Corners of a chain *)

Lemma interior_corner (pts C H l1 l2 : list QPointF) (u v z : QPointF) :
  Chain pts C -> C = l1 ++ u :: v :: z :: l2 -> incl C H -> corner pts H v.
Proof.
  intros [_ _ Hs Ht _] E Hin. exists z, u.
  assert (Hu : In u C) by (rewrite E; apply in_or_app; right; cbn; auto).
  assert (Hz : In z C) by (rewrite E; apply in_or_app; right; cbn; auto).
  repeat split; auto.
  - apply (pairs_ok_adj _ C v z Hs). exists (l1 ++ [u]), l2.
    rewrite E, <- app_assoc. reflexivity.
  - apply (pairs_ok_adj _ C u v Hs). exists l1, (z :: l2). exact E.
  - exact (triples_ok_adj3 _ C l1 u v z l2 Ht E).
Qed.

Lemma junction_corner (pts C C' H l1 r : list QPointF) (u v z : QPointF) :
  non_collinear pts -> Chain pts C -> Chain pts C' ->
  C = l1 ++ [u; v] -> C' = v :: z :: r ->
  incl C H -> incl C' H ->
  (Exact.crossProduct z v u == 0 -> along z v u <= along z v v) ->
  corner pts H v.
Proof.
  intros Hnc [_ Hi Hs _ Hd] [_ Hi' Hs' _ Hd'] E E' Hin Hin' Hal.
  assert (Hu : In u C) by (rewrite E; apply in_or_app; right; cbn; auto).
  assert (Hz : In z C') by (rewrite E'; cbn; auto).
  assert (Hzv : supports pts z v).
  { apply (pairs_ok_adj _ C' v z Hs'). exists [], r. exact E'. }
  assert (Hvu : supports pts v u).
  { apply (pairs_ok_adj _ C u v Hs). exists l1, []. exact E. }
  exists z, u. repeat split; auto.
  apply (junction pts); auto.
  - apply (pairs_ok_adj _ C' v z Hd'). exists [], r. exact E'.
  - apply (pairs_ok_adj _ C u v Hd). exists l1, []. exact E.
Qed.

(** Where an element of the tail of a chain sits. *)
Lemma tail_position (C : list QPointF) (v : QPointF) :
  In v (tl C) ->
  (exists l1 u z l2, C = l1 ++ u :: v :: z :: l2)
  \/ (exists l1 u, C = l1 ++ [u; v]).
Proof.
  destruct C as [|c C]; [intros []|]. cbn [tl]. intro Hv.
  destruct (in_split _ _ Hv) as (k1 & k2 & ->).
  destruct (exists_last (l := c :: k1) ltac:(discriminate)) as (l1 & u & E).
  change (c :: k1 ++ v :: k2) with ((c :: k1) ++ v :: k2). rewrite E.
  rewrite <- app_assoc. cbn [app].
  destruct k2 as [|z k2]; [right|left]; eauto.
Qed.

Lemma last_app_two (l1 : list QPointF) (u v d : QPointF) :
  last (l1 ++ [u; v]) d = v.
Proof.
  change (l1 ++ [u; v]) with (l1 ++ [u] ++ [v]).
  rewrite app_assoc. apply last_last.
Qed.

(** Two vectors of a half plane that are on one line through the origin point
    the same way. *)
Lemma cone_dot (a b c d : Q) :
  0 < a \/ (a == 0 /\ 0 <= b) -> 0 < c \/ (c == 0 /\ 0 <= d) ->
  a * d - b * c == 0 -> 0 <= a * c + b * d.
Proof.
  intros [Ha|[Ha Hb]] [Hc|[Hc Hd]] E.
  - assert (E' : a * (a * c + b * d) == c * (a * a + b * b)).
    { setoid_replace (a * (a * c + b * d))
        with (a * a * c + b * (a * d - b * c) + b * b * c) by ring.
      rewrite E. ring. }
    pose proof (sq_nonneg a). pose proof (sq_nonneg b).
    assert (0 <= c * (a * a + b * b)) by (apply Qmult_le_0_compat; lra).
    destruct (Qlt_le_dec (a * c + b * d) 0) as [h|h]; [|exact h].
    exfalso.
    assert (a * (a * c + b * d) < 0).
    { setoid_replace (a * (a * c + b * d)) with (- (a * - (a * c + b * d))) by ring.
      assert (0 < a * - (a * c + b * d)) by (apply Qmult_lt_0_compat; lra). lra. }
    lra.
  - rewrite Hc in E |- *.
    assert (Hd0 : d == 0).
    { assert (E2 : a * d == 0) by lra.
      destruct (Qmult_integral _ _ E2); [lra|assumption]. }
    rewrite Hd0. lra.
  - rewrite Ha in E |- *.
    assert (Hb0 : b == 0).
    { assert (E2 : b * c == 0) by lra.
      destruct (Qmult_integral _ _ E2); [assumption|lra]. }
    rewrite Hb0. lra.
  - rewrite Ha, Hc. assert (0 <= b * d) by (apply Qmult_le_0_compat; lra). lra.
Qed.

(** At the least and at the greatest point of the order of [lex_lt]. *)
Lemma lex_min_along (z v u : QPointF) :
  lex_le v z -> lex_le v u -> Exact.crossProduct z v u == 0 ->
  along z v u <= along z v v.
Proof.
  intros Hz Hu E.
  pose proof (cone_dot (px z - px v) (py z - py v) (px u - px v) (py u - py v)) as K.
  unfold lex_le in Hz, Hu. unfold Exact.crossProduct in E. unfold along.
  assert (K' : 0 <= (px z - px v) * (px u - px v) + (py z - py v) * (py u - py v)).
  { apply K.
    - destruct Hz as [h|[h1 h2]]; [left|right]; lra.
    - destruct Hu as [h|[h1 h2]]; [left|right]; lra.
    - lra. }
  lra.
Qed.

Lemma lex_max_along (z v u : QPointF) :
  lex_le z v -> lex_le u v -> Exact.crossProduct z v u == 0 ->
  along z v u <= along z v v.
Proof.
  intros Hz Hu E.
  pose proof (cone_dot (px v - px z) (py v - py z) (px v - px u) (py v - py u)) as K.
  unfold lex_le in Hz, Hu. unfold Exact.crossProduct in E. unfold along.
  assert (K' : 0 <= (px v - px z) * (px v - px u) + (py v - py z) * (py v - py u)).
  { apply K.
    - destruct Hz as [h|[h1 h2]]; [left|right]; lra.
    - destruct Hu as [h|[h1 h2]]; [left|right]; lra.
    - lra. }
  lra.
Qed.

Lemma non_collinear_two (pts : list QPointF) :
  non_collinear pts -> (2 <= length pts)%nat.
Proof.
  intros (a & b & c & Ha & Hb & Hc & Hn).
  destruct pts as [|x [|y r]]; cbn [length]; try lia.
  - destruct Ha.
  - destruct Ha as [<-|[]], Hb as [<-|[]], Hc as [<-|[]].
    exfalso. apply Hn. unfold Exact.crossProduct. ring.
Qed.

Lemma supports_same_points (S pts : list QPointF) (a b : QPointF) :
  (forall q, In q pts -> In q S) -> supports S a b -> supports pts a b.
Proof. intros H Hs q Hq. apply Hs, H, Hq. Qed.

(** ** From the invariant of the scan to the finished chain *)

Section ScanChain.

Variable D : QPointF -> Prop.
Variable le : QPointF -> QPointF -> Prop.

Hypothesis le_trans :
  forall a b c, D a -> D b -> D c -> le a b -> le b c -> le a c.
Hypothesis le_total : forall a b, D a -> D b -> le a b \/ le b a.
Hypothesis le_antisym :
  forall a b, D a -> D b -> le a b -> le b a -> same_point a b.
Hypothesis turn_up :
  forall a b c q, D a -> D b -> D c -> D q ->
    le a b -> le b c -> le q b ->
    0 < Exact.crossProduct a b c -> 0 <= Exact.crossProduct a b q ->
    0 <= Exact.crossProduct b c q.
Hypothesis turn_down :
  forall a b c q, D a -> D b -> D c -> D q ->
    le a b -> le b c -> le b q ->
    0 < Exact.crossProduct a b c -> 0 <= Exact.crossProduct b c q ->
    0 <= Exact.crossProduct a b q.
Hypothesis le_same : forall q a b, le q b -> same_point a b -> le q a.

Lemma Inv_Chain (pts S C : list QPointF) :
  non_collinear pts -> (forall q, In q pts -> In q S) -> incl S pts ->
  Inv D le S C -> (2 <= length C)%nat -> Chain pts C.
Proof.
  intros Hnc Hin Hincl HI Hlen.
  constructor.
  - exact Hlen.
  - intros x Hx. apply Hincl. exact (inv_incl D le S C HI x Hx).
  - apply (pairs_ok_impl (fun b a => supports S a b)).
    + intros b a _ _. apply supports_same_points. exact Hin.
    + exact (Inv_supports D le le_trans le_total le_antisym turn_up turn_down S C HI).
  - exact (inv_turns D le S C HI).
  - apply chain_distinct; [exact (inv_turns D le S C HI)|].
    intros b a E Hab.
    apply (all_same_collinear pts a); [|exact Hnc].
    intros q Hq. apply Hin in Hq.
    pose proof (inv_D D le S C HI) as HD. rewrite Forall_forall in HD.
    assert (Ha : In a S) by (apply (inv_incl D le S C HI); rewrite E; cbn; auto).
    apply le_antisym; auto.
    + pose proof (inv_bot D le S C HI q Hq) as Hb. rewrite E in Hb. exact Hb.
    + apply (le_same q a b); [|exact Hab].
      apply (inv_top D le S C HI q b Hq). rewrite E. reflexivity.
Qed.

End ScanChain.

Lemma lex_le_same q a b : lex_le q b -> same_point a b -> lex_le q a.
Proof. unfold lex_le. intros H [Hx Hy]. destruct H as [H|[H1 H2]]; [left|right]; lra. Qed.

Lemma lex_ge_same q a b : lex_ge q b -> same_point a b -> lex_ge q a.
Proof.
  unfold lex_ge, lex_le. intros H [Hx Hy].
  destruct H as [H|[H1 H2]]; [left|right]; lra.
Qed.

(** ** The monotone chain *)

Lemma lex_sorted (pts : list QPointF) :
  StronglySorted lex_le (Hull.sort Hull.lex_lt pts).
Proof.
  apply (sort_sorted (fun _ => True)).
  - intros a b c _ _ _. apply lex_le_trans.
  - intros a b _ _. apply lex_lt_le.
  - intros a b _ _. apply lex_nlt_le.
  - apply Forall_forall. auto.
Qed.

Lemma Forall_True (l : list QPointF) : Forall (fun _ => True) l.
Proof. apply Forall_forall. auto. Qed.

Lemma andrew_lower_inv (pts : list QPointF) :
  Inv (fun _ => True) lex_le (Hull.sort Hull.lex_lt pts)
      (Exact.build_chain (Hull.sort Hull.lex_lt pts)).
Proof.
  apply build_chain_inv.
  - intros a b _ _. apply lex_le_total.
  - intros a b _ _. apply lex_le_antisym.
  - intros a b q p _ _ _ _. apply lex_pop_far.
  - intros a b q p _ _ _ _. apply lex_pop_near.
  - apply sorted_scan; [apply Forall_True|apply lex_sorted].
Qed.

Lemma andrew_upper_inv (pts : list QPointF) :
  Inv (fun _ => True) lex_ge (rev (Hull.sort Hull.lex_lt pts))
      (Exact.build_chain (rev (Hull.sort Hull.lex_lt pts))).
Proof.
  apply build_chain_inv.
  - intros a b _ _. unfold lex_ge. destruct (lex_le_total a b); auto.
  - intros a b _ _ H1 H2. apply lex_le_antisym; assumption.
  - intros a b q p _ _ _ _. apply lex_ge_pop_far.
  - intros a b q p _ _ _ _. apply lex_ge_pop_near.
  - apply sorted_scan; [apply Forall_True|].
    apply (sorted_rev lex_le). apply lex_sorted.
Qed.

Lemma sort_length lt l : length (Hull.sort lt l) = length l.
Proof. apply Permutation_length, sort_perm. Qed.

Lemma andrew_lower_chain (pts : list QPointF) :
  non_collinear pts ->
  Chain pts (Exact.build_chain (Hull.sort Hull.lex_lt pts)).
Proof.
  intro Hnc.
  apply (Inv_Chain (fun _ => True) lex_le) with (S := Hull.sort Hull.lex_lt pts).
  - intros a b c _ _ _. apply lex_le_trans.
  - intros a b _ _. apply lex_le_total.
  - intros a b _ _. apply lex_le_antisym.
  - intros a b c q _ _ _ _. apply lex_turn_up.
  - intros a b c q _ _ _ _. apply lex_turn_down.
  - apply lex_le_same.
  - exact Hnc.
  - intros q Hq. apply (Permutation_in _ (Permutation_sym (sort_perm Hull.lex_lt pts))), Hq.
  - intros q Hq. apply (Permutation_in _ (sort_perm Hull.lex_lt pts)), Hq.
  - apply andrew_lower_inv.
  - apply build_chain_length. rewrite sort_length. now apply non_collinear_two.
Qed.

Lemma andrew_upper_chain (pts : list QPointF) :
  non_collinear pts ->
  Chain pts (Exact.build_chain (rev (Hull.sort Hull.lex_lt pts))).
Proof.
  intro Hnc.
  apply (Inv_Chain (fun _ => True) lex_ge) with (S := rev (Hull.sort Hull.lex_lt pts)).
  - intros a b c _ _ _ H1 H2. exact (lex_le_trans _ _ _ H2 H1).
  - intros a b _ _. unfold lex_ge. destruct (lex_le_total a b); auto.
  - intros a b _ _ H1 H2. apply lex_le_antisym; assumption.
  - intros a b c q _ _ _ _. apply lex_ge_turn_up.
  - intros a b c q _ _ _ _. apply lex_ge_turn_down.
  - apply lex_ge_same.
  - exact Hnc.
  - intros q Hq. apply -> in_rev.
    apply (Permutation_in _ (Permutation_sym (sort_perm Hull.lex_lt pts))), Hq.
  - intros q Hq. apply in_rev in Hq. apply (Permutation_in _ (sort_perm Hull.lex_lt pts)), Hq.
  - apply andrew_upper_inv.
  - apply build_chain_length. rewrite length_rev, sort_length.
    now apply non_collinear_two.
Qed.

Lemma last_tail (x : QPointF) (t : list QPointF) (d : QPointF) :
  t <> [] -> In (last (x :: t) d) t.
Proof.
  intro Ht. destruct (exists_last Ht) as (t' & y & ->).
  change (x :: t' ++ [y]) with ((x :: t') ++ [y]). rewrite last_last.
  apply in_or_app. right. now left.
Qed.

Lemma tail_nonempty (x : QPointF) (t : list QPointF) :
  (2 <= length (x :: t))%nat -> t <> [].
Proof. destruct t; cbn; [lia|discriminate]. Qed.

(** The two chains of [andrew]: the lower one runs from the least point [m]
    to the greatest point [M] and is held with [M] first, the upper one runs
    back. *)
Lemma andrew_shape (pts : list QPointF) :
  non_collinear pts ->
  exists m M tL tU,
    Exact.build_chain (Hull.sort Hull.lex_lt pts) = M :: tL
    /\ Exact.build_chain (rev (Hull.sort Hull.lex_lt pts)) = m :: tU
    /\ tL <> [] /\ tU <> []
    /\ last (M :: tL) origin = m /\ last (m :: tU) origin = M
    /\ forall q, In q pts -> lex_le m q /\ lex_le q M.
Proof.
  intro Hnc.
  pose proof (andrew_lower_inv pts) as IL.
  pose proof (andrew_upper_inv pts) as IU.
  pose proof (ch_len _ _ (andrew_lower_chain pts Hnc)) as LL.
  pose proof (ch_len _ _ (andrew_upper_chain pts Hnc)) as LU.
  pose proof (inv_ends _ _ _ _ IL) as EL.
  pose proof (inv_ends _ _ _ _ IU) as EU.
  pose proof (inv_bot _ _ _ _ IL) as BL.
  pose proof (inv_bot _ _ _ _ IU) as BU.
  assert (Hperm : forall q, In q pts -> In q (Hull.sort Hull.lex_lt pts)).
  { intros q Hq.
    apply (Permutation_in _ (Permutation_sym (sort_perm Hull.lex_lt pts))), Hq. }
  pose proof (non_collinear_two pts Hnc) as Hlen.
  rewrite <- (sort_length Hull.lex_lt) in Hlen.
  set (S := Hull.sort Hull.lex_lt pts) in *.
  set (L := Exact.build_chain S) in *.
  set (U := Exact.build_chain (rev S)) in *.
  assert (HS : exists s S', S = s :: S').
  { destruct S as [|s S']; [cbn in Hlen; lia|eauto]. }
  destruct HS as (s & S' & ES).
  assert (HR : exists r R', rev S = r :: R').
  { destruct (rev S) as [|r R'] eqn:E; [|eauto].
    apply (f_equal (@length _)) in E. rewrite length_rev in E. cbn in E. lia. }
  destruct HR as (r & R' & ER).
  rewrite ES in EL. rewrite ER in EU.
  destruct EL as [EL1 EL2], EU as [EU1 EU2].
  assert (Hr : last (s :: S') origin = r).
  { rewrite <- ES, <- (rev_involutive S), ER. cbn [rev]. apply last_last. }
  assert (Hs : last (r :: R') origin = s).
  { rewrite <- ER, ES. cbn [rev]. apply last_last. }
  rewrite Hr in EL1. rewrite Hs in EU1.
  destruct L as [|M tL]; [discriminate|].
  destruct U as [|m tU]; [discriminate|].
  injection EL1 as ->. injection EU1 as ->.
  exists s, r, tL, tU. repeat split; auto.
  - now apply (tail_nonempty r).
  - now apply (tail_nonempty s).
  - rewrite <- EL2. apply BL, Hperm, H.
  - pose proof (BU q) as B. rewrite EU2 in B. apply B.
    apply -> in_rev. apply Hperm, H.
Qed.

(** The hull of [andrew] is a list of corners of the point set, and each of
    its edges leaves no point on its right. *)
Lemma andrew_is_hull (pts : list QPointF) :
  non_collinear pts ->
  is_hull pts (Exact.andrew pts)
  /\ forall a b, adj a b (close (Exact.andrew pts)) -> supports pts a b.
Proof.
  intro Hnc.
  destruct (andrew_shape pts Hnc)
    as (m & M & tL & tU & EL & EU & HtL & HtU & HlL & HlU & Hext).
  pose proof (andrew_lower_chain pts Hnc) as CL.
  pose proof (andrew_upper_chain pts Hnc) as CU.
  unfold Exact.andrew. cbv zeta.
  rewrite EL, EU in *. cbn [tl].
  set (H := rev tL ++ rev tU).
  assert (HinL : incl (M :: tL) H).
  { intros x [<-|Hx].
    - apply in_or_app. right. apply -> in_rev. rewrite <- HlU.
      now apply last_tail.
    - apply in_or_app. left. now apply -> in_rev. }
  assert (HinU : incl (m :: tU) H).
  { intros x [<-|Hx].
    - apply in_or_app. left. apply -> in_rev. rewrite <- HlL.
      now apply last_tail.
    - apply in_or_app. right. now apply -> in_rev. }
  split; [split; [|split]|].
  - destruct tL as [|x tL']; [congruence|]. unfold H. cbn [rev].
    intro E. apply app_eq_nil in E. destruct E as [E _].
    apply app_eq_nil in E. destruct E as [_ E]. discriminate.
  - intros x Hx. apply in_app_or in Hx.
    destruct Hx as [Hx|Hx]; apply in_rev in Hx.
    + apply (ch_incl _ _ CL). now right.
    + apply (ch_incl _ _ CU). now right.
  - intros v Hv. apply in_app_or in Hv.
    destruct Hv as [Hv|Hv]; apply in_rev in Hv.
    + destruct (tail_position (M :: tL) v Hv)
        as [(l1 & u & z & l2 & E)|(l1 & u & E)].
      * exact (interior_corner pts _ H l1 l2 u v z CL E HinL).
      * assert (Hvm : v = m) by (rewrite <- HlL, E; symmetry; apply last_app_two).
        subst v.
        destruct tU as [|z r]; [congruence|].
        apply (junction_corner pts (M :: tL) (m :: z :: r) H l1 r u m z);
          auto.
        apply lex_min_along.
        -- apply Hext. apply (ch_incl _ _ CU). cbn; auto.
        -- apply Hext. apply (ch_incl _ _ CL). rewrite E.
           apply in_or_app. right. cbn; auto.
    + destruct (tail_position (m :: tU) v Hv)
        as [(l1 & u & z & l2 & E)|(l1 & u & E)].
      * exact (interior_corner pts _ H l1 l2 u v z CU E HinU).
      * assert (HvM : v = M) by (rewrite <- HlU, E; symmetry; apply last_app_two).
        subst v.
        destruct tL as [|z r]; [congruence|].
        apply (junction_corner pts (m :: tU) (M :: z :: r) H l1 r u M z);
          auto.
        apply lex_max_along.
        -- apply Hext. apply (ch_incl _ _ CL). cbn; auto.
        -- apply Hext. apply (ch_incl _ _ CU). rewrite E.
           apply in_or_app. right. cbn; auto.
  - intros a b Hab.
    assert (Hclose : close H = rev tL ++ M :: tl (rev (m :: tU))).
    { assert (Hhd : exists H', H = m :: H').
      { destruct (exists_last HtL) as (t' & y & Et).
        assert (y = m).
        { rewrite <- HlL, Et. change (M :: t' ++ [y]) with ((M :: t') ++ [y]).
          now rewrite last_last. }
        subst y. unfold H. rewrite Et, rev_app_distr. cbn. eauto. }
      destruct Hhd as (H' & EH). unfold close. rewrite EH, <- EH.
      unfold H. rewrite <- app_assoc. f_equal.
      change (rev tU ++ [m]) with (rev (m :: tU)).
      destruct (exists_last HtU) as (t' & y & Et).
      assert (y = M).
      { rewrite <- HlU, Et. change (m :: t' ++ [y]) with ((m :: t') ++ [y]).
        now rewrite last_last. }
      subst y. rewrite Et. cbn [rev]. rewrite rev_app_distr. reflexivity. }
    rewrite Hclose in Hab. apply adj_shared in Hab.
    destruct Hab as [Hab|Hab].
    + change (rev tL ++ [M]) with (rev (M :: tL)) in Hab. apply adj_rev in Hab.
      exact (pairs_ok_adj _ _ b a (ch_supports _ _ CL) Hab).
    + assert (E : M :: tl (rev (m :: tU)) = rev (m :: tU)).
      { destruct (exists_last HtU) as (t' & y & Et).
        assert (y = M).
        { rewrite <- HlU, Et. change (m :: t' ++ [y]) with ((m :: t') ++ [y]).
          now rewrite last_last. }
        subst y. rewrite Et. cbn [rev]. rewrite rev_app_distr. reflexivity. }
      rewrite E in Hab. apply adj_rev in Hab.
      exact (pairs_ok_adj _ _ b a (ch_supports _ _ CU) Hab).
Qed.

(** ** The pivot of the angular sweep *)

Lemma above_refl (a : QPointF) : above a a.
Proof. unfold above, upper_half. right. split; [ring|lra]. Qed.

Lemma above_trans (a b c : QPointF) : above a b -> above b c -> above a c.
Proof.
  unfold above, upper_half.
  intros [H1|[H1 H1']] [H2|[H2 H2']]; [left|left|left|right; split]; lra.
Qed.

Lemma lower_than_above (a b : QPointF) : Hull.lower_than a b = true -> above a b.
Proof.
  unfold Hull.lower_than, above, upper_half.
  rewrite orb_true_iff, andb_true_iff, !Qltb_lt, Qeq_bool_iff.
  intros [H|[H1 H2]]; [left|right; split]; lra.
Qed.

Lemma not_lower_than_above (a b : QPointF) :
  Hull.lower_than a b = false -> above b a.
Proof.
  unfold Hull.lower_than, above, upper_half.
  rewrite orb_false_iff, andb_false_iff. intros [H1 H2].
  apply Qltb_ge in H1.
  destruct (Q_dec (py b) (py a)) as [[h|h]|h]; [left; lra|lra|].
  right. split; [lra|].
  destruct H2 as [H2|H2].
  - rewrite <- not_true_iff_false, Qeq_bool_iff in H2. exfalso. apply H2.
    symmetry. exact h.
  - apply Qltb_ge in H2. lra.
Qed.

Lemma minY_fold (pts : list QPointF) (l : list nat) :
  forall m,
    let r := fold_left
               (fun m i => if Hull.lower_than (at_ pts i) (at_ pts m) then i else m)
               l m in
    (r = m \/ In r l)
    /\ above (at_ pts r) (at_ pts m)
    /\ forall i, In i l -> above (at_ pts r) (at_ pts i).
Proof.
  induction l as [|i l IH]; intro m; cbn [fold_left].
  - repeat split; [now left|apply above_refl|intros i []].
  - destruct (Hull.lower_than (at_ pts i) (at_ pts m)) eqn:E.
    + destruct (IH i) as (Hr & Hm & Hall).
      apply lower_than_above in E.
      repeat split.
      * right. destruct Hr as [->|Hr]; [now left|now right].
      * exact (above_trans _ _ _ Hm E).
      * intros j [<-|Hj]; [exact Hm|apply Hall, Hj].
    + destruct (IH m) as (Hr & Hm & Hall).
      apply not_lower_than_above in E.
      repeat split.
      * destruct Hr as [->|Hr]; [now left|right; now right].
      * exact Hm.
      * intros j [<-|Hj]; [exact (above_trans _ _ _ Hm E)|apply Hall, Hj].
Qed.

Lemma minY_idx_spec (pts : list QPointF) :
  pts <> [] ->
  (Hull.minY_idx pts < length pts)%nat
  /\ forall q, In q pts -> above (at_ pts (Hull.minY_idx pts)) q.
Proof.
  intro Hne. unfold Hull.minY_idx.
  destruct (minY_fold pts (seq 1 (length pts - 1)) 0%nat) as (Hr & H0 & Hall).
  assert (Hlen : (0 < length pts)%nat) by (destruct pts; [congruence|cbn; lia]).
  split.
  - destruct Hr as [->|Hr]; [exact Hlen|]. apply in_seq in Hr. lia.
  - intros q Hq. destruct (In_nth _ _ origin Hq) as (j & Hj & <-).
    destruct j as [|j]; [exact H0|].
    apply Hall. apply in_seq. lia.
Qed.

Lemma set_at_middle (l1 l2 : list QPointF) (y v : QPointF) :
  Hull.set_at (length l1) v (l1 ++ y :: l2) = l1 ++ v :: l2.
Proof. induction l1 as [|x l1 IH]; cbn; [reflexivity|now rewrite IH]. Qed.

Lemma swap0_perm (k : nat) (l : list QPointF) :
  (k < length l)%nat ->
  exists rest, Hull.swap0 k l = at_ l k :: rest
               /\ Permutation (at_ l k :: rest) l.
Proof.
  intro Hk. destruct l as [|x l]; [cbn in Hk; lia|].
  destruct k as [|k].
  - exists l. split; reflexivity.
  - cbn in Hk. assert (Hk' : (k < length l)%nat) by lia.
    destruct (nth_split l origin Hk') as (l1 & l2 & E & El).
    exists (l1 ++ x :: l2). unfold Hull.swap0, at_. cbn [nth Hull.set_at].
    set (y := nth k l origin) in *.
    split.
    + f_equal. rewrite E at 1. rewrite <- El. apply set_at_middle.
    + rewrite E at 1.
      transitivity (y :: x :: l1 ++ l2).
      * constructor. symmetry. apply Permutation_middle.
      * transitivity (x :: y :: l1 ++ l2); [apply perm_swap|].
        constructor. apply Permutation_middle.
Qed.

(** [tempPoints] after the swap and the sort: the pivot first, then the other
    points by polar angle around it. *)
Lemma graham_order_shape (pts : list QPointF) :
  pts <> [] ->
  exists p0 rest0,
    Exact.graham_order pts = p0 :: Hull.sort (Exact.polar_lt p0) rest0
    /\ Permutation (p0 :: rest0) pts
    /\ forall q, In q pts -> above p0 q.
Proof.
  intro Hne. destruct (minY_idx_spec pts Hne) as [Hk Habove].
  destruct (swap0_perm _ pts Hk) as (rest & E & HP).
  exists (at_ pts (Hull.minY_idx pts)), rest.
  unfold Exact.graham_order. cbv zeta. rewrite E. auto.
Qed.

Lemma polar_le_pivot (p0 q : QPointF) : polar_le p0 p0 q.
Proof.
  unfold polar_le, vpolar_le, vcross, vnorm. right. split; [ring|].
  pose proof (sq_nonneg (px q - px p0)). pose proof (sq_nonneg (py q - py p0)).
  setoid_replace ((px p0 - px p0) * (px p0 - px p0)
                  + (py p0 - py p0) * (py p0 - py p0)) with 0 by ring.
  lra.
Qed.

(** Only the pivot comes before the pivot. *)
Lemma polar_le_to_pivot (p0 q b : QPointF) :
  polar_le p0 q b -> same_point p0 b -> same_point p0 q.
Proof.
  unfold polar_le, vpolar_le, vcross, vnorm, same_point. intros H [Hx Hy].
  assert (Ex : px b - px p0 == 0) by lra.
  assert (Ey : py b - py p0 == 0) by lra.
  rewrite Ex, Ey in H.
  destruct H as [H|[_ H]]; [exfalso; lra|].
  assert (H' : (px q - px p0) * (px q - px p0) + (py q - py p0) * (py q - py p0) <= 0) by lra.
  destruct (sum_sq_zero _ _ H'). lra.
Qed.

Lemma polar_le_same (p0 q a b : QPointF) :
  polar_le p0 q b -> same_point a b -> polar_le p0 q a.
Proof.
  unfold polar_le, vpolar_le, vcross, vnorm, same_point. intros H [Hx Hy].
  rewrite Hx, Hy. exact H.
Qed.

(** ** The angular sweep *)

Lemma non_collinear_three (pts : list QPointF) :
  non_collinear pts -> (3 <= length pts)%nat.
Proof.
  intros (a & b & c & Ha & Hb & Hc & Hn).
  destruct pts as [|x [|y [|w r]]]; cbn [length]; try lia; exfalso; apply Hn.
  - destruct Ha.
  - destruct Ha as [<-|[]], Hb as [<-|[]], Hc as [<-|[]].
    unfold Exact.crossProduct. ring.
  - destruct Ha as [<-|[<-|[]]], Hb as [<-|[<-|[]]], Hc as [<-|[<-|[]]];
      unfold Exact.crossProduct; ring.
Qed.

(** At the pivot, between the last and the first edge of the sweep. *)
Lemma pivot_along (p0 z u : QPointF) :
  above p0 z -> above p0 u -> Exact.crossProduct z p0 u == 0 ->
  along z p0 u <= along z p0 p0.
Proof.
  intros Hz Hu E.
  pose proof (cone_dot (py z - py p0) (px z - px p0) (py u - py p0) (px u - px p0)) as K.
  unfold above, upper_half in Hz, Hu. unfold Exact.crossProduct in E. unfold along.
  assert (K' : 0 <= (py z - py p0) * (py u - py p0) + (px z - px p0) * (px u - px p0)).
  { apply K; [exact Hz|exact Hu|lra]. }
  lra.
Qed.

(** At the last point of the sweep. *)
Lemma top_along (p0 z c : QPointF) :
  above p0 z -> above p0 c -> polar_le p0 z c ->
  Exact.crossProduct z c p0 == 0 ->
  along z c p0 <= along z c c.
Proof.
  intros Hz Hc Hle E.
  pose proof (cone_dot (py z - py p0) (px z - px p0) (py c - py p0) (px c - px p0)) as K.
  unfold above, upper_half in Hz, Hc.
  unfold polar_le, vpolar_le, vcross, vnorm in Hle.
  unfold Exact.crossProduct in E. unfold along.
  set (ax := px z - px p0) in *. set (ay := py z - py p0) in *.
  set (bx := px c - px p0) in *. set (by_ := py c - py p0) in *.
  assert (Ecross : ax * by_ - ay * bx == 0) by (unfold ax, ay, bx, by_; lra).
  assert (Hs : 0 <= ay * by_ + ax * bx) by (apply K; [exact Hz|exact Hc|lra]).
  assert (Hmn : ax * ax + ay * ay <= bx * bx + by_ * by_).
  { destruct Hle as [H|[_ H]]; [lra|exact H]. }
  set (s := ay * by_ + ax * bx) in *.
  set (n := bx * bx + by_ * by_) in *.
  set (m := ax * ax + ay * ay) in *.
  assert (Hn : 0 <= n).
  { unfold n. pose proof (sq_nonneg bx). pose proof (sq_nonneg by_). lra. }
  assert (Hlag : s * s == m * n).
  { unfold s, m, n.
    setoid_replace ((ay * by_ + ax * bx) * (ay * by_ + ax * bx))
      with ((ax * ax + ay * ay) * (bx * bx + by_ * by_)
            - (ax * by_ - ay * bx) * (ax * by_ - ay * bx)) by ring.
    rewrite Ecross. ring. }
  assert (Hsn : s <= n).
  { destruct (Qlt_le_dec n s) as [h|h]; [|exact h]. exfalso.
    assert (H1 : m * n <= n * n).
    { setoid_replace (m * n) with (n * m) by ring.
      assert (0 <= n * (n - m)) by (apply Qmult_le_0_compat; lra).
      setoid_replace (n * n) with (n * m + n * (n - m)) by ring. lra. }
    assert (H2 : n * n < s * s).
    { assert (0 < (s - n) * (s + n)).
      { apply Qmult_lt_0_compat; lra. }
      setoid_replace (s * s) with (n * n + (s - n) * (s + n)) by ring. lra. }
    lra. }
  assert (Egoal : (px c - px z) * (px c - px z) + (py c - py z) * (py c - py z)
                  - ((px c - px z) * (px p0 - px z) + (py c - py z) * (py p0 - py z))
                  == n - s).
  { unfold n, s, ax, ay, bx, by_. ring. }
  lra.
Qed.

Lemma polar_sorted (p0 : QPointF) (l : list QPointF) :
  integral_point p0 -> Forall integral_point l -> Forall (above p0) l ->
  StronglySorted (polar_le p0) (Hull.sort (Exact.polar_lt p0) l).
Proof.
  intros H0 Hi Ha.
  apply (sort_sorted (fun q => integral_point q /\ above p0 q)).
  - intros a b c [_ A] [_ B] [_ C]. now apply polar_le_trans.
  - intros a b [A _] [B _]. now apply polar_lt_le.
  - intros a b [A _] [B _]. now apply polar_nlt_le.
  - rewrite Forall_forall in *. auto.
Qed.

(** The scan of [graham] over [tempPoints]. *)
Lemma graham_scan (pts : list QPointF) :
  Forall integral_point pts -> pts <> [] ->
  exists p0 rest,
    Exact.graham_order pts = p0 :: rest
    /\ Permutation (p0 :: rest) pts
    /\ (forall q, In q pts -> above p0 q)
    /\ Inv (above p0) (polar_le p0) (p0 :: rest) (Exact.build_chain (p0 :: rest)).
Proof.
  intros Hint Hne.
  destruct (graham_order_shape pts Hne) as (p0 & rest0 & E & HP & Habove).
  exists p0, (Hull.sort (Exact.polar_lt p0) rest0).
  assert (HP' : Permutation (p0 :: Hull.sort (Exact.polar_lt p0) rest0) pts).
  { rewrite <- HP. constructor. apply sort_perm. }
  split; [exact E|]. split; [exact HP'|]. split; [exact Habove|].
  rewrite Forall_forall in Hint.
  assert (Hin0 : forall q, In q (p0 :: rest0) -> In q pts)
    by (intros q Hq; exact (Permutation_in _ HP Hq)).
  apply build_chain_inv.
  - intros a b _ _. apply polar_le_total.
  - apply polar_le_antisym.
  - apply polar_pop_far.
  - apply polar_pop_near.
  - apply sorted_scan.
    + apply Forall_forall. intros q Hq. apply Habove.
      exact (Permutation_in _ HP' Hq).
    + constructor.
      * apply polar_sorted.
        -- apply Hint, Hin0. now left.
        -- apply Forall_forall. intros q Hq. apply Hint, Hin0. now right.
        -- apply Forall_forall. intros q Hq. apply Habove, Hin0. now right.
      * apply Forall_forall. intros q _. apply polar_le_pivot.
Qed.

Lemma graham_chain (pts : list QPointF) (p0 : QPointF) (rest : list QPointF) :
  non_collinear pts -> Permutation (p0 :: rest) pts ->
  Inv (above p0) (polar_le p0) (p0 :: rest) (Exact.build_chain (p0 :: rest)) ->
  Chain pts (Exact.build_chain (p0 :: rest)).
Proof.
  intros Hnc HP HI.
  apply (Inv_Chain (above p0) (polar_le p0)) with (S := p0 :: rest); auto.
  - apply polar_le_trans.
  - intros a b _ _. apply polar_le_total.
  - apply polar_le_antisym.
  - apply polar_turn_up.
  - apply polar_turn_down.
  - apply polar_le_same.
  - intros q Hq. exact (Permutation_in _ (Permutation_sym HP) Hq).
  - intros q Hq. exact (Permutation_in _ HP Hq).
  - apply build_chain_length.
    rewrite (Permutation_length HP). now apply non_collinear_two.
Qed.

(** With three points or more, [graham] returns the chain of the scan. *)
Lemma graham_build_chain (pts : list QPointF) :
  (3 <= length (Exact.graham_order pts))%nat ->
  Exact.graham pts = rev (Exact.build_chain (Exact.graham_order pts)).
Proof.
  intro Hlen. unfold Exact.graham. cbv zeta.
  destruct (Nat.ltb_spec (length (Exact.graham_order pts)) 3) as [h|h]; [lia|].
  destruct (Exact.graham_order pts) as [|t0 [|t1 rest]]; try (cbn in Hlen; lia).
  reflexivity.
Qed.

Lemma polar_top_cross (p0 q c : QPointF) :
  polar_le p0 q c -> 0 <= Exact.crossProduct c p0 q.
Proof.
  unfold polar_le, vpolar_le, vcross, Exact.crossProduct.
  intros [H|[H _]]; lra.
Qed.

(** The hull of [graham] is a list of corners of the point set, and each of
    its edges leaves no point on its right. *)
Lemma graham_is_hull (pts : list QPointF) :
  Forall integral_point pts -> non_collinear pts ->
  is_hull pts (Exact.graham pts)
  /\ forall a b, adj a b (close (Exact.graham pts)) -> supports pts a b.
Proof.
  intros Hint Hnc.
  pose proof (non_collinear_three pts Hnc) as Hlen.
  assert (Hne : pts <> []) by (destruct pts; [cbn in Hlen; lia|discriminate]).
  destruct (graham_scan pts Hint Hne) as (p0 & rest & ET & HP & Habove & HI).
  pose proof (graham_chain pts p0 rest Hnc HP HI) as CC.
  rewrite graham_build_chain by (rewrite ET, (Permutation_length HP); exact Hlen).
  rewrite ET.
  assert (HinT : forall q, In q pts -> In q (p0 :: rest))
    by (intros q Hq; exact (Permutation_in _ (Permutation_sym HP) Hq)).
  destruct (inv_ends _ _ _ _ HI) as [Ehd Elast].
  pose proof (inv_top _ _ _ _ HI) as Htop.
  set (C := Exact.build_chain (p0 :: rest)) in *.
  pose proof (ch_len _ _ CC) as LC.
  destruct C as [|c tC] eqn:EC; [cbn in LC; lia|].
  assert (HtC : tC <> []) by now apply (tail_nonempty c).
  assert (Hc : forall q, In q pts -> polar_le p0 q c).
  { intros q Hq. apply (Htop q c); [apply HinT, Hq|reflexivity]. }
  assert (Hclosing : supports pts c p0).
  { intros q Hq. apply polar_top_cross, Hc, Hq. }
  (* the element next to the pivot *)
  destruct (exists_last HtC) as (t' & y & Et).
  assert (Hy : y = p0).
  { rewrite <- Elast, Et. change (c :: t' ++ [y]) with ((c :: t') ++ [y]).
    now rewrite last_last. }
  subst y.
  destruct (exists_last (l := c :: t') ltac:(discriminate)) as (k1 & u1 & Ek).
  assert (EC1 : c :: tC = k1 ++ [u1; p0]).
  { rewrite Et. change (c :: t' ++ [p0]) with ((c :: t') ++ [p0]).
    rewrite Ek, <- app_assoc. reflexivity. }
  assert (Hu1 : In u1 pts).
  { apply (ch_incl _ _ CC). rewrite EC1. apply in_or_app. right. cbn; auto. }
  assert (Hp0u1 : ~ same_point p0 u1).
  { apply (pairs_ok_adj _ _ u1 p0 (ch_distinct _ _ CC)).
    exists k1, []. exact EC1. }
  assert (Hcp0 : ~ same_point c p0).
  { intros [Hx Hy]. apply Hp0u1.
    apply (polar_le_to_pivot p0 u1 c (Hc u1 Hu1)). split; lra. }
  assert (Hp0pts : In p0 pts) by (apply (Permutation_in _ HP); now left).
  assert (Hp0C : In p0 (c :: tC)).
  { rewrite EC1. apply in_or_app. right. cbn; auto. }
  (* three points or more in the chain *)
  assert (H3 : exists z r, tC = z :: r /\ r <> []).
  { destruct tC as [|z r]; [congruence|]. exists z, r. split; [reflexivity|].
    intros ->. 
    assert (z = p0) by (rewrite <- Elast; reflexivity). subst z.
    apply (supports_line_collinear pts p0 c); [|  |exact Hnc].
    - intros [Hx Hy]. apply Hcp0. split; lra.
    - intros q Hq.
      pose proof (proj1 (ch_supports _ _ CC) q Hq) as S1. cbn beta in S1.
      pose proof (polar_top_cross p0 q c (Hc q Hq)) as S2.
      unfold Exact.crossProduct in *. lra. }
  destruct H3 as (z & r & EtC & Hr).
  set (H := rev (c :: tC)).
  assert (HinC : incl (c :: tC) H).
  { intros x Hx. unfold H. now apply -> in_rev. }
  split; [split; [|split]|].
  - unfold H. cbn [rev]. intro E. apply app_eq_nil in E.
    destruct E as [_ E]. discriminate.
  - intros x Hx. apply in_rev in Hx. apply (ch_incl _ _ CC), Hx.
  - intros v Hv. apply in_rev in Hv. destruct Hv as [<-|Hv].
    + (* the last point of the sweep *)
      exists z, p0.
      assert (Hzc : supports pts z c).
      { apply (pairs_ok_adj _ _ c z (ch_supports _ _ CC)).
        exists [], r. now rewrite EtC. }
      assert (Hz : In z (c :: tC)) by (rewrite EtC; cbn; auto).
      repeat split; auto.
      apply (junction pts); auto.
      * apply (pairs_ok_adj _ _ c z (ch_distinct _ _ CC)).
        exists [], r. now rewrite EtC.
      * apply (top_along p0).
        -- apply Habove. apply (ch_incl _ _ CC), Hz.
        -- apply Habove. apply (ch_incl _ _ CC). now left.
        -- apply Hc. apply (ch_incl _ _ CC), Hz.
    + destruct (tail_position (c :: tC) v Hv)
        as [(l1 & u & w & l2 & E)|(l1 & u & E)].
      * exact (interior_corner pts _ H l1 l2 u v w CC E HinC).
      * assert (Hvp : v = p0) by (rewrite <- Elast, E; symmetry; apply last_app_two).
        subst v.
        assert (Hu : In u (c :: tC)).
        { rewrite E. apply in_or_app. right. cbn; auto. }
        exists c, u. repeat split; auto.
        -- apply HinC. now left.
        -- apply (pairs_ok_adj _ _ u p0 (ch_supports _ _ CC)).
           exists l1, []. exact E.
        -- apply (junction pts); auto.
           ++ apply (ch_incl _ _ CC), Hu.
           ++ apply (pairs_ok_adj _ _ u p0 (ch_supports _ _ CC)).
              exists l1, []. exact E.
           ++ apply (pairs_ok_adj _ _ u p0 (ch_distinct _ _ CC)).
              exists l1, []. exact E.
           ++ apply pivot_along.
              ** apply Habove. apply (ch_incl _ _ CC). now left.
              ** apply Habove. apply (ch_incl _ _ CC), Hu.
  - intros a b Hab.
    assert (Hclose : close H = rev tC ++ c :: [p0]).
    { assert (Hhd : exists H', H = p0 :: H').
      { unfold H. rewrite Et. cbn [rev]. rewrite rev_app_distr. cbn. eauto. }
      destruct Hhd as (H' & EH). unfold close. rewrite EH, <- EH.
      unfold H. cbn [rev]. rewrite <- app_assoc. reflexivity. }
    rewrite Hclose in Hab. apply adj_shared in Hab.
    destruct Hab as [Hab|Hab].
    + change (rev tC ++ [c]) with (rev (c :: tC)) in Hab. apply adj_rev in Hab.
      exact (pairs_ok_adj _ _ b a (ch_supports _ _ CC) Hab).
    + destruct Hab as (l1 & l2 & E).
      destruct l1 as [|x1 l1].
      * injection E as <- <- _. exact Hclosing.
      * exfalso. apply (f_equal (@length _)) in E. cbn in E.
        rewrite length_app in E. cbn in E. lia.
Qed.

(** ** Weiler-Atherton without intersections *)

Lemma initial_lists_nodes (polyA polyB : list QPointF) :
  Weiler.initial_lists polyA polyB
  = Weiler.mkLists (nodes_from 0 polyA) (nodes_from (length polyA) polyB).
Proof. reflexivity. Qed.

Lemma nodes_from_cons (s : nat) (p : QPointF) (poly : list QPointF) :
  nodes_from s (p :: poly) = Weiler.vertex_node s p :: nodes_from (S s) poly.
Proof. reflexivity. Qed.

Lemma nodes_from_length (s : nat) (poly : list QPointF) :
  length (nodes_from s poly) = length poly.
Proof.
  unfold nodes_from. rewrite length_map, length_combine, length_seq.
  apply Nat.min_id.
Qed.

Lemma begin_nodes (s : nat) (poly : list QPointF) :
  Weiler.begin_it (nodes_from s poly)
  = if (0 <? length poly)%nat then Some s else None.
Proof. destruct poly; reflexivity. Qed.

Lemma deref_nodes (s i : nat) (poly : list QPointF) :
  (i < length poly)%nat ->
  Weiler.deref (nodes_from s poly) (Some (s + i)%nat)
  = Weiler.vertex_node (s + i) (at_ poly i).
Proof.
  revert s i. induction poly as [|p poly IH]; intros s i Hi; [cbn in Hi; lia|].
  rewrite nodes_from_cons. unfold Weiler.deref. cbn [find nid Weiler.vertex_node].
  destruct i as [|i].
  - rewrite Nat.add_0_r, Nat.eqb_refl. reflexivity.
  - destruct (s =? s + S i)%nat eqn:E; [apply Nat.eqb_eq in E; lia|].
    cbn in Hi. specialize (IH (S s) i ltac:(lia)).
    unfold Weiler.deref in IH.
    replace (s + S i)%nat with (S s + i)%nat by lia. rewrite IH. reflexivity.
Qed.

Lemma next_nodes (s i : nat) (poly : list QPointF) :
  (i < length poly)%nat ->
  Weiler.next_it (nodes_from s poly) (s + i)
  = if (S i <? length poly)%nat then Some (s + S i)%nat else None.
Proof.
  revert s i. induction poly as [|p poly IH]; intros s i Hi; [cbn in Hi; lia|].
  rewrite nodes_from_cons. cbn [Weiler.next_it nid Weiler.vertex_node].
  destruct i as [|i].
  - rewrite Nat.add_0_r, Nat.eqb_refl, begin_nodes. cbn [length].
    replace (s + 1)%nat with (S s) by lia.
    destruct poly; reflexivity.
  - destruct (s =? s + S i)%nat eqn:E; [apply Nat.eqb_eq in E; lia|].
    cbn in Hi. specialize (IH (S s) i ltac:(lia)).
    replace (s + S i)%nat with (S s + i)%nat by lia. rewrite IH.
    cbn [length].
    replace (S s + S i)%nat with (s + S (S i))%nat by lia.
    reflexivity.
Qed.

Lemma cyclic_next_nodes (s i : nat) (poly : list QPointF) :
  (i < length poly)%nat ->
  Weiler.cyclic_next (nodes_from s poly) (s + i)
  = Some (s + (i + 1) mod length poly)%nat.
Proof.
  intro Hi. unfold Weiler.cyclic_next. rewrite next_nodes by exact Hi.
  destruct (S i <? length poly)%nat eqn:E.
  - apply Nat.ltb_lt in E. rewrite Nat.mod_small by lia.
    f_equal. lia.
  - apply Nat.ltb_ge in E. rewrite begin_nodes.
    replace (i + 1)%nat with (length poly) by lia.
    rewrite Nat.Div0.mod_same.
    destruct (0 <? length poly)%nat eqn:E0;
      [f_equal; lia | apply Nat.ltb_ge in E0; lia].
Qed.

Section NoIntersection.

Variables polyA polyB : list QPointF.
Hypothesis Hnone : no_strict_intersection polyA polyB.

Let L0 := Weiler.initial_lists polyA polyB.
Let n := length polyA.
Let m := length polyB.

Lemma listA_L0 : Weiler.listA L0 = nodes_from 0 polyA.
Proof. reflexivity. Qed.

Lemma listB_L0 : Weiler.listB L0 = nodes_from n polyB.
Proof. reflexivity. Qed.

Lemma intersect_step_noop (i j : nat) :
  (i < n)%nat -> (j < m)%nat ->
  Weiler.intersect_step (Some i) (Some ((i + 1) mod n)%nat) (n + j) L0 = L0.
Proof.
  intros Hi Hj. unfold Weiler.intersect_step.
  rewrite listA_L0, listB_L0.
  rewrite cyclic_next_nodes by exact Hj.
  assert (Hmi : ((i + 1) mod n < n)%nat) by (apply Nat.mod_upper_bound; lia).
  assert (Hmj : ((j + 1) mod m < m)%nat) by (apply Nat.mod_upper_bound; lia).
  pose proof (deref_nodes 0 i polyA Hi) as D1.
  pose proof (deref_nodes 0 ((i + 1) mod n) polyA Hmi) as D2.
  cbn [Nat.add] in D1, D2. rewrite D1, D2.
  rewrite (deref_nodes n j polyB Hj).
  fold m. rewrite (deref_nodes n ((j + 1) mod m) polyB Hmj).
  cbn [point Weiler.vertex_node].
  unfold n, m. rewrite (Hnone i j Hi Hj). reflexivity.
Qed.

Lemma loopB_noop (i : nat) (Hi : (i < n)%nat) :
  forall k j fuel, (j + k = m)%nat -> (k <= fuel)%nat ->
    Weiler.loopB fuel (Some i) (Some ((i + 1) mod n)%nat)
                 (if (j <? m)%nat then Some (n + j)%nat else None) L0
    = Done L0.
Proof.
  induction k as [|k IH]; intros j fuel Hjk Hfuel.
  - replace (j <? m)%nat with false by (symmetry; apply Nat.ltb_ge; lia).
    destruct fuel; reflexivity.
  - assert (Hj : (j < m)%nat) by lia.
    replace (j <? m)%nat with true by (symmetry; apply Nat.ltb_lt; lia).
    destruct fuel as [|fuel]; [lia|]. cbn [Weiler.loopB].
    rewrite intersect_step_noop by assumption.
    rewrite listB_L0, next_nodes by exact Hj. fold m.
    apply (IH (S j) fuel); lia.
Qed.

Lemma loopA_noop :
  forall k i fuel, (i + k = n)%nat -> (k + m <= fuel)%nat ->
    Weiler.loopA fuel (if (i <? n)%nat then Some i else None) L0 = Done L0.
Proof.
  induction k as [|k IH]; intros i fuel Hik Hfuel.
  - replace (i <? n)%nat with false by (symmetry; apply Nat.ltb_ge; lia).
    destruct fuel; reflexivity.
  - assert (Hi : (i < n)%nat) by lia.
    replace (i <? n)%nat with true by (symmetry; apply Nat.ltb_lt; lia).
    destruct fuel as [|fuel]; [lia|]. cbn [Weiler.loopA].
    rewrite listA_L0, listB_L0.
    pose proof (cyclic_next_nodes 0 i polyA Hi) as C1.
    cbn [Nat.add] in C1. rewrite C1. fold n.
    rewrite begin_nodes. fold m.
    pose proof (loopB_noop i Hi m 0%nat fuel ltac:(lia) ltac:(lia)) as HB.
    rewrite Nat.add_0_r in HB. rewrite HB.
    rewrite listA_L0.
    pose proof (next_nodes 0 i polyA Hi) as N1.
    cbn [Nat.add] in N1. rewrite N1. fold n.
    apply (IH (S i) fuel); lia.
Qed.

Lemma deref_no_intersection (l : list VertexNode) (it : Weiler.Iter) :
  (forall x, In x l -> is_intersection x = false) ->
  is_intersection (Weiler.deref l it) = false.
Proof.
  intro H. unfold Weiler.deref. destruct it as [id|]; [|reflexivity].
  destruct (find _ l) as [x|] eqn:E; [|reflexivity].
  apply find_some in E. now apply H.
Qed.

Lemma nodes_from_plain (s : nat) (poly : list QPointF) (x : VertexNode) :
  In x (nodes_from s poly) -> is_intersection x = false.
Proof.
  unfold nodes_from. rewrite in_map_iff. intros (ip & <- & _). reflexivity.
Qed.

Lemma contours_none (opType : BooleanOpType) :
  Weiler.contours opType L0 = [].
Proof.
  unfold Weiler.contours.
  assert (H : forall ids st, fst st = L0 ->
            fold_left (Weiler.contour_step opType) ids st = st).
  { induction ids as [|id ids IH]; intros st Hst; [reflexivity|].
    cbn [fold_left].
    assert (Hstep : Weiler.contour_step opType st id = st).
    { unfold Weiler.contour_step. rewrite Hst.
      rewrite deref_no_intersection; [reflexivity|].
      rewrite listA_L0. apply nodes_from_plain. }
    rewrite Hstep. now apply IH. }
  rewrite H; reflexivity.
Qed.

End NoIntersection.

Lemma normalize_cases (poly : list QPointF) :
  Weiler.normalize poly = poly \/ Weiler.normalize poly = rev poly.
Proof. unfold Weiler.normalize. destruct (Qltb _ _); auto. Qed.

Lemma normalize_length (poly : list QPointF) :
  length (Weiler.normalize poly) = length poly.
Proof.
  destruct (normalize_cases poly) as [-> | ->]; [reflexivity|apply length_rev].
Qed.

(** ** The rounded operations on integers *)

#[export] Instance fadd_Proper : Proper (Qeq ==> Qeq ==> Qeq) fadd.
Proof. intros a a' Ea b b' Eb. unfold fadd. now rewrite Ea, Eb. Qed.

#[export] Instance fsub_Proper : Proper (Qeq ==> Qeq ==> Qeq) fsub.
Proof. intros a a' Ea b b' Eb. unfold fsub. now rewrite Ea, Eb. Qed.

#[export] Instance fmul_Proper : Proper (Qeq ==> Qeq ==> Qeq) fmul.
Proof. intros a a' Ea b b' Eb. unfold fmul. now rewrite Ea, Eb. Qed.

#[export] Instance fdiv_Proper : Proper (Qeq ==> Qeq ==> Qeq) fdiv.
Proof. intros a a' Ea b b' Eb. unfold fdiv. now rewrite Ea, Eb. Qed.

Lemma int_le_weaken (M N : Z) (q : Q) : (M <= N)%Z -> int_le M q -> int_le N q.
Proof. intros H (z & E & Hz). exists z. split; [exact E|lia]. Qed.

Lemma int_le_integral (M : Z) (q : Q) : int_le M q -> integral q.
Proof. intros (z & E & _). now exists z. Qed.

Lemma int_le_inject (M z : Z) : (Z.abs z <= M)%Z -> int_le M (inject_Z z).
Proof. intro H. exists z. split; [reflexivity|exact H]. Qed.

Lemma int_le_double (M : Z) (q : Q) :
  int_le M q -> (M <= 2 ^ 53)%Z -> double q == q.
Proof. intros (z & E & Hz) HM. apply (double_Z q z E). lia. Qed.

Lemma int_le_plus (A B : Z) (a b : Q) :
  int_le A a -> int_le B b -> int_le (A + B) (a + b).
Proof.
  intros (x & Ex & Hx) (y & Ey & Hy). exists (x + y)%Z. split.
  - rewrite Ex, Ey, inject_Z_plus. reflexivity.
  - lia.
Qed.

Lemma int_le_minus (A B : Z) (a b : Q) :
  int_le A a -> int_le B b -> int_le (A + B) (a - b).
Proof.
  intros (x & Ex & Hx) (y & Ey & Hy). exists (x - y)%Z. split.
  - rewrite Ex, Ey. unfold Z.sub. rewrite inject_Z_plus, inject_Z_opp. reflexivity.
  - lia.
Qed.

Lemma int_le_mult (A B : Z) (a b : Q) :
  int_le A a -> int_le B b -> int_le (A * B) (a * b).
Proof.
  intros (x & Ex & Hx) (y & Ey & Hy). exists (x * y)%Z. split.
  - rewrite Ex, Ey, inject_Z_mult. reflexivity.
  - rewrite Z.abs_mul. apply Z.mul_le_mono_nonneg; lia.
Qed.

Lemma int_le_opp (A : Z) (a : Q) : int_le A a -> int_le A (- a).
Proof.
  intros (x & Ex & Hx). exists (- x)%Z. split.
  - rewrite Ex, inject_Z_opp. reflexivity.
  - lia.
Qed.

Lemma int_le_Qabs (A : Z) (a : Q) : int_le A a -> int_le A (Qabs a).
Proof.
  intros (x & Ex & Hx). exists (Z.abs x). split.
  - rewrite Ex. unfold Qabs, inject_Z. reflexivity.
  - lia.
Qed.

Lemma int_le_nonneg (A : Z) (a : Q) : int_le A a -> (0 <= A)%Z.
Proof. intros (x & _ & Hx). lia. Qed.

Lemma fadd_int (A B : Z) (a b : Q) :
  int_le A a -> int_le B b -> (A + B <= 2 ^ 53)%Z -> a +! b == a + b.
Proof.
  intros Ha Hb H. unfold fadd.
  apply (int_le_double (A + B)); [now apply int_le_plus|exact H].
Qed.

Lemma fsub_int (A B : Z) (a b : Q) :
  int_le A a -> int_le B b -> (A + B <= 2 ^ 53)%Z -> a -! b == a - b.
Proof.
  intros Ha Hb H. unfold fsub.
  apply (int_le_double (A + B)); [now apply int_le_minus|exact H].
Qed.

Lemma fmul_int (A B : Z) (a b : Q) :
  int_le A a -> int_le B b -> (A * B <= 2 ^ 53)%Z -> a *! b == a * b.
Proof.
  intros Ha Hb H. unfold fmul.
  apply (int_le_double (A * B)); [now apply int_le_mult|exact H].
Qed.

#[export] Instance int_le_Proper (M : Z) : Proper (Qeq ==> iff) (int_le M).
Proof.
  intros a b E. unfold int_le. split; intros (z & Ez & Hz); exists z;
    (split; [|exact Hz]); [rewrite <- E|rewrite E]; exact Ez.
Qed.

(** The determinant [(a - b) * (c - d) - (e - f) * (g - h)] of integers of
    magnitude at most [M], with [8 * M * M <= 2 ^ 53], is delivered exactly. *)
Lemma det_int (M : Z) (a b c d e f g h : Q) :
  (8 * (M * M) <= 2 ^ 53)%Z ->
  int_le M a -> int_le M b -> int_le M c -> int_le M d ->
  int_le M e -> int_le M f -> int_le M g -> int_le M h ->
  (a -! b) *! (c -! d) -! (e -! f) *! (g -! h)
  == (a - b) * (c - d) - (e - f) * (g - h)
  /\ int_le (8 * (M * M)) ((a - b) * (c - d) - (e - f) * (g - h)).
Proof.
  intros HM Ha Hb Hc Hd He Hf Hg Hh.
  pose proof (int_le_nonneg _ _ Ha) as H0.
  assert (H2 : (M + M <= 2 ^ 53)%Z) by nia.
  assert (H4 : ((M + M) * (M + M) <= 2 ^ 53)%Z) by nia.
  assert (H8 : ((M + M) * (M + M) + (M + M) * (M + M) <= 2 ^ 53)%Z) by nia.
  rewrite (fsub_int M M a b), (fsub_int M M c d), (fsub_int M M e f),
    (fsub_int M M g h) by assumption.
  pose proof (int_le_minus _ _ _ _ Ha Hb) as Iab.
  pose proof (int_le_minus _ _ _ _ Hc Hd) as Icd.
  pose proof (int_le_minus _ _ _ _ He Hf) as Ief.
  pose proof (int_le_minus _ _ _ _ Hg Hh) as Igh.
  rewrite (fmul_int _ _ _ _ Iab Icd H4), (fmul_int _ _ _ _ Ief Igh H4).
  pose proof (int_le_mult _ _ _ _ Iab Icd) as I1.
  pose proof (int_le_mult _ _ _ _ Ief Igh) as I2.
  rewrite (fsub_int _ _ _ _ I1 I2 H8).
  split; [reflexivity|].
  apply (int_le_weaken ((M + M) * (M + M) + (M + M) * (M + M))); [lia|].
  now apply int_le_minus.
Qed.

Lemma pixel_within_int (B : Z) (p : QPointF) :
  pixel_within B p -> int_le B (px p) /\ int_le B (py p).
Proof.
  intros (x & y & -> & Hx & Hy). cbn. split; apply int_le_inject; assumption.
Qed.

Lemma pixel_within_integral (B : Z) (p : QPointF) :
  pixel_within B p -> integral_point p.
Proof.
  intro H. destruct (pixel_within_int B p H) as [Hx Hy].
  split; eapply int_le_integral; eauto.
Qed.

Lemma pixels_integral (B : Z) (pts : list QPointF) :
  pixels B pts -> Forall integral_point pts.
Proof.
  intro H. eapply Forall_impl; [|exact H]. intros p. apply pixel_within_integral.
Qed.

Lemma pixel_within_weaken (B C : Z) (p : QPointF) :
  (B <= C)%Z -> pixel_within B p -> pixel_within C p.
Proof.
  intros H (x & y & E & Hx & Hy). exists x, y. repeat split; [exact E|lia|lia].
Qed.

Lemma pixels_at (B : Z) (pts : list QPointF) (i : nat) :
  pixels B pts -> (i < length pts)%nat -> pixel_within B (at_ pts i).
Proof.
  intros H Hi. unfold pixels in H. rewrite Forall_forall in H. apply H.
  unfold at_. apply nth_In. exact Hi.
Qed.

(** The cross product of three pixel positions is delivered exactly. *)
Lemma crossProduct_pixels (B : Z) (a b c : QPointF) :
  (B <= 2 ^ 25)%Z ->
  pixel_within B a -> pixel_within B b -> pixel_within B c ->
  crossProduct a b c == Exact.crossProduct a b c
  /\ int_le (8 * (B * B)) (Exact.crossProduct a b c).
Proof.
  intros HB Ha Hb Hc.
  destruct (pixel_within_int _ _ Ha) as [Hax Hay].
  destruct (pixel_within_int _ _ Hb) as [Hbx Hby].
  destruct (pixel_within_int _ _ Hc) as [Hcx Hcy].
  pose proof (int_le_nonneg _ _ Hax) as H0.
  unfold crossProduct, Exact.crossProduct.
  apply det_int; try assumption. nia.
Qed.

(** ** The hull scans on pixel positions *)

Lemma Qle_bool_eq (x y z : Q) : x == y -> Qle_bool x z = Qle_bool y z.
Proof.
  intro E. destruct (Qle_bool y z) eqn:H.
  - apply Qle_bool_iff. apply Qle_bool_iff in H. now rewrite E.
  - destruct (Qle_bool x z) eqn:H'; [|reflexivity].
    apply Qle_bool_iff in H'. rewrite E in H'. apply Qle_bool_iff in H'. congruence.
Qed.

Lemma Qltb_eq (x y x' y' : Q) : x == x' -> y == y' -> Qltb x y = Qltb x' y'.
Proof.
  intros Ex Ey. destruct (Qltb x' y') eqn:H.
  - apply Qltb_lt. apply Qltb_lt in H. now rewrite Ex, Ey.
  - apply Qltb_ge. apply Qltb_ge in H. now rewrite Ex, Ey.
Qed.

Lemma exact_pop_while_Forall (P : QPointF -> Prop) (p : QPointF)
    (chain : list QPointF) :
  Forall P chain -> Forall P (Exact.pop_while chain p).
Proof.
  induction chain as [|b [|a rest] IH]; intro H; cbn; try exact H.
  destruct (Qle_bool _ 0); [|exact H].
  apply IH. now inversion H.
Qed.

Lemma pop_while_pixels (B : Z) (p : QPointF) (chain : list QPointF) :
  (B <= 2 ^ 25)%Z -> pixel_within B p -> pixels B chain ->
  Hull.pop_while chain p = Exact.pop_while chain p.
Proof.
  intros HB Hp. induction chain as [|b [|a rest] IH]; intro H; try reflexivity.
  cbn [Hull.pop_while Exact.pop_while].
  inversion H as [|? ? Hb H']; subst. inversion H' as [|? ? Ha _]; subst.
  destruct (crossProduct_pixels B a b p HB Ha Hb Hp) as [E _].
  rewrite (Qle_bool_eq _ _ 0 E).
  destruct (Qle_bool (Exact.crossProduct a b p) 0); [|reflexivity].
  apply IH. exact H'.
Qed.

Lemma fold_push_pixels (B : Z) (pts : list QPointF) :
  (B <= 2 ^ 25)%Z -> pixels B pts ->
  forall chain, pixels B chain ->
    fold_left Hull.push pts chain = fold_left Exact.push pts chain.
Proof.
  intros HB. induction pts as [|p pts IH]; intros Hpts chain Hc; [reflexivity|].
  inversion Hpts as [|? ? Hp Hpts']; subst.
  cbn [fold_left]. unfold Hull.push at 2, Exact.push at 2.
  rewrite (pop_while_pixels B p chain HB Hp Hc).
  apply IH; [exact Hpts'|].
  constructor; [exact Hp|]. apply exact_pop_while_Forall. exact Hc.
Qed.

Lemma Forall_perm (P : QPointF -> Prop) (l l' : list QPointF) :
  Permutation l l' -> Forall P l -> Forall P l'.
Proof.
  intros Hp H. rewrite Forall_forall in *. intros x Hx. apply H.
  apply (Permutation_in x (Permutation_sym Hp)). exact Hx.
Qed.

Lemma sort_pixels (B : Z) (lt : QPointF -> QPointF -> bool) (pts : list QPointF) :
  pixels B pts -> pixels B (Hull.sort lt pts).
Proof.
  intro H. unfold pixels.
  apply (Forall_perm _ pts); [|exact H].
  apply Permutation_sym, sort_perm.
Qed.

(** [calculateConvexHull_Andrew] computes what the exact scan computes. *)
Lemma andrew_pixels (B : Z) (pts : list QPointF) :
  (B <= 2 ^ 25)%Z -> pixels B pts -> Hull.andrew pts = Exact.andrew pts.
Proof.
  intros HB H. unfold Hull.andrew, Exact.andrew, Hull.build_chain, Exact.build_chain.
  pose proof (sort_pixels B Hull.lex_lt pts H) as Hs.
  rewrite (fold_push_pixels B _ HB Hs [] (Forall_nil _)).
  rewrite (fold_push_pixels B _ HB (Forall_rev Hs) [] (Forall_nil _)).
  reflexivity.
Qed.

Lemma distSq_pixels (B : Z) (p0 a : QPointF) :
  (B <= 2 ^ 25)%Z -> pixel_within B p0 -> pixel_within B a ->
  Hull.distSq p0 a == Exact.distSq p0 a.
Proof.
  intros HB H0 Ha.
  destruct (pixel_within_int _ _ H0) as [H0x H0y].
  destruct (pixel_within_int _ _ Ha) as [Hax Hay].
  pose proof (int_le_nonneg _ _ Hax) as Hn.
  unfold Hull.distSq, Exact.distSq.
  assert (H2 : (B + B <= 2 ^ 53)%Z) by nia.
  assert (H4 : ((B + B) * (B + B) <= 2 ^ 53)%Z) by nia.
  assert (H8 : ((B + B) * (B + B) + (B + B) * (B + B) <= 2 ^ 53)%Z) by nia.
  rewrite (fsub_int B B (px p0) (px a)), (fsub_int B B (py p0) (py a)) by assumption.
  pose proof (int_le_minus _ _ _ _ H0x Hax) as Ix.
  pose proof (int_le_minus _ _ _ _ H0y Hay) as Iy.
  rewrite (fmul_int _ _ _ _ Ix Ix H4), (fmul_int _ _ _ _ Iy Iy H4).
  apply (fadd_int _ _ _ _ (int_le_mult _ _ _ _ Ix Ix) (int_le_mult _ _ _ _ Iy Iy) H8).
Qed.

Lemma polar_lt_pixels (B : Z) (p0 a b : QPointF) :
  (B <= 2 ^ 25)%Z -> pixel_within B p0 -> pixel_within B a -> pixel_within B b ->
  Hull.polar_lt p0 a b = Exact.polar_lt p0 a b.
Proof.
  intros HB H0 Ha Hb. unfold Hull.polar_lt, Exact.polar_lt.
  destruct (crossProduct_pixels B p0 a b HB H0 Ha Hb) as [E _].
  rewrite (Qltb_eq (Qabs (crossProduct p0 a b)) EPSILON
                   (Qabs (Exact.crossProduct p0 a b)) EPSILON)
    by (rewrite ?E; reflexivity).
  rewrite (Qltb_eq 0 (crossProduct p0 a b) 0 (Exact.crossProduct p0 a b))
    by (rewrite ?E; reflexivity).
  rewrite (Qltb_eq (Hull.distSq p0 a) (Hull.distSq p0 b)
                   (Exact.distSq p0 a) (Exact.distSq p0 b))
    by (apply (distSq_pixels B); assumption).
  reflexivity.
Qed.

Lemma insert_ext (lt1 lt2 : QPointF -> QPointF -> bool) (x : QPointF)
    (l : list QPointF) :
  (forall y, In y l -> lt1 y x = lt2 y x) ->
  Hull.insert lt1 x l = Hull.insert lt2 x l.
Proof.
  induction l as [|y l IH]; intro H; [reflexivity|].
  cbn [Hull.insert]. rewrite (H y (or_introl eq_refl)).
  destruct (lt2 y x); [|reflexivity].
  f_equal. apply IH. intros z Hz. apply H. now right.
Qed.

Lemma sort_ext (lt1 lt2 : QPointF -> QPointF -> bool) (l : list QPointF) :
  (forall a b, In a l -> In b l -> lt1 a b = lt2 a b) ->
  Hull.sort lt1 l = Hull.sort lt2 l.
Proof.
  induction l as [|x l IH]; intro H; [reflexivity|].
  unfold Hull.sort in *. cbn [fold_right].
  rewrite IH by (intros a b Ha Hb; apply H; now right).
  apply insert_ext. intros y Hy. apply H; [right|now left].
  apply (Permutation_in y (sort_perm lt2 l)). exact Hy.
Qed.

Lemma graham_order_pixels (B : Z) (pts : list QPointF) :
  (B <= 2 ^ 25)%Z -> pixels B pts ->
  Hull.graham_order pts = Exact.graham_order pts
  /\ pixels B (Exact.graham_order pts).
Proof.
  intros HB H. unfold Hull.graham_order, Exact.graham_order.
  destruct pts as [|q pts']; [split; [reflexivity|constructor]|].
  remember (q :: pts') as pts eqn:Ep.
  assert (Hne : pts <> []) by (rewrite Ep; discriminate).
  destruct (minY_idx_spec pts Hne) as [Hk _].
  destruct (swap0_perm (Hull.minY_idx pts) pts Hk) as (rest & Es & Hperm).
  rewrite Es.
  assert (Hall : pixels B (at_ pts (Hull.minY_idx pts) :: rest)).
  { apply (Forall_perm _ pts); [now apply Permutation_sym|exact H]. }
  apply Forall_cons_iff in Hall. destruct Hall as [H0 Hrest].
  assert (E : Hull.sort (Hull.polar_lt (at_ pts (Hull.minY_idx pts))) rest
              = Hull.sort (Exact.polar_lt (at_ pts (Hull.minY_idx pts))) rest).
  { apply sort_ext. intros a b Ha Hb.
    unfold pixels in Hrest. rewrite Forall_forall in Hrest.
    apply (polar_lt_pixels B); auto. }
  rewrite E. split; [reflexivity|].
  constructor; [exact H0|]. apply sort_pixels. exact Hrest.
Qed.

(** [calculateConvexHull_Graham] computes what the exact sweep computes. *)
Lemma graham_pixels (B : Z) (pts : list QPointF) :
  (B <= 2 ^ 25)%Z -> pixels B pts -> Hull.graham pts = Exact.graham pts.
Proof.
  intros HB H. unfold Hull.graham, Exact.graham.
  destruct (graham_order_pixels B pts HB H) as [E Hp]. rewrite E.
  destruct (length (Exact.graham_order pts) <? 3)%nat; [reflexivity|].
  destruct (Exact.graham_order pts) as [|t0 [|t1 rest]]; try reflexivity.
  inversion Hp as [|? ? H0 Hp']; subst. inversion Hp' as [|? ? H1 Hr]; subst.
  rewrite (fold_push_pixels B rest HB Hr [t1; t0]); [reflexivity|].
  repeat constructor; assumption.
Qed.

(** ** The shoelace sum on pixel positions *)

Lemma shoelace_term_pixels (B : Z) (a b : QPointF) :
  (2 * (B * B) <= 2 ^ 53)%Z -> pixel_within B a -> pixel_within B b ->
  shoelace_term a b == Exact.shoelace_term a b
  /\ int_le (2 * (B * B)) (Exact.shoelace_term a b).
Proof.
  intros HB Ha Hb.
  destruct (pixel_within_int _ _ Ha) as [Hax Hay].
  destruct (pixel_within_int _ _ Hb) as [Hbx Hby].
  pose proof (int_le_nonneg _ _ Hax) as H0.
  unfold shoelace_term, Exact.shoelace_term.
  assert (H1 : (B * B <= 2 ^ 53)%Z) by nia.
  assert (H2 : (B * B + B * B <= 2 ^ 53)%Z) by nia.
  rewrite (fmul_int _ _ _ _ Hax Hby H1), (fmul_int _ _ _ _ Hbx Hay H1).
  pose proof (int_le_mult _ _ _ _ Hax Hby) as I1.
  pose proof (int_le_mult _ _ _ _ Hbx Hay) as I2.
  rewrite (fsub_int _ _ _ _ I1 I2 H2).
  split; [reflexivity|].
  apply (int_le_weaken (B * B + B * B)); [lia|]. now apply int_le_minus.
Qed.

Lemma shoelace_fold_pixels (B : Z) (pts : list QPointF) (n : nat) :
  pixels B pts -> (0 < n)%nat -> n = length pts ->
  (Z.of_nat n * (2 * (B * B)) <= 2 ^ 53)%Z ->
  forall (idx : list nat) (k : nat) (s s' : Q),
    Forall (fun i => (i < n)%nat) idx -> (k + length idx <= n)%nat ->
    s == s' -> int_le (Z.of_nat k * (2 * (B * B))) s' ->
    fold_left
      (fun sum i => sum +! shoelace_term (at_ pts i) (at_ pts ((i + 1) mod n)))
      idx s
    == fold_left
         (fun sum i =>
            sum + Exact.shoelace_term (at_ pts i) (at_ pts ((i + 1) mod n)))
         idx s'
    /\ int_le (Z.of_nat (k + length idx) * (2 * (B * B)))
         (fold_left
            (fun sum i =>
               sum + Exact.shoelace_term (at_ pts i) (at_ pts ((i + 1) mod n)))
            idx s').
Proof.
  intros Hp Hn En HB.
  assert (HT : (0 <= 2 * (B * B))%Z) by nia.
  assert (HB1 : (2 * (B * B) <= 2 ^ 53)%Z) by nia.
  induction idx as [|i idx IH]; intros k s s' Hidx Hk Es Is'.
  - cbn [fold_left length]. rewrite Nat.add_0_r. split; [exact Es|exact Is'].
  - cbn [fold_left length] in *.
    apply Forall_cons_iff in Hidx. destruct Hidx as [Hi Hidx].
    assert (Hm : ((i + 1) mod n < n)%nat) by (apply Nat.mod_upper_bound; lia).
    destruct (shoelace_term_pixels B (at_ pts i) (at_ pts ((i + 1) mod n)) HB1)
      as [Et It]; try (apply pixels_at; [exact Hp|lia]).
    assert (Hsum : (Z.of_nat k * (2 * (B * B)) + 2 * (B * B) <= 2 ^ 53)%Z) by nia.
    assert (Estep : s +! shoelace_term (at_ pts i) (at_ pts ((i + 1) mod n))
                    == s' + Exact.shoelace_term (at_ pts i) (at_ pts ((i + 1) mod n))).
    { rewrite Es, Et. apply (fadd_int _ _ _ _ Is' It Hsum). }
    replace (k + S (length idx))%nat with (S k + length idx)%nat by lia.
    apply IH; [exact Hidx|lia|exact Estep|].
    apply (int_le_weaken (Z.of_nat k * (2 * (B * B)) + 2 * (B * B))); [lia|].
    now apply int_le_plus.
Qed.

(** The shoelace sum of a polygon on pixel positions is delivered exactly
    as long as [n * 2 * B * B] does not exceed [2 ^ 53]. *)
Lemma shoelace_loop_pixels (B : Z) (pts : list QPointF) :
  pixels B pts ->
  (Z.of_nat (length pts) * (2 * (B * B)) <= 2 ^ 53)%Z ->
  shoelace_loop pts == Exact.shoelace_loop pts
  /\ int_le (2 ^ 53) (Exact.shoelace_loop pts).
Proof.
  intros Hp HB. unfold shoelace_loop, Exact.shoelace_loop.
  destruct pts as [|p pts'] eqn:E.
  { cbn. split; [reflexivity|]. exists 0%Z. split; [reflexivity|lia]. }
  rewrite <- E in *.
  assert (Hn : (0 < length pts)%nat) by (rewrite E; cbn; lia).
  destruct (shoelace_fold_pixels B pts (length pts) Hp Hn eq_refl HB
              (seq 0 (length pts)) 0 0 0) as [H1 H2].
  - apply Forall_forall. intros i Hi. apply in_seq in Hi. lia.
  - rewrite length_seq. lia.
  - reflexivity.
  - exists 0%Z. split; [reflexivity|lia].
  - split; [exact H1|].
    eapply int_le_weaken; [|exact H2]. rewrite length_seq. cbn [Nat.add]. exact HB.
Qed.

Lemma half_int (x : Q) : int_le (2 ^ 53) x -> x /! 2 == x / 2.
Proof.
  intros (z & E & Hz). unfold fdiv.
  apply (double_exact _ z (-1)); [|exact Hz|lia].
  rewrite E. unfold pow2. change (2 ^ (-1)) with (/ 2). field.
Qed.

(** The area [calculatePolygonArea] stores, for a polygon on pixel positions. *)
Lemma shoelace_area_pixels (B : Z) (pts : list QPointF) :
  pixels B pts ->
  (Z.of_nat (length pts) * (2 * (B * B)) <= 2 ^ 53)%Z ->
  shoelace_area pts == Qabs (Exact.shoelace_loop pts) / 2.
Proof.
  intros Hp HB. destruct (shoelace_loop_pixels B pts Hp HB) as [E I].
  unfold shoelace_area. rewrite E. apply half_int. now apply int_le_Qabs.
Qed.

Lemma pixels_rev (B : Z) (pts : list QPointF) : pixels B pts -> pixels B (rev pts).
Proof. apply Forall_rev. Qed.

Lemma pixels_rotate (B : Z) (k : nat) (pts : list QPointF) :
  pixels B pts -> pixels B (rotate k pts).
Proof.
  intro H. unfold pixels in *. rewrite <- (firstn_skipn k pts) in H.
  apply Forall_app in H. destruct H as [H1 H2].
  unfold rotate. apply Forall_app. split; assumption.
Qed.

Lemma rotate_length (k : nat) (pts : list QPointF) :
  length (rotate k pts) = length pts.
Proof.
  unfold rotate. rewrite length_app, Nat.add_comm, <- length_app, firstn_skipn.
  reflexivity.
Qed.

(** ** The area is the same for every starting vertex and direction *)

(** C8 as worded fails where the shoelace sum is rounded: the area stored for
    the big triangle is 3924781080160814.5, and the area stored for the same
    triangle listed from its second vertex is 3924781080160815. *)
Lemma polygon_area_changes_under_rotation :
  polygonArea (calculatePolygonArea (set_polygonVertices big_triangle blank))
  == 7849562160321629 # 2
  /\ polygonArea
       (calculatePolygonArea
          (set_polygonVertices (rotate 1 big_triangle) blank))
     == 3924781080160815 # 1
  /\ ~ polygonArea
         (calculatePolygonArea
            (set_polygonVertices
               (rotate 1 (polygonVertices (set_polygonVertices big_triangle blank)))
               (set_polygonVertices big_triangle blank)))
       == polygonArea
            (calculatePolygonArea (set_polygonVertices big_triangle blank)).
Proof.
  split; [vm_compute; reflexivity|]. split; [vm_compute; reflexivity|].
  intro H. vm_compute in H. discriminate.
Qed.

(** C8, amended.  For a polygon on pixel positions of magnitude at most [B]
    with [n] vertices, where [n * 2 * B * B <= 2 ^ 53], the area
    [calculatePolygonArea] stores is half the absolute value of the exact
    shoelace sum, and it is the same when the vertex list is rotated
    cyclically by any number of places and when it is reversed. *)
Theorem polygon_area_rotation_reversal (B : Z) (w : DrawingWidget) (k : nat) :
  pixels B (polygonVertices w) ->
  (Z.of_nat (length (polygonVertices w)) * (2 * (B * B)) <= 2 ^ 53)%Z ->
  polygonArea (calculatePolygonArea w)
  == Qabs (Exact.shoelace_loop (polygonVertices w)) / 2
  /\ polygonArea
       (calculatePolygonArea (set_polygonVertices (rotate k (polygonVertices w)) w))
     == polygonArea (calculatePolygonArea w)
  /\ polygonArea
       (calculatePolygonArea (set_polygonVertices (rev (polygonVertices w)) w))
     == polygonArea (calculatePolygonArea w).
Proof.
  intros Hp HB. cbn [calculatePolygonArea set_currentMode set_polygonArea
                     set_polygonVertices polygonArea polygonVertices].
  rewrite (shoelace_area_pixels B _ Hp HB).
  split; [reflexivity|]. split.
  - rewrite (shoelace_area_pixels B (rotate k (polygonVertices w))).
    + unfold rotate. rewrite shoelace_loop_app_comm, firstn_skipn. reflexivity.
    + now apply pixels_rotate.
    + rewrite rotate_length. exact HB.
  - rewrite (shoelace_area_pixels B (rev (polygonVertices w))).
    + rewrite shoelace_loop_rev, Qabs_opp. reflexivity.
    + now apply pixels_rev.
    + rewrite length_rev. exact HB.
Qed.

Lemma polygon_area_rotation_reversal_witness :
  polygonArea (calculatePolygonArea (set_polygonVertices squareA blank))
  == Qabs (Exact.shoelace_loop squareA) / 2
  /\ polygonArea
       (calculatePolygonArea
          (set_polygonVertices (rotate 3 squareA)
             (set_polygonVertices squareA blank)))
     == polygonArea (calculatePolygonArea (set_polygonVertices squareA blank))
  /\ polygonArea
       (calculatePolygonArea
          (set_polygonVertices (rev squareA) (set_polygonVertices squareA blank)))
     == polygonArea (calculatePolygonArea (set_polygonVertices squareA blank)).
Proof.
  apply (polygon_area_rotation_reversal 4 (set_polygonVertices squareA blank) 3).
  - unfold squareA. cbn [polygonVertices set_polygonVertices].
    repeat (constructor; [eexists; eexists; split; [reflexivity|split; lia]|]).
    constructor.
  - cbn. lia.
Defined.

(** ** Winding before ear clipping *)

(** The wording of C6 fails on the square (0,0) (4,0) (4,4) (0,4): its
    shoelace sum is 32, positive, which the stated convention calls
    clockwise, and the code leaves it as it is; the same square listed in
    the opposite direction has the sum -32, which the convention calls
    already counter-clockwise, and the code reverses it. *)
Lemma winding_as_worded_counterexample :
  winds_clockwise squareA = true
  /\ EarClipping.normalize_winding squareA = squareA
  /\ normalize_as_worded squareA = rev squareA
  /\ EarClipping.normalize_winding squareA <> normalize_as_worded squareA
  /\ winds_clockwise (rev squareA) = false
  /\ EarClipping.normalize_winding (rev squareA) = squareA
  /\ EarClipping.normalize_winding (rev squareA) <> normalize_as_worded (rev squareA).
Proof.
  repeat split; try (vm_compute; reflexivity); vm_compute; discriminate.
Qed.

Lemma Forall_removelast (P : QPointF -> Prop) (l : list QPointF) :
  Forall P l -> Forall P (removelast l).
Proof.
  induction l as [|a [|b t] IH]; intro H; cbn; try constructor.
  - now inversion H.
  - apply IH. now inversion H.
Qed.

Lemma removelast_shorter (l : list QPointF) : (length (removelast l) <= length l)%nat.
Proof. induction l as [|a [|b t] IH]; cbn in *; lia. Qed.

Lemma drop_closing_pixels (B : Z) (l : list QPointF) :
  pixels B l ->
  pixels B (EarClipping.drop_closing l)
  /\ (length (EarClipping.drop_closing l) <= length l)%nat.
Proof.
  intro H. unfold EarClipping.drop_closing. destruct l as [|a t]; [split; auto|].
  destruct (point_eqb a (last (a :: t) origin)).
  - split; [now apply Forall_removelast|apply removelast_shorter].
  - split; auto.
Qed.

(** C6, amended.  For a polygon that passes the entry checks,
    [calculateTriangulation] runs its ear search on the working list (the
    vertices without a repeated closing vertex) reversed exactly when the
    shoelace sum it computes for that list is negative.  On pixel positions
    of magnitude at most [B], where [n * 2 * B * B <= 2 ^ 53] for the [n]
    vertices, the computed sum is the exact one: the list the search runs on
    therefore has a shoelace sum that is never negative, the absolute value
    of the original sum, and for three vertices that sum is their cross
    product, the quantity the convexity test requires to be positive. *)
Theorem winding_normalized_to_nonnegative (fuel : nat) (w : DrawingWidget) :
  (3 <= length (polygonVertices w))%nat ->
  isSimplePolygon (polygonVertices w) = true ->
  let work := EarClipping.drop_closing (polygonVertices w) in
  let start := EarClipping.normalize_winding work in
  calculateTriangulation fuel w
  = match EarClipping.loop fuel (Z.of_nat (length start) * 2)
            (EarClipping.mkState start [] 0) with
    | OutOfFuel => OutOfFuel
    | Done s => Done (EarClipping.finish (Z.of_nat (length start) * 2) s w)
    end
  /\ start = (if Qltb (shoelace_loop work) 0 then rev work else work)
  /\ (forall B : Z,
        pixels B (polygonVertices w) ->
        (Z.of_nat (length (polygonVertices w)) * (2 * (B * B)) <= 2 ^ 53)%Z ->
        (Exact.shoelace_loop work < 0 -> start = rev work)
        /\ (0 <= Exact.shoelace_loop work -> start = work)
        /\ 0 <= Exact.shoelace_loop start
        /\ Exact.shoelace_loop start == Qabs (Exact.shoelace_loop work)
        /\ shoelace_loop start == Qabs (shoelace_loop work)
        /\ (forall a b c, start = [a; b; c] -> 0 <= Exact.crossProduct a b c)).
Proof.
  intros H3 Hs work start.
  split.
  { unfold calculateTriangulation.
    destruct (Nat.ltb_spec (length (polygonVertices w)) 3); [lia|].
    rewrite Hs. cbn [negb]. reflexivity. }
  split; [reflexivity|].
  intros B Hp HB.
  destruct (drop_closing_pixels B _ Hp) as [Hw Hlen]. fold work in Hw, Hlen.
  assert (HBw : (Z.of_nat (length work) * (2 * (B * B)) <= 2 ^ 53)%Z) by nia.
  destruct (shoelace_loop_pixels B work Hw HBw) as [Ew _].
  assert (Hcases : (Exact.shoelace_loop work < 0 /\ start = rev work)
                   \/ (0 <= Exact.shoelace_loop work /\ start = work)).
  { unfold start, EarClipping.normalize_winding.
    destruct (Qltb (shoelace_loop work) 0) eqn:E.
    - apply Qltb_lt in E. rewrite Ew in E. left. split; [exact E|reflexivity].
    - apply Qltb_ge in E. rewrite Ew in E. right. split; [exact E|reflexivity]. }
  assert (Hsum : 0 <= Exact.shoelace_loop start
                 /\ Exact.shoelace_loop start == Qabs (Exact.shoelace_loop work)).
  { destruct Hcases as [[Hneg ->] | [Hpos ->]].
    - rewrite shoelace_loop_rev. split; [lra|]. rewrite Qabs_neg by lra. reflexivity.
    - split; [exact Hpos|]. rewrite Qabs_pos by exact Hpos. reflexivity. }
  assert (Hstart : pixels B start /\ length start = length work).
  { destruct Hcases as [[_ ->] | [_ ->]].
    - split; [now apply pixels_rev|apply length_rev].
    - split; [exact Hw|reflexivity]. }
  split; [intro Hneg; destruct Hcases as [[_ E] | [Hpos _]]; [exact E|lra]|].
  split; [intro Hpos; destruct Hcases as [[Hneg _] | [_ E]]; [lra|exact E]|].
  split; [apply Hsum|]. split; [apply Hsum|]. split.
  - destruct Hstart as [Hps Hls].
    destruct (shoelace_loop_pixels B start Hps) as [Es _]; [rewrite Hls; exact HBw|].
    rewrite Es, Ew. apply Hsum.
  - intros a b c E. rewrite <- shoelace_loop_triangle, <- E. apply Hsum.
Qed.

Lemma winding_normalized_to_nonnegative_witness :
  EarClipping.normalize_winding
    (EarClipping.drop_closing (polygonVertices (set_polygonVertices (rev squareA) blank)))
  = squareA
  /\ 0 <= Exact.shoelace_loop
            (EarClipping.normalize_winding
               (EarClipping.drop_closing
                  (polygonVertices (set_polygonVertices (rev squareA) blank)))).
Proof.
  destruct (winding_normalized_to_nonnegative 5
              (set_polygonVertices (rev squareA) blank))
    as (_ & E & HB).
  - cbn. lia.
  - vm_compute. reflexivity.
  - destruct (HB 4%Z) as (_ & _ & H & _).
    + unfold squareA. cbn [polygonVertices set_polygonVertices rev app].
      repeat (constructor; [eexists; eexists; split; [reflexivity|split; lia]|]).
      constructor.
    + cbn. lia.
    + split; [|exact H]. rewrite E. vm_compute. reflexivity.
Defined.

(** ** The segment intersection of Weiler-Atherton *)

Lemma seg_det_pixels (B : Z) (p1 p2 p3 p4 : QPointF) :
  (B <= 2 ^ 25)%Z ->
  pixel_within B p1 -> pixel_within B p2 -> pixel_within B p3 -> pixel_within B p4 ->
  seg_det p1 p2 p3 p4 == Exact.seg_det p1 p2 p3 p4
  /\ int_le (8 * (B * B)) (Exact.seg_det p1 p2 p3 p4).
Proof.
  intros HB H1 H2 H3 H4.
  destruct (pixel_within_int _ _ H1) as [H1x H1y].
  destruct (pixel_within_int _ _ H2) as [H2x H2y].
  destruct (pixel_within_int _ _ H3) as [H3x H3y].
  destruct (pixel_within_int _ _ H4) as [H4x H4y].
  pose proof (int_le_nonneg _ _ H1x) as H0.
  unfold seg_det, Exact.seg_det. apply det_int; try assumption. nia.
Qed.

(** The computed parameters are the exact ones, rounded once. *)
Lemma seg_t_pixels (B : Z) (p1 p2 p3 p4 : QPointF) :
  (B <= 2 ^ 25)%Z ->
  pixel_within B p1 -> pixel_within B p2 -> pixel_within B p3 -> pixel_within B p4 ->
  seg_t p1 p2 p3 p4 == double (Exact.seg_t p1 p2 p3 p4).
Proof.
  intros HB H1 H2 H3 H4.
  destruct (seg_det_pixels B p1 p2 p3 p4 HB H1 H2 H3 H4) as [Ed _].
  destruct (pixel_within_int _ _ H1) as [H1x H1y].
  destruct (pixel_within_int _ _ H2) as [H2x H2y].
  destruct (pixel_within_int _ _ H3) as [H3x H3y].
  destruct (pixel_within_int _ _ H4) as [H4x H4y].
  pose proof (int_le_nonneg _ _ H1x) as H0.
  unfold seg_t, Exact.seg_t. rewrite Ed.
  destruct (det_int B (px p3) (px p1) (py p4) (py p3)
                    (py p3) (py p1) (px p4) (px p3)) as [En _];
    try assumption; [nia|].
  rewrite En. reflexivity.
Qed.

Lemma seg_u_pixels (B : Z) (p1 p2 p3 p4 : QPointF) :
  (B <= 2 ^ 25)%Z ->
  pixel_within B p1 -> pixel_within B p2 -> pixel_within B p3 -> pixel_within B p4 ->
  seg_u p1 p2 p3 p4 == double (Exact.seg_u p1 p2 p3 p4).
Proof.
  intros HB H1 H2 H3 H4.
  destruct (seg_det_pixels B p1 p2 p3 p4 HB H1 H2 H3 H4) as [Ed _].
  destruct (pixel_within_int _ _ H1) as [H1x H1y].
  destruct (pixel_within_int _ _ H2) as [H2x H2y].
  destruct (pixel_within_int _ _ H3) as [H3x H3y].
  destruct (pixel_within_int _ _ H4) as [H4x H4y].
  pose proof (int_le_nonneg _ _ H1x) as H0.
  unfold seg_u, Exact.seg_u. rewrite Ed.
  destruct (det_int B (px p2) (px p1) (py p3) (py p1)
                    (py p2) (py p1) (px p3) (px p1)) as [En _];
    try assumption; [nia|].
  rewrite En. reflexivity.
Qed.

Lemma EPSILON_double : double EPSILON == EPSILON.
Proof. vm_compute. reflexivity. Qed.

Lemma one_minus_EPSILON_double : double (1 -! EPSILON) == 1 -! EPSILON.
Proof. vm_compute. reflexivity. Qed.

Lemma EPSILON_bounds : 0 < EPSILON /\ EPSILON < 1 /\ 1 -! EPSILON < 1.
Proof. repeat split; vm_compute; reflexivity. Qed.

(** A rounded value beyond a [double] bound: the exact value is beyond it. *)
Lemma double_gt (c x : Q) : double c == c -> c < double x -> c < x.
Proof.
  intros Ec H. apply Qnot_le_lt. intro Hle.
  apply double_mono in Hle. rewrite Ec in Hle. lra.
Qed.

Lemma double_lt (c x : Q) : double c == c -> double x < c -> x < c.
Proof.
  intros Ec H. apply Qnot_le_lt. intro Hle.
  apply double_mono in Hle. rewrite Ec in Hle. lra.
Qed.

(** C7 as worded fails where the determinants are rounded: the end point
    [touching_p2] of the first segment lies on the second segment (the exact
    parameters are [t = 1] and [u = 1/2]), and
    [getLineSegmentIntersection] returns a point, with [t] computed as
    0.9999998. *)
Lemma getLineSegmentIntersection_reports_touching :
  Exact.seg_t touching_p1 touching_p2 touching_p3 touching_p4 == 1
  /\ Exact.seg_u touching_p1 touching_p2 touching_p3 touching_p4 == 1 # 2
  /\ seg_t touching_p1 touching_p2 touching_p3 touching_p4
     == 2251799363133801 # 2251799813685248
  /\ exists pt a,
       getLineSegmentIntersection touching_p1 touching_p2 touching_p3 touching_p4
       = Some (pt, a).
Proof.
  split; [vm_compute; reflexivity|]. split; [vm_compute; reflexivity|].
  split; [vm_compute; reflexivity|].
  destruct (getLineSegmentIntersection touching_p1 touching_p2 touching_p3
              touching_p4) as [[pt a]|] eqn:E.
  - exists pt, a. reflexivity.
  - vm_compute in E. discriminate.
Qed.

(** What the two guards of [getLineSegmentIntersection] say of the values the
    program computes. *)
Lemma getLineSegmentIntersection_guards (p1 p2 p3 p4 : QPointF) :
  (Qabs (seg_det p1 p2 p3 p4) < EPSILON ->
   getLineSegmentIntersection p1 p2 p3 p4 = None)
  /\ (forall pt a,
        getLineSegmentIntersection p1 p2 p3 p4 = Some (pt, a) ->
        EPSILON <= Qabs (seg_det p1 p2 p3 p4)
        /\ EPSILON < seg_t p1 p2 p3 p4 /\ seg_t p1 p2 p3 p4 < 1 -! EPSILON
        /\ EPSILON < seg_u p1 p2 p3 p4 /\ seg_u p1 p2 p3 p4 < 1 -! EPSILON
        /\ a = seg_t p1 p2 p3 p4
        /\ pt = mkPoint (px p1 +! a *! (px p2 -! px p1))
                        (py p1 +! a *! (py p2 -! py p1))).
Proof.
  split.
  - intro Hdet. unfold getLineSegmentIntersection.
    apply Qltb_lt in Hdet. now rewrite Hdet.
  - intros pt a. unfold getLineSegmentIntersection.
    destruct (Qltb (Qabs (seg_det p1 p2 p3 p4)) EPSILON) eqn:Edet; [discriminate|].
    destruct (Qltb EPSILON (seg_t p1 p2 p3 p4)) eqn:E1; [|discriminate].
    destruct (Qltb (seg_t p1 p2 p3 p4) (1 -! EPSILON)) eqn:E2; [|discriminate].
    destruct (Qltb EPSILON (seg_u p1 p2 p3 p4)) eqn:E3; [|discriminate].
    destruct (Qltb (seg_u p1 p2 p3 p4) (1 -! EPSILON)) eqn:E4; [|discriminate].
    cbn. intro H. injection H as Hpt Ha.
    apply Qltb_lt in E1, E2, E3, E4. apply Qltb_ge in Edet.
    repeat (split; [assumption|]). split; [now symmetry|].
    rewrite <- Ha. now symmetry.
Qed.

(** C7, amended.  For every two segments, [getLineSegmentIntersection]
    returns nothing when the determinant it computes is below [1e-9] in
    absolute value, and when it returns a point, the parameters [t] and [u]
    it computes are strictly between [1e-9] and [1 - 1e-9] (as the program
    computes these bounds), the position returned is [t] and the point is
    computed from [t].  For segments between pixel positions of magnitude
    at most [2 ^ 25] the same holds of the exact determinant and of the
    exact parameters of the crossing, so that a crossing at an end point of
    either segment is not returned there. *)
Theorem getLineSegmentIntersection_strict (p1 p2 p3 p4 : QPointF) :
  (Qabs (seg_det p1 p2 p3 p4) < EPSILON ->
   getLineSegmentIntersection p1 p2 p3 p4 = None)
  /\ (forall pt a,
        getLineSegmentIntersection p1 p2 p3 p4 = Some (pt, a) ->
        EPSILON <= Qabs (seg_det p1 p2 p3 p4)
        /\ EPSILON < seg_t p1 p2 p3 p4 /\ seg_t p1 p2 p3 p4 < 1 -! EPSILON
        /\ EPSILON < seg_u p1 p2 p3 p4 /\ seg_u p1 p2 p3 p4 < 1 -! EPSILON
        /\ a = seg_t p1 p2 p3 p4
        /\ pt = mkPoint (px p1 +! a *! (px p2 -! px p1))
                        (py p1 +! a *! (py p2 -! py p1)))
  /\ (forall B : Z,
        (B <= 2 ^ 25)%Z ->
        pixel_within B p1 -> pixel_within B p2 ->
        pixel_within B p3 -> pixel_within B p4 ->
        (Qabs (Exact.seg_det p1 p2 p3 p4) < EPSILON ->
         getLineSegmentIntersection p1 p2 p3 p4 = None)
        /\ (forall pt a,
              getLineSegmentIntersection p1 p2 p3 p4 = Some (pt, a) ->
              EPSILON <= Qabs (Exact.seg_det p1 p2 p3 p4)
              /\ EPSILON < Exact.seg_t p1 p2 p3 p4
              /\ Exact.seg_t p1 p2 p3 p4 < 1 -! EPSILON
              /\ EPSILON < Exact.seg_u p1 p2 p3 p4
              /\ Exact.seg_u p1 p2 p3 p4 < 1 -! EPSILON)
        /\ (Exact.seg_t p1 p2 p3 p4 == 0 \/ Exact.seg_t p1 p2 p3 p4 == 1
            \/ Exact.seg_u p1 p2 p3 p4 == 0 \/ Exact.seg_u p1 p2 p3 p4 == 1 ->
            getLineSegmentIntersection p1 p2 p3 p4 = None)).
Proof.
  destruct (getLineSegmentIntersection_guards p1 p2 p3 p4) as [Gnone Gsome].
  split; [exact Gnone|]. split; [exact Gsome|].
  intros B HB H1 H2 H3 H4.
  destruct (seg_det_pixels B p1 p2 p3 p4 HB H1 H2 H3 H4) as [Ed _].
  pose proof (seg_t_pixels B p1 p2 p3 p4 HB H1 H2 H3 H4) as Et.
  pose proof (seg_u_pixels B p1 p2 p3 p4 HB H1 H2 H3 H4) as Eu.
  destruct EPSILON_bounds as (He0 & He1 & He2).
  assert (Hsome : forall pt a,
        getLineSegmentIntersection p1 p2 p3 p4 = Some (pt, a) ->
        EPSILON <= Qabs (Exact.seg_det p1 p2 p3 p4)
        /\ EPSILON < Exact.seg_t p1 p2 p3 p4
        /\ Exact.seg_t p1 p2 p3 p4 < 1 -! EPSILON
        /\ EPSILON < Exact.seg_u p1 p2 p3 p4
        /\ Exact.seg_u p1 p2 p3 p4 < 1 -! EPSILON).
  { intros pt a E.
    destruct (Gsome pt a E) as (Edet & E1 & E2 & E3 & E4 & _).
    rewrite Ed in Edet.
    split; [exact Edet|].
    split; [apply (double_gt _ _ EPSILON_double); rewrite <- Et; exact E1|].
    split; [apply (double_lt _ _ one_minus_EPSILON_double); rewrite <- Et; exact E2|].
    split; [apply (double_gt _ _ EPSILON_double); rewrite <- Eu; exact E3|].
    apply (double_lt _ _ one_minus_EPSILON_double); rewrite <- Eu; exact E4. }
  split; [|split].
  - intro Hdet. apply Gnone. rewrite Ed. exact Hdet.
  - exact Hsome.
  - intro Hend.
    destruct (getLineSegmentIntersection p1 p2 p3 p4) as [[pt a]|] eqn:E;
      [|reflexivity].
    destruct (Hsome pt a eq_refl) as (_ & T1 & T2 & U1 & U2).
    exfalso. destruct Hend as [H|[H|[H|H]]]; rewrite H in *; lra.
Qed.

(** The diagonals of a square of four pixels cross in the middle of both. *)
Lemma getLineSegmentIntersection_strict_witness :
  exists pt a,
    getLineSegmentIntersection (pixel 0 0) (pixel 4 4) (pixel 0 4) (pixel 4 0)
    = Some (pt, a)
    /\ EPSILON < Exact.seg_t (pixel 0 0) (pixel 4 4) (pixel 0 4) (pixel 4 0)
    /\ Exact.seg_t (pixel 0 0) (pixel 4 4) (pixel 0 4) (pixel 4 0) < 1 -! EPSILON.
Proof.
  destruct (getLineSegmentIntersection (pixel 0 0) (pixel 4 4) (pixel 0 4) (pixel 4 0))
    as [[pt a]|] eqn:E; [|vm_compute in E; discriminate].
  exists pt, a. split; [reflexivity|].
  destruct (getLineSegmentIntersection_strict (pixel 0 0) (pixel 4 4)
              (pixel 0 4) (pixel 4 0)) as (_ & _ & HB).
  destruct (HB 4%Z) as (_ & H & _);
    try (eexists; eexists; split; [reflexivity|split; lia]); [lia|].
  destruct (H pt a E) as (_ & T1 & T2 & _). split; assumption.
Defined.

(** ** The validator *)

Lemma to_long_long_int (q : Q) (z : Z) :
  q == inject_Z z -> (Z.abs z <= 2 ^ 53)%Z -> to_long_long q = z.
Proof.
  intros E Hz. unfold to_long_long.
  change (Z.quot (Qnum q) (Zpos (Qden q))) with (Exact.to_long_long q).
  rewrite (to_long_long_integral q z E).
  assert (H : (2 ^ 53 < 2 ^ 63)%Z) by (vm_compute; reflexivity).
  destruct (Z.leb_spec (- 2 ^ 63) z); [|lia].
  destruct (Z.ltb_spec z (2 ^ 63)); [reflexivity|lia].
Qed.

Lemma of_long_long_int (z : Z) :
  (Z.abs z <= 2 ^ 53)%Z -> of_long_long z == inject_Z z.
Proof. intro H. unfold of_long_long. now apply (double_Z _ z). Qed.

(** The orientation computed by [segmentsIntersect] on pixel positions. *)
Lemma cross_ll_pixels (B : Z) (a b c : QPointF) :
  (B <= 2 ^ 25)%Z ->
  pixel_within B a -> pixel_within B b -> pixel_within B c ->
  to_long_long (cross_ll a b c) = Exact.to_long_long (Exact.cross_ll a b c).
Proof.
  intros HB Ha Hb Hc.
  destruct (pixel_within_int _ _ Ha) as [Hax Hay].
  destruct (pixel_within_int _ _ Hb) as [Hbx Hby].
  destruct (pixel_within_int _ _ Hc) as [Hcx Hcy].
  pose proof (int_le_nonneg _ _ Hax) as H0.
  assert (H2 : (B + B <= 2 ^ 53)%Z) by nia.
  assert (H4 : ((B + B) * (B + B) <= 2 ^ 53)%Z) by nia.
  assert (H8 : ((B + B) * (B + B) + (B + B) * (B + B) <= 2 ^ 53)%Z) by nia.
  pose proof (int_le_minus _ _ _ _ Hbx Hax) as Ix.
  pose proof (int_le_minus _ _ _ _ Hby Hay) as Iy.
  pose proof (int_le_minus _ _ _ _ Hcx Hax) as Jx.
  pose proof (int_le_minus _ _ _ _ Hcy Hay) as Jy.
  destruct Ix as (zx & Ezx & Hzx). destruct Iy as (zy & Ezy & Hzy).
  assert (Tx : to_long_long (px b -! px a) = zx).
  { apply to_long_long_int; [|lia].
    rewrite (fsub_int B B) by assumption. exact Ezx. }
  assert (Ty : to_long_long (py b -! py a) = zy).
  { apply to_long_long_int; [|lia].
    rewrite (fsub_int B B) by assumption. exact Ezy. }
  assert (Tx' : Exact.to_long_long (px b - px a) = zx)
    by (apply to_long_long_integral; exact Ezx).
  assert (Ty' : Exact.to_long_long (py b - py a) = zy)
    by (apply to_long_long_integral; exact Ezy).
  assert (Izx : int_le (B + B) (inject_Z zx)) by (now apply int_le_inject).
  assert (Izy : int_le (B + B) (inject_Z zy)) by (now apply int_le_inject).
  assert (E : cross_ll a b c == Exact.cross_ll a b c).
  { unfold cross_ll, Exact.cross_ll. rewrite Tx, Ty, Tx', Ty'.
    rewrite !of_long_long_int by lia.
    rewrite (fsub_int B B (py c) (py a)), (fsub_int B B (px c) (px a)) by assumption.
    rewrite (fmul_int _ _ _ _ Izx Jy H4), (fmul_int _ _ _ _ Izy Jx H4).
    apply (fsub_int _ _ _ _ (int_le_mult _ _ _ _ Izx Jy)
             (int_le_mult _ _ _ _ Izy Jx) H8). }
  assert (I : int_le ((B + B) * (B + B) + (B + B) * (B + B)) (Exact.cross_ll a b c)).
  { unfold Exact.cross_ll. rewrite Tx', Ty'.
    apply int_le_minus; apply int_le_mult; assumption. }
  destruct I as (z & Ez & Hz).
  rewrite (to_long_long_integral _ z Ez).
  apply to_long_long_int; [|lia]. rewrite E. exact Ez.
Qed.

Lemma onSegment_pixels (B : Z) (a b c : QPointF) :
  (B <= 2 ^ 25)%Z ->
  pixel_within B a -> pixel_within B b -> pixel_within B c ->
  onSegment a b c = Exact.onSegment a b c.
Proof.
  intros HB Ha Hb Hc. unfold onSegment, Exact.onSegment.
  destruct (crossProduct_pixels B a b c HB Ha Hb Hc) as [E _].
  rewrite (Qltb_eq (Qabs (crossProduct a b c)) TOL10
                   (Qabs (Exact.crossProduct a b c)) TOL10)
    by (rewrite ?E; reflexivity).
  reflexivity.
Qed.

(** [segmentsIntersect] computes on pixel positions what the exact test
    computes. *)
Lemma segmentsIntersect_pixels (B : Z) (p1 p2 q1 q2 : QPointF) :
  (B <= 2 ^ 25)%Z ->
  pixel_within B p1 -> pixel_within B p2 -> pixel_within B q1 -> pixel_within B q2 ->
  segmentsIntersect p1 p2 q1 q2 = Exact.segmentsIntersect p1 p2 q1 q2.
Proof.
  intros HB H1 H2 H3 H4. unfold segmentsIntersect, Exact.segmentsIntersect.
  rewrite (cross_ll_pixels B p1 p2 q1), (cross_ll_pixels B p1 p2 q2),
    (cross_ll_pixels B q1 q2 p1), (cross_ll_pixels B q1 q2 p2) by assumption.
  rewrite (onSegment_pixels B p1 p2 q1), (onSegment_pixels B p1 p2 q2),
    (onSegment_pixels B q1 q2 p1), (onSegment_pixels B q1 q2 p2) by assumption.
  reflexivity.
Qed.

(** C4 as worded fails in two ways.  A list of three or two vertices is
    accepted whatever it holds, a repeated vertex included.  And where the
    orientations are rounded a crossing is missed: the first and the third
    edge of [big_bowtie] cross, and the validator accepts it. *)
Lemma isSimplePolygon_accepts_degenerate :
  isSimplePolygon [pixel 0 0; pixel 0 0; pixel 1 1] = true
  /\ has_zero_length_edge [pixel 0 0; pixel 0 0; pixel 1 1]
  /\ isSimplePolygon [pixel 5 5; pixel 5 5] = true
  /\ has_zero_length_edge [pixel 5 5; pixel 5 5]
  /\ isSimplePolygon big_bowtie = true
  /\ has_crossing_edges big_bowtie.
Proof.
  split; [vm_compute; reflexivity|]. split.
  { exists 0%nat. split; [cbn; lia|]. split; reflexivity. }
  split; [vm_compute; reflexivity|]. split.
  { exists 0%nat. split; [cbn; lia|]. split; reflexivity. }
  split; [vm_compute; reflexivity|].
  exists 0%nat, 2%nat. cbn.
  split; [lia|]. split; [lia|]. split.
  { unfold adjacent_edges. cbn. lia. }
  split.
  { vm_compute. discriminate. }
  exists (Exact.seg_t (pixel 120705 124419) (pixel 103089513 106261498)
            (pixel 103089578 106261565) (pixel 0 0)),
         (Exact.seg_u (pixel 120705 124419) (pixel 103089513 106261498)
            (pixel 103089578 106261565) (pixel 0 0)).
  repeat split; vm_compute; reflexivity.
Qed.

(** C4, amended.  [isSimplePolygon] accepts every list of at most three
    vertices.  A polygon with at least four vertices is rejected when it has
    an edge of length zero, and, on pixel positions of magnitude at most
    [2 ^ 25], when two of its non-adjacent edges cross. *)
Theorem isSimplePolygon_rejects (poly : list QPointF) :
  ((length poly <= 3)%nat -> isSimplePolygon poly = true)
  /\ ((4 <= length poly)%nat -> has_zero_length_edge poly ->
      isSimplePolygon poly = false)
  /\ (forall B : Z,
        (B <= 2 ^ 25)%Z -> pixels B poly -> (4 <= length poly)%nat ->
        has_crossing_edges poly ->
        isSimplePolygon poly = false).
Proof.
  split; [|split].
  - intro H. unfold isSimplePolygon.
    destruct (Nat.ltb_spec (length poly) 3); [reflexivity|].
    destruct (Nat.eqb_spec (length poly) 3); [reflexivity|lia].
  - intros Hn (i & Hi & Hsame).
    apply (isSimplePolygon_edge poly i Hn Hi).
    unfold simple_edge_ok. apply point_eqb_same in Hsame. now rewrite Hsame.
  - intros B HB Hp Hn (i & j & Hi & Hj & Hadj & Hcross).
    apply (isSimplePolygon_edge poly i Hn Hi).
    unfold simple_edge_ok.
    destruct (point_eqb (at_ poly i) (at_ poly ((i + 1) mod length poly)));
      [reflexivity|].
    apply (forallb_false_at _ _ j); [apply in_seq; lia|].
    unfold simple_pair_ok.
    destruct (point_eqb (at_ poly j) (at_ poly ((j + 1) mod length poly)));
      [reflexivity|].
    assert (Hadjb : ((i =? j)%nat || (j =? (i + 1) mod length poly)%nat
                     || (i =? (j + 1) mod length poly)%nat) = false).
    { unfold adjacent_edges in Hadj.
      rewrite !orb_false_iff, !Nat.eqb_neq. repeat split; intro; apply Hadj; auto. }
    rewrite Hadjb.
    assert (Hmod : forall k, ((k + 1) mod length poly < length poly)%nat)
      by (intro k; apply Nat.mod_upper_bound; lia).
    rewrite (segmentsIntersect_pixels B) by (try exact HB; apply pixels_at; auto).
    rewrite segmentsIntersect_crossing; auto;
      apply (pixel_within_integral B); apply pixels_at; auto.
Qed.

(** The theorem at a triangle with a doubled vertex, at a polygon with a
    doubled vertex and at the pixel bow-tie, whose first and third edge cross
    at (1, 1). *)
Lemma isSimplePolygon_rejects_witness :
  isSimplePolygon [pixel 0 0; pixel 0 0; pixel 1 1] = true
  /\ isSimplePolygon [pixel 0 0; pixel 0 0; pixel 4 0; pixel 0 4] = false
  /\ isSimplePolygon bowtie = false.
Proof.
  split; [|split].
  - apply (isSimplePolygon_rejects [pixel 0 0; pixel 0 0; pixel 1 1]). cbn. lia.
  - apply (isSimplePolygon_rejects
             [pixel 0 0; pixel 0 0; pixel 4 0; pixel 0 4]); [cbn; lia|].
    exists 0%nat. split; [cbn; lia|]. split; reflexivity.
  - apply (proj2 (proj2 (isSimplePolygon_rejects bowtie)) 2%Z); [lia| |cbn; lia|].
    + unfold bowtie.
      repeat (constructor; [eexists; eexists; split; [reflexivity|split; lia]|]).
      constructor.
    + exists 0%nat, 2%nat. cbn.
      split; [lia|]. split; [lia|]. split.
      { unfold adjacent_edges. cbn. lia. }
      split.
      { vm_compute. discriminate. }
      exists (1 # 2), (1 # 2). repeat split; vm_compute; reflexivity.
Defined.

(** ** The two convex hulls have the same vertices *)

Lemma calculateConvexHull_Andrew_hull (w : DrawingWidget) :
  (3 <= length (points w))%nat ->
  convexHull (calculateConvexHull_Andrew w) = Hull.andrew (points w).
Proof.
  intro H. unfold calculateConvexHull_Andrew.
  destruct (Nat.ltb_spec (length (points w)) 3); [lia|reflexivity].
Qed.

Lemma calculateConvexHull_Graham_hull (w : DrawingWidget) :
  (3 <= length (points w))%nat ->
  convexHull (calculateConvexHull_Graham w) = Hull.graham (points w).
Proof.
  intro H. unfold calculateConvexHull_Graham.
  destruct (Nat.ltb_spec (length (points w)) 3); [lia|reflexivity].
Qed.

(** C2 as worded fails where the cross products are rounded: the three
    pixel positions of [far_pixels] are not on one line, the hull of
    [calculateConvexHull_Andrew] has two of them and the hull of
    [calculateConvexHull_Graham] all three, and the third is not on or inside
    the former.  (Both comparators separate the points they sort here, so
    that the sorted sequences do not depend on the sorting procedure.) *)
Lemma convex_hulls_differ_on_far_pixels :
  non_collinear far_pixels
  /\ convexHull (calculateConvexHull_Andrew (with_points far_pixels))
     = [pixel 3684409 2786367; pixel 240616971 156879789]
  /\ convexHull (calculateConvexHull_Graham (with_points far_pixels))
     = [pixel 3684409 2786367; pixel 240616971 156879789;
        pixel 85981944 56310073]
  /\ ~ same_vertices
         (convexHull (calculateConvexHull_Andrew (with_points far_pixels)))
         (convexHull (calculateConvexHull_Graham (with_points far_pixels)))
  /\ exists q, In q far_pixels
       /\ ~ on_or_inside
            (convexHull (calculateConvexHull_Andrew (with_points far_pixels))) q.
Proof.
  assert (EA : convexHull (calculateConvexHull_Andrew (with_points far_pixels))
               = [pixel 3684409 2786367; pixel 240616971 156879789])
    by (vm_compute; reflexivity).
  assert (EG : convexHull (calculateConvexHull_Graham (with_points far_pixels))
               = [pixel 3684409 2786367; pixel 240616971 156879789;
                  pixel 85981944 56310073])
    by (vm_compute; reflexivity).
  rewrite EA, EG. split; [|split; [reflexivity|split; [reflexivity|split]]].
  - exists (pixel 3684409 2786367), (pixel 85981944 56310073),
           (pixel 240616971 156879789).
    unfold far_pixels. cbn [In]. repeat split; auto.
    intro H. vm_compute in H. discriminate.
  - intros [_ H].
    destruct (H (pixel 85981944 56310073)) as (v' & Hv' & Hx & Hy).
    { cbn [In]. auto 10. }
    cbn [In] in Hv'.
    destruct Hv' as [<-|[<-|[]]]; cbn [px py pixel] in *;
      vm_compute in Hx; discriminate.
  - exists (pixel 85981944 56310073). split.
    + unfold far_pixels. cbn [In]. auto.
    + intro H. specialize (H 1%nat ltac:(cbn; lia)).
      vm_compute in H. apply H. reflexivity.
Qed.

(** C2, amended.  For points on pixel positions of magnitude at most
    [2 ^ 25], as the widget collects them, three of which are not on one
    line, the hull stored by [calculateConvexHull_Andrew] and the hull stored
    by [calculateConvexHull_Graham] have the same vertices; each is a list of
    strict corners taken from the input, and every input point is on the left
    of, or on, every edge of each hull. *)
Theorem convex_hulls_agree (B : Z) (w : DrawingWidget) :
  (B <= 2 ^ 25)%Z ->
  pixels B (points w) ->
  non_collinear (points w) ->
  convexHull (calculateConvexHull_Andrew w) = Hull.andrew (points w)
  /\ convexHull (calculateConvexHull_Graham w) = Hull.graham (points w)
  /\ is_hull (points w) (convexHull (calculateConvexHull_Andrew w))
  /\ is_hull (points w) (convexHull (calculateConvexHull_Graham w))
  /\ same_vertices (convexHull (calculateConvexHull_Andrew w))
                   (convexHull (calculateConvexHull_Graham w))
  /\ forall q, In q (points w) ->
       on_or_inside (convexHull (calculateConvexHull_Andrew w)) q
       /\ on_or_inside (convexHull (calculateConvexHull_Graham w)) q.
Proof.
  intros HB Hp Hnc.
  pose proof (non_collinear_three _ Hnc) as Hlen.
  rewrite (calculateConvexHull_Andrew_hull w Hlen).
  rewrite (calculateConvexHull_Graham_hull w Hlen).
  split; [reflexivity|]. split; [reflexivity|].
  rewrite (andrew_pixels B _ HB Hp), (graham_pixels B _ HB Hp).
  destruct (andrew_is_hull (points w) Hnc) as [HA EA].
  destruct (graham_is_hull (points w) (pixels_integral B _ Hp) Hnc) as [HG EG].
  repeat (split; [assumption|]).
  split.
  - exact (hulls_same_vertices (points w) _ _ HA HG).
  - intros q Hq. split.
    + exact (edges_support_inside (points w) _ EA q Hq).
    + exact (edges_support_inside (points w) _ EG q Hq).
Qed.

Lemma convex_hulls_agree_witness :
  convexHull (calculateConvexHull_Andrew (with_points six_pixels))
    = Hull.andrew six_pixels
  /\ convexHull (calculateConvexHull_Graham (with_points six_pixels))
     = Hull.graham six_pixels
  /\ is_hull six_pixels
             (convexHull (calculateConvexHull_Andrew (with_points six_pixels)))
  /\ is_hull six_pixels
             (convexHull (calculateConvexHull_Graham (with_points six_pixels)))
  /\ same_vertices
       (convexHull (calculateConvexHull_Andrew (with_points six_pixels)))
       (convexHull (calculateConvexHull_Graham (with_points six_pixels)))
  /\ forall q, In q six_pixels ->
       on_or_inside
         (convexHull (calculateConvexHull_Andrew (with_points six_pixels))) q
       /\ on_or_inside
            (convexHull (calculateConvexHull_Graham (with_points six_pixels))) q.
Proof.
  apply (convex_hulls_agree 4 (with_points six_pixels)).
  - lia.
  - unfold with_points, six_pixels. cbn [points].
    repeat (constructor; [eexists; eexists; split; [reflexivity|split; lia]|]).
    constructor.
  - exists (pixel 0 0), (pixel 4 0), (pixel 4 3).
    unfold with_points, six_pixels. cbn [points In].
    repeat split; auto 10. intro H. vm_compute in H. discriminate.
Defined.

(** The two hulls of the six pixels. *)
Example hulls_of_six_pixels :
  Hull.andrew six_pixels = [pixel 0 0; pixel 4 0; pixel 4 3; pixel 0 3]
  /\ Hull.graham six_pixels = [pixel 0 0; pixel 4 0; pixel 4 3; pixel 0 3].
Proof. split; vm_compute; reflexivity. Qed.

(** ** Weiler-Atherton without intersections *)

(** Reversing the first segment replaces [t] by [1 - t]. *)
Lemma crosses_inside_swap1 (p1 p2 p3 p4 : QPointF) :
  crosses_inside p1 p2 p3 p4 -> crosses_inside p2 p1 p3 p4.
Proof.
  intros (Hnz & H1 & H2 & H3 & H4).
  assert (Ed : Exact.seg_det p2 p1 p3 p4 == - Exact.seg_det p1 p2 p3 p4)
    by (unfold Exact.seg_det; ring).
  assert (Et : Exact.seg_t p2 p1 p3 p4 == 1 - Exact.seg_t p1 p2 p3 p4).
  { unfold Exact.seg_t. rewrite Ed. unfold Exact.seg_det in *. field.
    repeat split; intro Hc; apply Hnz; lra. }
  assert (Eu : Exact.seg_u p2 p1 p3 p4 == Exact.seg_u p1 p2 p3 p4).
  { unfold Exact.seg_u. rewrite Ed. unfold Exact.seg_det in *. field.
    repeat split; intro Hc; apply Hnz; lra. }
  unfold crosses_inside. rewrite Ed, Et, Eu.
  repeat split; try assumption; try lra; try (intro Hc; apply Hnz; lra).
Qed.

(** Reversing the second segment replaces [u] by [1 - u]. *)
Lemma crosses_inside_swap2 (p1 p2 p3 p4 : QPointF) :
  crosses_inside p1 p2 p3 p4 -> crosses_inside p1 p2 p4 p3.
Proof.
  intros (Hnz & H1 & H2 & H3 & H4).
  assert (Ed : Exact.seg_det p1 p2 p4 p3 == - Exact.seg_det p1 p2 p3 p4)
    by (unfold Exact.seg_det; ring).
  assert (Et : Exact.seg_t p1 p2 p4 p3 == Exact.seg_t p1 p2 p3 p4).
  { unfold Exact.seg_t. rewrite Ed. unfold Exact.seg_det in *. field.
    repeat split; intro Hc; apply Hnz; lra. }
  assert (Eu : Exact.seg_u p1 p2 p4 p3 == 1 - Exact.seg_u p1 p2 p3 p4).
  { unfold Exact.seg_u. rewrite Ed. unfold Exact.seg_det in *. field.
    repeat split; intro Hc; apply Hnz; lra. }
  unfold crosses_inside. rewrite Ed, Et, Eu.
  repeat split; try assumption; try lra; try (intro Hc; apply Hnz; lra).
Qed.

(** A positive quotient of integers is at least the inverse of the
    denominator. *)
Lemma quotient_lower (n d : Q) :
  integral n -> int_le (2 ^ 29) d -> 0 < n / d -> (1 # 536870912) <= n / d.
Proof.
  intros (zn & En) (zd & Ed & Hd) Hpos.
  assert (H29 : (2 ^ 29 = 536870912)%Z) by reflexivity. rewrite H29 in Hd.
  assert (Hdz : ~ d == 0).
  { intro Hc. rewrite Hc in Hpos. unfold Qdiv in Hpos.
    change (/ 0) with 0 in Hpos. rewrite Qmult_0_r in Hpos. lra. }
  destruct (Z.lt_trichotomy zd 0) as [Hneg | [Hz | Hp]].
  - (* d < 0 *)
    assert (Hd0 : d < 0) by (rewrite Ed; apply (inject_Z_lt zd 0); exact Hneg).
    assert (Hn0 : n < 0).
    { apply Qnot_le_lt. intro Hc.
      assert (n / d <= 0).
      { unfold Qdiv. setoid_replace (n * / d) with (- (n * / (- d)))
          by (field; lra).
        assert (0 <= n * / - d).
        { apply Qmult_le_0_compat; [exact Hc|].
          apply Qlt_le_weak, Qinv_lt_0_compat. lra. }
        lra. }
      lra. }
    assert (Hzn : (zn <= -1)%Z).
    { rewrite En in Hn0. apply (Qlt_not_le _ _) in Hn0.
      apply Z.nlt_ge. intro Hc. apply Hn0. apply (inject_Z_le 0 zn). lia. }
    assert (Hn1 : n <= -1) by (rewrite En; apply (inject_Z_le zn (-1)); exact Hzn).
    assert (Hdl : - (536870912 # 1) <= d).
    { rewrite Ed. apply (inject_Z_le (-536870912) zd). lia. }
    setoid_replace (n / d) with ((- n) / (- d)) by (field; lra).
    apply Qle_shift_div_l; lra.
  - exfalso. apply Hdz. rewrite Ed, Hz. reflexivity.
  - assert (Hd0 : 0 < d) by (rewrite Ed; apply (inject_Z_lt 0 zd); exact Hp).
    assert (Hn0 : 0 < n).
    { apply Qnot_le_lt. intro Hc.
      assert (n / d <= 0).
      { unfold Qdiv. setoid_replace (n * / d) with (- ((- n) * / d)) by (field; lra).
        assert (0 <= (- n) * / d).
        { apply Qmult_le_0_compat; [lra|].
          apply Qlt_le_weak, Qinv_lt_0_compat. exact Hd0. }
        lra. }
      lra. }
    assert (Hzn : (1 <= zn)%Z).
    { rewrite En in Hn0. apply (Qlt_not_le _ _) in Hn0.
      apply Z.nlt_ge. intro Hc. apply Hn0. apply (inject_Z_le zn 0). lia. }
    assert (Hn1 : 1 <= n) by (rewrite En; apply (inject_Z_le 1 zn); exact Hzn).
    assert (Hdl : d <= 536870912 # 1).
    { rewrite Ed. apply (inject_Z_le zd 536870912). lia. }
    apply Qle_shift_div_l; lra.
Qed.

Lemma small_bounds :
  double (1 # 536870912) == 1 # 536870912
  /\ double (1 - (1 # 536870912)) == 1 - (1 # 536870912)
  /\ EPSILON < 1 # 536870912
  /\ 1 - (1 # 536870912) < 1 -! EPSILON.
Proof. repeat split; vm_compute; reflexivity. Qed.

(** Between pixel positions of magnitude at most [2 ^ 13] a parameter is
    accepted exactly when it is strictly between 0 and 1. *)
Lemma parameter_accepted (n d : Q) :
  integral n -> int_le (2 ^ 29) d -> ~ d == 0 ->
  (Qltb EPSILON (double (n / d)) && Qltb (double (n / d)) (1 -! EPSILON) = true
   <-> 0 < n / d /\ n / d < 1).
Proof.
  intros Hn Hd Hnz.
  destruct small_bounds as (S1 & S2 & S3 & S4).
  destruct EPSILON_bounds as (He0 & He1 & He2).
  rewrite andb_true_iff, !Qltb_lt. split.
  - intros [H1 H2]. split.
    + apply (double_gt _ _ EPSILON_double) in H1. lra.
    + apply (double_lt _ _ one_minus_EPSILON_double) in H2. lra.
  - intros [H1 H2]. split.
    + pose proof (quotient_lower n d Hn Hd H1) as Hl.
      apply double_mono in Hl. rewrite S1 in Hl. lra.
    + assert (Hq : 0 < (d - n) / d).
      { setoid_replace ((d - n) / d) with (1 - n / d) by (field; exact Hnz). lra. }
      assert (Hi : integral (d - n)).
      { apply integral_sub; [eapply int_le_integral; eauto|exact Hn]. }
      pose proof (quotient_lower (d - n) d Hi Hd Hq) as Hl.
      assert (Hu : n / d <= 1 - (1 # 536870912)).
      { setoid_replace ((d - n) / d) with (1 - n / d) in Hl by (field; exact Hnz).
        lra. }
      apply double_mono in Hu. rewrite S2 in Hu. lra.
Qed.

(** Between pixel positions of magnitude at most [2 ^ 13],
    [getLineSegmentIntersection] returns a point exactly when the two
    segments cross strictly inside both. *)
Lemma getLineSegmentIntersection_pixels (B : Z) (p1 p2 p3 p4 : QPointF) :
  (B <= 2 ^ 13)%Z ->
  pixel_within B p1 -> pixel_within B p2 -> pixel_within B p3 -> pixel_within B p4 ->
  (getLineSegmentIntersection p1 p2 p3 p4 = None <-> ~ crosses_inside p1 p2 p3 p4).
Proof.
  intros HB H1 H2 H3 H4.
  assert (HB' : (B <= 2 ^ 25)%Z) by lia.
  destruct (seg_det_pixels B p1 p2 p3 p4 HB' H1 H2 H3 H4) as [Ed Id].
  pose proof (seg_t_pixels B p1 p2 p3 p4 HB' H1 H2 H3 H4) as Et.
  pose proof (seg_u_pixels B p1 p2 p3 p4 HB' H1 H2 H3 H4) as Eu.
  destruct (pixel_within_int _ _ H1) as [H1x H1y].
  destruct (pixel_within_int _ _ H2) as [H2x H2y].
  destruct (pixel_within_int _ _ H3) as [H3x H3y].
  destruct (pixel_within_int _ _ H4) as [H4x H4y].
  pose proof (int_le_nonneg _ _ H1x) as H0.
  assert (Id' : int_le (2 ^ 29) (Exact.seg_det p1 p2 p3 p4)).
  { eapply int_le_weaken; [|exact Id]. nia. }
  assert (It : integral ((px p3 - px p1) * (py p4 - py p3)
                         - (py p3 - py p1) * (px p4 - px p3))).
  { apply integral_sub; apply integral_mult; apply integral_sub;
      eapply int_le_integral; eauto. }
  assert (Iu : integral (- ((px p2 - px p1) * (py p3 - py p1)
                            - (py p2 - py p1) * (px p3 - px p1)))).
  { apply (int_le_integral (8 * (B * B))). apply int_le_opp.
    eapply int_le_weaken; [|apply int_le_minus; apply int_le_mult;
                              apply int_le_minus; eassumption].
    nia. }
  unfold getLineSegmentIntersection.
  destruct (Qltb (Qabs (seg_det p1 p2 p3 p4)) EPSILON) eqn:Edet.
  { (* the determinant is zero *)
    apply Qltb_lt in Edet. rewrite Ed in Edet.
    apply integral_small in Edet; [|eapply int_le_integral; eauto].
    split; [|reflexivity]. intros _ (Hnz & _). contradiction. }
  apply Qltb_ge in Edet. rewrite Ed in Edet.
  assert (Hnz : ~ Exact.seg_det p1 p2 p3 p4 == 0).
  { intro Hc. rewrite Hc in Edet. destruct EPSILON_bounds as (He0 & _).
    change (Qabs 0) with 0 in Edet. lra. }
  pose proof (parameter_accepted _ _ It Id' Hnz) as Pt.
  pose proof (parameter_accepted _ _ Iu Id' Hnz) as Pu.
  fold (Exact.seg_t p1 p2 p3 p4) in Pt. fold (Exact.seg_u p1 p2 p3 p4) in Pu.
  rewrite (Qltb_eq EPSILON (seg_t p1 p2 p3 p4) EPSILON
                   (double (Exact.seg_t p1 p2 p3 p4)))
    by (rewrite ?Et; reflexivity).
  rewrite (Qltb_eq (seg_t p1 p2 p3 p4) (1 -! EPSILON)
                   (double (Exact.seg_t p1 p2 p3 p4)) (1 -! EPSILON))
    by (rewrite ?Et; reflexivity).
  rewrite (Qltb_eq EPSILON (seg_u p1 p2 p3 p4) EPSILON
                   (double (Exact.seg_u p1 p2 p3 p4)))
    by (rewrite ?Eu; reflexivity).
  rewrite (Qltb_eq (seg_u p1 p2 p3 p4) (1 -! EPSILON)
                   (double (Exact.seg_u p1 p2 p3 p4)) (1 -! EPSILON))
    by (rewrite ?Eu; reflexivity).
  rewrite <- andb_assoc.
  destruct (Qltb EPSILON (double (Exact.seg_t p1 p2 p3 p4))
            && Qltb (double (Exact.seg_t p1 p2 p3 p4)) (1 -! EPSILON)) eqn:Ct;
  destruct (Qltb EPSILON (double (Exact.seg_u p1 p2 p3 p4))
            && Qltb (double (Exact.seg_u p1 p2 p3 p4)) (1 -! EPSILON)) eqn:Cu;
    cbn [andb].
  - split; [discriminate|]. intro Hc. exfalso. apply Hc.
    destruct (proj1 Pt eq_refl). destruct (proj1 Pu eq_refl).
    repeat split; assumption.
  - split; [|reflexivity]. intros _ (_ & U1 & U2 & U3 & U4).
    assert (false = true) by (apply Pu; split; assumption).
    discriminate.
  - split; [|reflexivity]. intros _ (_ & U1 & U2 & U3 & U4).
    assert (false = true) by (apply Pt; split; assumption).
    discriminate.
  - split; [|reflexivity]. intros _ (_ & U1 & U2 & U3 & U4).
    assert (false = true) by (apply Pt; split; assumption).
    discriminate.
Qed.


(** Without intersections the traversal finds no contour and the call
    returns what the fallback branch gives. *)
Lemma WeilerAtherton_fallback (opType : BooleanOpType) (w : DrawingWidget)
    (fuel : nat) :
  (3 <= length (polygonA w))%nat ->
  (3 <= length (polygonB w))%nat ->
  no_strict_intersection (Weiler.normalize (polygonA w))
                         (Weiler.normalize (polygonB w)) ->
  (length (polygonA w) + length (polygonB w) <= fuel)%nat ->
  exists w',
    calculateBooleanOp_WeilerAtherton fuel opType w = Done w'
    /\ weilerResultPolygons w'
       = Weiler.fallback opType (Weiler.normalize (polygonA w))
                         (Weiler.normalize (polygonB w)).
Proof.
  intros HA HB Hn Hfuel.
  unfold calculateBooleanOp_WeilerAtherton.
  change (polygonA (set_weilerResultPolygons [] w)) with (polygonA w).
  change (polygonB (set_weilerResultPolygons [] w)) with (polygonB w).
  replace (length (polygonA w) <? 3)%nat with false
    by (symmetry; apply Nat.ltb_ge; lia).
  replace (length (polygonB w) <? 3)%nat with false
    by (symmetry; apply Nat.ltb_ge; lia).
  cbn [orb].
  set (polyA := Weiler.normalize (polygonA w)) in *.
  set (polyB := Weiler.normalize (polygonB w)) in *.
  assert (HlA : length polyA = length (polygonA w)) by apply normalize_length.
  assert (HlB : length polyB = length (polygonB w)) by apply normalize_length.
  change (Weiler.listA (Weiler.initial_lists polyA polyB))
    with (nodes_from 0 polyA).
  rewrite begin_nodes.
  pose proof (loopA_noop polyA polyB Hn (length polyA) 0%nat fuel
                ltac:(lia) ltac:(lia)) as Hloop.
  rewrite Hloop, (contours_none polyA polyB).
  eexists. split; [reflexivity|].
  cbn [weilerResultPolygons set_weilerResultPolygons Weiler.isEmpty andb].
  destruct polyA as [|a0 polyA']; [cbn in HlA; lia|].
  destruct polyB as [|b0 polyB']; [cbn in HlB; lia|].
  reflexivity.
Qed.

(** On pixel positions of magnitude at most [2 ^ 13] the absence of strict
    intersections does not depend on the direction of the first operand. *)
Lemma no_strict_intersection_rev1 (B : Z) (P R : list QPointF) :
  (B <= 2 ^ 13)%Z -> pixels B P -> pixels B R ->
  no_strict_intersection P R -> no_strict_intersection (rev P) R.
Proof.
  intros HB HP HR H i j Hi Hj. rewrite length_rev in *.
  destruct (rev_edge P i Hi) as (k & Hk & E1 & E2). rewrite E1, E2.
  assert (Hk1 : ((k + 1) mod length P < length P)%nat)
    by (apply Nat.mod_upper_bound; lia).
  assert (Hj1 : ((j + 1) mod length R < length R)%nat)
    by (apply Nat.mod_upper_bound; lia).
  apply (getLineSegmentIntersection_pixels B); auto using pixels_at.
  intro Hc. apply crosses_inside_swap1 in Hc.
  revert Hc. apply (getLineSegmentIntersection_pixels B); auto using pixels_at.
Qed.

(** ... nor on the direction of the second one. *)
Lemma no_strict_intersection_rev2 (B : Z) (P R : list QPointF) :
  (B <= 2 ^ 13)%Z -> pixels B P -> pixels B R ->
  no_strict_intersection P R -> no_strict_intersection P (rev R).
Proof.
  intros HB HP HR H i j Hi Hj. rewrite length_rev in *.
  destruct (rev_edge R j Hj) as (k & Hk & E1 & E2). rewrite E1, E2.
  assert (Hk1 : ((k + 1) mod length R < length R)%nat)
    by (apply Nat.mod_upper_bound; lia).
  assert (Hi1 : ((i + 1) mod length P < length P)%nat)
    by (apply Nat.mod_upper_bound; lia).
  apply (getLineSegmentIntersection_pixels B); auto using pixels_at.
  intro Hc. apply crosses_inside_swap2 in Hc.
  revert Hc. apply (getLineSegmentIntersection_pixels B); auto using pixels_at.
Qed.

Lemma no_strict_intersection_normalize (B : Z) (P R : list QPointF) :
  (B <= 2 ^ 13)%Z -> pixels B P -> pixels B R ->
  no_strict_intersection P R ->
  no_strict_intersection (Weiler.normalize P) (Weiler.normalize R).
Proof.
  intros HB HP HR H.
  destruct (normalize_cases P) as [-> | ->];
    destruct (normalize_cases R) as [-> | ->].
  - exact H.
  - apply (no_strict_intersection_rev2 B); assumption.
  - apply (no_strict_intersection_rev1 B); assumption.
  - apply (no_strict_intersection_rev1 B); auto using pixels_rev.
    apply (no_strict_intersection_rev2 B); assumption.
Qed.

Lemma no_strict_intersection_check (P R : list QPointF) :
  forallb (fun i =>
    forallb (fun j =>
      match getLineSegmentIntersection
              (at_ P i) (at_ P ((i + 1) mod length P))
              (at_ R j) (at_ R ((j + 1) mod length R)) with
      | None => true | Some _ => false end) (seq 0 (length R)))
    (seq 0 (length P)) = true ->
  no_strict_intersection P R.
Proof.
  intros H i j Hi Hj. rewrite forallb_forall in H.
  specialize (H i ltac:(apply in_seq; lia)). rewrite forallb_forall in H.
  specialize (H j ltac:(apply in_seq; lia)).
  destruct (getLineSegmentIntersection _ _ _ _); [discriminate|reflexivity].
Qed.


(** *** The ray test *)

Lemma ray_step_crossed (point : QPointF) (polygon : list QPointF)
    (inside : bool) (ij : nat * nat) :
  ray_step point polygon inside ij
  = xorb inside (crossed_by_ray point (at_ polygon (fst ij))
                                (at_ polygon (snd ij))).
Proof.
  unfold ray_step, crossed_by_ray.
  destruct (negb _); cbn [andb].
  - destruct (Qltb _ _); destruct inside; reflexivity.
  - destruct inside; reflexivity.
Qed.

Lemma fold_left_map_seq {A : Type} (f : A -> nat * nat -> A)
    (h : nat -> nat * nat) (l : list nat) (a : A) :
  fold_left f (map h l) a = fold_left (fun acc i => f acc (h i)) l a.
Proof. revert a. induction l as [|x l IH]; intro a; [reflexivity|apply IH]. Qed.

Lemma fold_left_ext_in {A X : Type} (f g : A -> X -> A) (l : list X) (a : A) :
  (forall acc x, In x l -> f acc x = g acc x) ->
  fold_left f l a = fold_left g l a.
Proof.
  revert a. induction l as [|x l IH]; intros a H; [reflexivity|].
  cbn. rewrite (H a x) by (left; reflexivity).
  apply IH. intros acc y Hy. apply H. right. exact Hy.
Qed.

(** The test as the parity of the edges counted as crossed. *)
Lemma isPointInsidePolygon_parity (point : QPointF) (polygon : list QPointF) :
  (3 <= length polygon)%nat ->
  isPointInsidePolygon point polygon
  = fold_left
      (fun acc i =>
         xorb acc
           (crossed_by_ray point (at_ polygon i)
              (at_ polygon (if (i =? 0)%nat then (length polygon - 1)%nat
                            else (i - 1)%nat))))
      (seq 0 (length polygon)) false.
Proof.
  intro Hn. unfold isPointInsidePolygon.
  replace (length polygon <? 3)%nat with false
    by (symmetry; apply Nat.ltb_ge; lia).
  rewrite fold_left_map_seq. apply fold_left_ext_in.
  intros acc i _. apply ray_step_crossed.
Qed.

Lemma scale_between (dx lam : Q) :
  0 <= lam -> lam <= 1 ->
  (0 <= dx -> 0 <= dx * lam /\ dx * lam <= dx)
  /\ (dx <= 0 -> dx <= dx * lam /\ dx * lam <= 0).
Proof.
  intros H0 H1. split; intro Hd.
  - assert (0 <= dx * lam) by (apply Qmult_le_0_compat; lra).
    assert (0 <= dx * (1 - lam)) by (apply Qmult_le_0_compat; lra).
    assert (dx * (1 - lam) == dx - dx * lam) by ring. lra.
  - assert (0 <= (- dx) * lam) by (apply Qmult_le_0_compat; lra).
    assert (0 <= (- dx) * (1 - lam)) by (apply Qmult_le_0_compat; lra).
    assert ((- dx) * (1 - lam) == dx * lam - dx) by ring.
    assert ((- dx) * lam == - (dx * lam)) by ring. lra.
Qed.

(** Where the ray is at the height of an edge, the abscissa the program
    computes for the crossing lies between the abscissas of the two ends. *)
Lemma x_intersect_between (B : Z) (p a b : QPointF) :
  (B <= 2 ^ 25)%Z ->
  pixel_within B p -> pixel_within B a -> pixel_within B b ->
  Qltb (py p) (py a) <> Qltb (py p) (py b) ->
  let x := (px b -! px a) *! (py p -! py a) /! (py b -! py a) +! px a in
  (px a <= x /\ x <= px b) \/ (px b <= x /\ x <= px a).
Proof.
  intros HB Hp Ha Hb Hy x.
  destruct (pixel_within_int _ _ Hp) as [Hpx Hpy].
  destruct (pixel_within_int _ _ Ha) as [Hax Hay].
  destruct (pixel_within_int _ _ Hb) as [Hbx Hby].
  pose proof (int_le_nonneg _ _ Hpx) as H0.
  assert (E1 : px b -! px a == px b - px a) by (apply (fsub_int B B); auto; lia).
  assert (E2 : py p -! py a == py p - py a) by (apply (fsub_int B B); auto; lia).
  assert (E3 : py b -! py a == py b - py a) by (apply (fsub_int B B); auto; lia).
  assert (I1 : int_le (B + B) (px b - px a)) by (apply int_le_minus; auto).
  assert (I2 : int_le (B + B) (py p - py a)) by (apply int_le_minus; auto).
  assert (E4 : (px b - px a) *! (py p - py a) == (px b - px a) * (py p - py a))
    by (apply (fmul_int (B + B) (B + B)); auto; nia).
  assert (Ex : x == double (double ((px b - px a) * (py p - py a) / (py b - py a))
                            + px a)).
  { subst x. rewrite E1, E2, E3, E4. reflexivity. }
  assert (Da : double (px a) == px a) by (apply (int_le_double B); auto; lia).
  assert (Db : double (px b) == px b) by (apply (int_le_double B); auto; lia).
  assert (Dd : double (px b - px a) == px b - px a)
    by (apply (int_le_double (B + B)); auto; lia).
  assert (D0 : double 0 == 0) by reflexivity.
  set (lam := (py p - py a) / (py b - py a)).
  assert (Hlam : 0 <= lam /\ lam <= 1 /\ ~ py b - py a == 0).
  { subst lam.
    destruct (Qltb (py p) (py a)) eqn:Ca; destruct (Qltb (py p) (py b)) eqn:Cb;
      try (exfalso; apply Hy; reflexivity).
    - apply Qltb_lt in Ca. apply Qltb_ge in Cb.
      assert (Hn : ~ py b - py a == 0) by (intro Hc; lra).
      setoid_replace ((py p - py a) / (py b - py a))
        with ((py a - py p) / (py a - py b)) by (field; repeat split; intro Hc; lra).
      repeat split; [|apply Qle_shift_div_r; lra|exact Hn].
      apply Qle_shift_div_l; lra.
    - apply Qltb_ge in Ca. apply Qltb_lt in Cb.
      assert (Hn : ~ py b - py a == 0) by (intro Hc; lra).
      repeat split; [|apply Qle_shift_div_r; lra|exact Hn].
      apply Qle_shift_div_l; lra. }
  destruct Hlam as (L0 & L1 & Hn).
  assert (Eq : (px b - px a) * (py p - py a) / (py b - py a)
               == (px b - px a) * lam) by (subst lam; field; exact Hn).
  rewrite Eq in Ex. clearbody lam.
  destruct (scale_between (px b - px a) lam L0 L1) as [Sp Sn].
  destruct (Qlt_le_dec (px b) (px a)) as [Hlt | Hle].
  - right. destruct (Sn ltac:(lra)) as [S1 S2].
    apply double_mono in S1, S2. rewrite Dd in S1. rewrite D0 in S2.
    assert (T1 : px b <= double ((px b - px a) * lam) + px a) by lra.
    assert (T2 : double ((px b - px a) * lam) + px a <= px a) by lra.
    apply double_mono in T1, T2. rewrite Db in T1. rewrite Da in T2.
    rewrite Ex. split; assumption.
  - left. destruct (Sp ltac:(lra)) as [S1 S2].
    apply double_mono in S1, S2. rewrite Dd in S2. rewrite D0 in S1.
    assert (T1 : px a <= double ((px b - px a) * lam) + px a) by lra.
    assert (T2 : double ((px b - px a) * lam) + px a <= px b) by lra.
    apply double_mono in T1, T2. rewrite Da in T1. rewrite Db in T2.
    rewrite Ex. split; assumption.
Qed.

(** An edge at one height side of the point is not counted. *)
Lemma crossed_by_ray_flat (p a b : QPointF) :
  Qltb (py p) (py a) = Qltb (py p) (py b) -> crossed_by_ray p a b = false.
Proof.
  intro H. unfold crossed_by_ray. rewrite H, Bool.eqb_reflx. reflexivity.
Qed.

(** An edge to the left of the point is not counted. *)
Lemma crossed_by_ray_left_edge (B : Z) (p a b : QPointF) :
  (B <= 2 ^ 25)%Z ->
  pixel_within B p -> pixel_within B a -> pixel_within B b ->
  px a <= px p -> px b <= px p -> crossed_by_ray p a b = false.
Proof.
  intros HB Hp Ha Hb H1 H2. unfold crossed_by_ray.
  destruct (Bool.eqb (Qltb (py p) (py a)) (Qltb (py p) (py b))) eqn:Ey;
    [reflexivity|]. cbn [negb andb].
  apply Bool.eqb_false_iff in Ey.
  destruct (x_intersect_between B p a b HB Hp Ha Hb Ey) as [[_ Hx] | [_ Hx]];
    apply Qltb_ge; lra.
Qed.

(** An edge to the right of the point is counted when its ends are on either
    side of the height of the point. *)
Lemma crossed_by_ray_right_edge (B : Z) (p a b : QPointF) :
  (B <= 2 ^ 25)%Z ->
  pixel_within B p -> pixel_within B a -> pixel_within B b ->
  px p < px a -> px p < px b ->
  crossed_by_ray p a b
  = xorb (Qltb (py p) (py a)) (Qltb (py p) (py b)).
Proof.
  intros HB Hp Ha Hb H1 H2. unfold crossed_by_ray.
  destruct (Bool.eqb (Qltb (py p) (py a)) (Qltb (py p) (py b))) eqn:Ey.
  - apply Bool.eqb_prop in Ey. rewrite Ey. cbn. symmetry. apply xorb_nilpotent.
  - cbn [negb andb]. apply Bool.eqb_false_iff in Ey.
    replace (xorb (Qltb (py p) (py a)) (Qltb (py p) (py b))) with true
      by (destruct (Qltb (py p) (py a)), (Qltb (py p) (py b));
          try reflexivity; exfalso; apply Ey; reflexivity).
    destruct (x_intersect_between B p a b HB Hp Ha Hb Ey) as [[Hx _] | [Hx _]];
      apply Qltb_lt; lra.
Qed.

(** Along a closed chain the changes of side cancel. *)
Lemma parity_closed (g : nat -> bool) (n : nat) :
  (1 <= n)%nat ->
  fold_left
    (fun acc i =>
       xorb acc (xorb (g i) (g (if (i =? 0)%nat then (n - 1)%nat
                                else (i - 1)%nat))))
    (seq 0 n) false = false.
Proof.
  intro Hn. destruct n as [|m]; [lia|].
  cbn [seq fold_left Nat.eqb]. replace (S m - 1)%nat with m by lia.
  assert (H : forall k s acc, (1 <= s)%nat -> (s + k = S m)%nat ->
            acc = xorb (g (s - 1)%nat) (g m) ->
            fold_left
              (fun acc i =>
                 xorb acc (xorb (g i) (g (if (i =? 0)%nat then m
                                          else (i - 1)%nat))))
              (seq s k) acc = false).
  { induction k as [|k IH]; intros s acc Hs Hk Hacc.
    - cbn. replace (s - 1)%nat with m in Hacc by lia.
      rewrite Hacc. apply xorb_nilpotent.
    - cbn [seq fold_left]. apply IH; [lia|lia|].
      replace (s =? 0)%nat with false by (symmetry; apply Nat.eqb_neq; lia).
      replace (S s - 1)%nat with s by lia. rewrite Hacc.
      destruct (g (s - 1)%nat), (g m), (g s); reflexivity. }
  apply H; [lia|lia|]. cbn. destruct (g 0%nat), (g m); reflexivity.
Qed.

Lemma fold_left_fixed {X : Type} (f : bool -> X -> bool) (l : list X) (a : bool) :
  (forall acc x, In x l -> f acc x = acc) -> fold_left f l a = a.
Proof.
  revert a. induction l as [|x l IH]; intros a H; [reflexivity|].
  cbn. rewrite (H a x) by (left; reflexivity).
  apply IH. intros acc y Hy. apply H. right. exact Hy.
Qed.

Lemma previous_index (n i : nat) :
  (i < n)%nat -> ((if (i =? 0)%nat then (n - 1)%nat else (i - 1)%nat) < n)%nat.
Proof. intro H. destruct (i =? 0)%nat eqn:E; [lia|]. apply Nat.eqb_neq in E. lia. Qed.

Lemma at_In (l : list QPointF) (i : nat) : (i < length l)%nat -> In (at_ l i) l.
Proof. intro H. unfold at_. apply nth_In. exact H. Qed.

(** A point with a polygon strictly on one side of it, along either axis,
    is found outside. *)
Lemma isPointInsidePolygon_apart (B : Z) (p : QPointF) (poly : list QPointF) :
  (B <= 2 ^ 25)%Z -> pixel_within B p -> pixels B poly ->
  (forall r, In r poly -> px p < px r)
  \/ (forall r, In r poly -> px r < px p)
  \/ (forall r, In r poly -> py p < py r)
  \/ (forall r, In r poly -> py r < py p) ->
  isPointInsidePolygon p poly = false.
Proof.
  intros HB Hp Hpoly Hside.
  destruct (Nat.lt_ge_cases (length poly) 3) as [Hn | Hn].
  { unfold isPointInsidePolygon. apply Nat.ltb_lt in Hn. rewrite Hn. reflexivity. }
  rewrite isPointInsidePolygon_parity by exact Hn.
  destruct Hside as [H | [H | [H | H]]].
  - (* the polygon is to the right: every change of height is counted *)
    rewrite (fold_left_ext_in _
               (fun acc i =>
                  xorb acc
                    (xorb ((fun k => Qltb (py p) (py (at_ poly k))) i)
                          ((fun k => Qltb (py p) (py (at_ poly k)))
                             (if (i =? 0)%nat then (length poly - 1)%nat
                              else (i - 1)%nat))))).
    + apply (parity_closed (fun k => Qltb (py p) (py (at_ poly k)))). lia.
    + intros acc i Hi. apply in_seq in Hi. f_equal.
      pose proof (previous_index (length poly) i ltac:(lia)) as Hj.
      apply (crossed_by_ray_right_edge B);
        [assumption | assumption | apply pixels_at; [assumption|lia]
         | apply pixels_at; assumption | apply H; apply at_In; lia
         | apply H; apply at_In; assumption].
  - apply fold_left_fixed. intros acc i Hi. apply in_seq in Hi.
    pose proof (previous_index (length poly) i ltac:(lia)) as Hj.
    rewrite (crossed_by_ray_left_edge B);
      [apply xorb_false_r | assumption | assumption
       | apply pixels_at; [assumption|lia] | apply pixels_at; assumption
       | apply Qlt_le_weak; apply H; apply at_In; lia
       | apply Qlt_le_weak; apply H; apply at_In; assumption].
  - apply fold_left_fixed. intros acc i Hi. apply in_seq in Hi.
    pose proof (previous_index (length poly) i ltac:(lia)) as Hj.
    rewrite crossed_by_ray_flat; [apply xorb_false_r|].
    assert (Qltb (py p) (py (at_ poly i)) = true)
      by (apply Qltb_lt; apply H; apply at_In; lia).
    assert (Qltb (py p) (py (at_ poly (if (i =? 0)%nat then (length poly - 1)%nat
                                       else (i - 1)%nat))) = true)
      by (apply Qltb_lt; apply H; apply at_In; assumption).
    congruence.
  - apply fold_left_fixed. intros acc i Hi. apply in_seq in Hi.
    pose proof (previous_index (length poly) i ltac:(lia)) as Hj.
    rewrite crossed_by_ray_flat; [apply xorb_false_r|].
    assert (Qltb (py p) (py (at_ poly i)) = false)
      by (apply Qltb_ge; apply Qlt_le_weak; apply H; apply at_In; lia).
    assert (Qltb (py p) (py (at_ poly (if (i =? 0)%nat then (length poly - 1)%nat
                                       else (i - 1)%nat))) = false)
      by (apply Qltb_ge; apply Qlt_le_weak; apply H; apply at_In; assumption).
    congruence.
Qed.


(** *** Operands apart and operands nested *)

(** The point at which the two lines cross, from either parameter. *)
Lemma crossing_point (p1 p2 p3 p4 : QPointF) :
  ~ Exact.seg_det p1 p2 p3 p4 == 0 ->
  px p1 + Exact.seg_t p1 p2 p3 p4 * (px p2 - px p1)
  == px p3 + Exact.seg_u p1 p2 p3 p4 * (px p4 - px p3)
  /\ py p1 + Exact.seg_t p1 p2 p3 p4 * (py p2 - py p1)
     == py p3 + Exact.seg_u p1 p2 p3 p4 * (py p4 - py p3).
Proof.
  intro H. unfold Exact.seg_t, Exact.seg_u, Exact.seg_det in *.
  split; field; exact H.
Qed.

Lemma convex_between (t x y : Q) :
  0 < t -> t < 1 ->
  (forall lo, lo < x -> lo < y -> lo < x + t * (y - x))
  /\ (forall hi, x < hi -> y < hi -> x + t * (y - x) < hi).
Proof.
  intros H0 H1. split.
  - intros lo Hx Hy.
    assert (0 < (1 - t) * (x - lo)) by (apply Qmult_lt_0_compat; lra).
    assert (0 < t * (y - lo)) by (apply Qmult_lt_0_compat; lra).
    assert (x + t * (y - x) - lo == (1 - t) * (x - lo) + t * (y - lo)) by ring.
    lra.
  - intros hi Hx Hy.
    assert (0 < (1 - t) * (hi - x)) by (apply Qmult_lt_0_compat; lra).
    assert (0 < t * (hi - y)) by (apply Qmult_lt_0_compat; lra).
    assert (hi - (x + t * (y - x)) == (1 - t) * (hi - x) + t * (hi - y)) by ring.
    lra.
Qed.

Lemma next_index (n i : nat) : (i < n)%nat -> ((i + 1) mod n < n)%nat.
Proof. intro H. apply Nat.mod_upper_bound. lia. Qed.

(** Operands on either side of a line have no strict intersection. *)
Lemma separated_no_strict_intersection (B : Z) (P R : list QPointF) :
  (B <= 2 ^ 13)%Z -> pixels B P -> pixels B R -> separated P R ->
  no_strict_intersection P R.
Proof.
  intros HB HP HR Hsep i j Hi Hj.
  pose proof (next_index _ _ Hi) as Hi1. pose proof (next_index _ _ Hj) as Hj1.
  pose proof (at_In P i Hi) as Ia. pose proof (at_In P _ Hi1) as Ia'.
  pose proof (at_In R j Hj) as Ib. pose proof (at_In R _ Hj1) as Ib'.
  apply (getLineSegmentIntersection_pixels B); auto using pixels_at.
  intros (Hnz & T0 & T1 & U0 & U1).
  destruct (crossing_point _ _ _ _ Hnz) as [Ex Ey].
  set (t := Exact.seg_t _ _ _ _) in *. set (u := Exact.seg_u _ _ _ _) in *.
  set (a := at_ P i) in *. set (a' := at_ P ((i + 1) mod length P)) in *.
  set (b := at_ R j) in *. set (b' := at_ R ((j + 1) mod length R)) in *.
  clearbody t u a a' b b'.
  destruct (convex_between t (px a) (px a') T0 T1) as [Xlo Xhi].
  destruct (convex_between u (px b) (px b') U0 U1) as [Xlo' Xhi'].
  destruct (convex_between t (py a) (py a') T0 T1) as [Ylo Yhi].
  destruct (convex_between u (py b) (py b') U0 U1) as [Ylo' Yhi'].
  destruct Hsep as [H | [H | [H | H]]].
  - pose proof (Xhi (px b) (H a b Ia Ib) (H a' b Ia' Ib)) as K1.
    pose proof (Xhi (px b') (H a b' Ia Ib') (H a' b' Ia' Ib')) as K2.
    pose proof (Xlo' _ K1 K2) as K. rewrite <- Ex in K. lra.
  - pose proof (Xlo (px b) (H a b Ia Ib) (H a' b Ia' Ib)) as K1.
    pose proof (Xlo (px b') (H a b' Ia Ib') (H a' b' Ia' Ib')) as K2.
    pose proof (Xhi' _ K1 K2) as K. rewrite <- Ex in K. lra.
  - pose proof (Yhi (py b) (H a b Ia Ib) (H a' b Ia' Ib)) as K1.
    pose proof (Yhi (py b') (H a b' Ia Ib') (H a' b' Ia' Ib')) as K2.
    pose proof (Ylo' _ K1 K2) as K. rewrite <- Ey in K. lra.
  - pose proof (Ylo (py b) (H a b Ia Ib) (H a' b Ia' Ib)) as K1.
    pose proof (Ylo (py b') (H a b' Ia Ib') (H a' b' Ia' Ib')) as K2.
    pose proof (Yhi' _ K1 K2) as K. rewrite <- Ey in K. lra.
Qed.

Lemma In_normalize (poly : list QPointF) (p : QPointF) :
  In p (Weiler.normalize poly) <-> In p poly.
Proof.
  destruct (normalize_cases poly) as [-> | ->]; [reflexivity|].
  symmetry. apply in_rev.
Qed.

Lemma pixels_normalize (B : Z) (poly : list QPointF) :
  pixels B poly -> pixels B (Weiler.normalize poly).
Proof.
  intro H. destruct (normalize_cases poly) as [-> | ->];
    [exact H|apply pixels_rev; exact H].
Qed.

(** For operands on either side of a line both containment tests fail. *)
Lemma separated_tests (B : Z) (P R : list QPointF) :
  (B <= 2 ^ 25)%Z -> pixels B P -> pixels B R ->
  (3 <= length P)%nat -> (3 <= length R)%nat -> separated P R ->
  isPointInsidePolygon (at_ P 0) R = false
  /\ isPointInsidePolygon (at_ R 0) P = false.
Proof.
  intros HB HP HR H3P H3R Hsep.
  pose proof (at_In P 0 ltac:(lia)) as Ia.
  pose proof (at_In R 0 ltac:(lia)) as Ib.
  split; apply (isPointInsidePolygon_apart B); auto;
    try (apply pixels_at; [assumption|lia]);
    destruct Hsep as [H | [H | [H | H]]].
  - left. intros r Hr. apply H; assumption.
  - right; left. intros r Hr. apply H; assumption.
  - right; right; left. intros r Hr. apply H; assumption.
  - right; right; right. intros r Hr. apply H; assumption.
  - right; left. intros r Hr. apply H; assumption.
  - left. intros r Hr. apply H; assumption.
  - right; right; right. intros r Hr. apply H; assumption.
  - right; right; left. intros r Hr. apply H; assumption.
Qed.

(** An edge on the border of a box is not crossed by an edge strictly
    inside the box. *)
Lemma box_edge_not_crossed (B : Z) (x0 y0 x1 y1 : Z) (a a' b b' : QPointF) :
  (B <= 2 ^ 13)%Z ->
  pixel_within B a -> pixel_within B a' ->
  pixel_within B b -> pixel_within B b' ->
  strictly_in_box x0 y0 x1 y1 a -> strictly_in_box x0 y0 x1 y1 a' ->
  (px b == inject_Z x0 /\ px b' == inject_Z x0)
  \/ (px b == inject_Z x1 /\ px b' == inject_Z x1)
  \/ (py b == inject_Z y0 /\ py b' == inject_Z y0)
  \/ (py b == inject_Z y1 /\ py b' == inject_Z y1) ->
  getLineSegmentIntersection a a' b b' = None.
Proof.
  intros HB Ha Ha' Hb Hb' (A1 & A2 & A3 & A4) (A1' & A2' & A3' & A4') Hedge.
  apply (getLineSegmentIntersection_pixels B); auto.
  intros (Hnz & T0 & T1 & U0 & U1).
  destruct (crossing_point _ _ _ _ Hnz) as [Ex Ey].
  set (t := Exact.seg_t _ _ _ _) in *. set (u := Exact.seg_u _ _ _ _) in *.
  clearbody t u.
  destruct (convex_between t (px a) (px a') T0 T1) as [Xlo Xhi].
  destruct (convex_between t (py a) (py a') T0 T1) as [Ylo Yhi].
  destruct Hedge as [[E1 E2] | [[E1 E2] | [[E1 E2] | [E1 E2]]]].
  - pose proof (Xlo _ A1 A1') as K. rewrite Ex, E1, E2 in K.
    assert (u * (inject_Z x0 - inject_Z x0) == 0) by ring. lra.
  - pose proof (Xhi _ A2 A2') as K. rewrite Ex, E1, E2 in K.
    assert (u * (inject_Z x1 - inject_Z x1) == 0) by ring. lra.
  - pose proof (Ylo _ A3 A3') as K. rewrite Ey, E1, E2 in K.
    assert (u * (inject_Z y0 - inject_Z y0) == 0) by ring. lra.
  - pose proof (Yhi _ A4 A4') as K. rewrite Ey, E1, E2 in K.
    assert (u * (inject_Z y1 - inject_Z y1) == 0) by ring. lra.
Qed.

(** A polygon strictly inside a rectangle has no strict intersection with
    it. *)
Lemma box_no_strict_intersection (B : Z) (x0 y0 x1 y1 : Z) (P : list QPointF) :
  (B <= 2 ^ 13)%Z -> pixels B P -> pixels B (rectangle x0 y0 x1 y1) ->
  (forall p, In p P -> strictly_in_box x0 y0 x1 y1 p) ->
  no_strict_intersection P (rectangle x0 y0 x1 y1).
Proof.
  intros HB HP HR Hin i j Hi Hj.
  pose proof (next_index _ _ Hi) as Hi1. pose proof (next_index _ _ Hj) as Hj1.
  apply (box_edge_not_crossed B x0 y0 x1 y1); auto using pixels_at, at_In.
  change (length (rectangle x0 y0 x1 y1)) with 4%nat in *.
  destruct j as [|[|[|[|j]]]]; [| | | |lia].
  - right; right; left. split; reflexivity.
  - right; left. split; reflexivity.
  - right; right; right. split; reflexivity.
  - left. split; reflexivity.
Qed.

(** A point strictly inside a rectangle is found inside, in whichever
    direction the rectangle is listed. *)
Lemma isPointInsidePolygon_rectangle (B : Z) (x0 y0 x1 y1 : Z) (p : QPointF) :
  (B <= 2 ^ 25)%Z -> pixel_within B p -> pixels B (rectangle x0 y0 x1 y1) ->
  strictly_in_box x0 y0 x1 y1 p ->
  isPointInsidePolygon p (rectangle x0 y0 x1 y1) = true
  /\ isPointInsidePolygon p (rev (rectangle x0 y0 x1 y1)) = true.
Proof.
  intros HB Hp HR (A1 & A2 & A3 & A4).
  assert (Hc : forall q, In q (rectangle x0 y0 x1 y1) -> pixel_within B q)
    by (apply Forall_forall; exact HR).
  assert (H00 : pixel_within B (pixel x0 y0)) by (apply Hc; cbn; auto).
  assert (H10 : pixel_within B (pixel x1 y0)) by (apply Hc; cbn; auto).
  assert (H11 : pixel_within B (pixel x1 y1)) by (apply Hc; cbn; auto).
  assert (H01 : pixel_within B (pixel x0 y1)) by (apply Hc; cbn; auto).
  assert (L0 : Qltb (py p) (inject_Z y0) = false) by (apply Qltb_ge; lra).
  assert (L1 : Qltb (py p) (inject_Z y1) = true) by (apply Qltb_lt; lra).
  (* the left side, in both directions *)
  assert (Cl : crossed_by_ray p (pixel x0 y0) (pixel x0 y1) = false)
    by (apply (crossed_by_ray_left_edge B); auto; cbn; lra).
  assert (Cl' : crossed_by_ray p (pixel x0 y1) (pixel x0 y0) = false)
    by (apply (crossed_by_ray_left_edge B); auto; cbn; lra).
  (* the right side *)
  assert (Cr : crossed_by_ray p (pixel x1 y1) (pixel x1 y0) = true).
  { rewrite (crossed_by_ray_right_edge B) by (auto; cbn; lra).
    cbn [px py pixel]. rewrite L0, L1. reflexivity. }
  assert (Cr' : crossed_by_ray p (pixel x1 y0) (pixel x1 y1) = true).
  { rewrite (crossed_by_ray_right_edge B) by (auto; cbn; lra).
    cbn [px py pixel]. rewrite L0, L1. reflexivity. }
  (* the two flat sides *)
  assert (Cb : crossed_by_ray p (pixel x1 y0) (pixel x0 y0) = false)
    by (apply crossed_by_ray_flat; reflexivity).
  assert (Cb' : crossed_by_ray p (pixel x0 y0) (pixel x1 y0) = false)
    by (apply crossed_by_ray_flat; reflexivity).
  assert (Ct : crossed_by_ray p (pixel x0 y1) (pixel x1 y1) = false)
    by (apply crossed_by_ray_flat; reflexivity).
  assert (Ct' : crossed_by_ray p (pixel x1 y1) (pixel x0 y1) = false)
    by (apply crossed_by_ray_flat; reflexivity).
  split.
  - rewrite isPointInsidePolygon_parity by (cbn; lia).
    change (length (rectangle x0 y0 x1 y1)) with 4%nat.
    cbn [seq fold_left Nat.eqb Nat.sub].
    change (at_ (rectangle x0 y0 x1 y1) 0) with (pixel x0 y0).
    change (at_ (rectangle x0 y0 x1 y1) 1) with (pixel x1 y0).
    change (at_ (rectangle x0 y0 x1 y1) 2) with (pixel x1 y1).
    change (at_ (rectangle x0 y0 x1 y1) 3) with (pixel x0 y1).
    rewrite Cl, Cb, Cr, Ct. reflexivity.
  - rewrite isPointInsidePolygon_parity by (cbn; lia).
    change (length (rev (rectangle x0 y0 x1 y1))) with 4%nat.
    cbn [seq fold_left Nat.eqb Nat.sub].
    change (at_ (rev (rectangle x0 y0 x1 y1)) 0) with (pixel x0 y1).
    change (at_ (rev (rectangle x0 y0 x1 y1)) 1) with (pixel x1 y1).
    change (at_ (rev (rectangle x0 y0 x1 y1)) 2) with (pixel x1 y0).
    change (at_ (rev (rectangle x0 y0 x1 y1)) 3) with (pixel x0 y0).
    rewrite Cl', Ct', Cr', Cb'. reflexivity.
Qed.


(** An edge of the border of a box does not cross an edge strictly inside
    the box. *)
Lemma box_edge_not_crossing (B : Z) (x0 y0 x1 y1 : Z) (a a' b b' : QPointF) :
  (B <= 2 ^ 13)%Z ->
  pixel_within B a -> pixel_within B a' ->
  pixel_within B b -> pixel_within B b' ->
  strictly_in_box x0 y0 x1 y1 a -> strictly_in_box x0 y0 x1 y1 a' ->
  (px b == inject_Z x0 /\ px b' == inject_Z x0)
  \/ (px b == inject_Z x1 /\ px b' == inject_Z x1)
  \/ (py b == inject_Z y0 /\ py b' == inject_Z y0)
  \/ (py b == inject_Z y1 /\ py b' == inject_Z y1) ->
  getLineSegmentIntersection b b' a a' = None.
Proof.
  intros HB Ha Ha' Hb Hb' (A1 & A2 & A3 & A4) (A1' & A2' & A3' & A4') Hedge.
  apply (getLineSegmentIntersection_pixels B); auto.
  intros (Hnz & T0 & T1 & U0 & U1).
  destruct (crossing_point _ _ _ _ Hnz) as [Ex Ey].
  set (t := Exact.seg_t _ _ _ _) in *. set (u := Exact.seg_u _ _ _ _) in *.
  clearbody t u.
  destruct (convex_between u (px a) (px a') U0 U1) as [Xlo Xhi].
  destruct (convex_between u (py a) (py a') U0 U1) as [Ylo Yhi].
  destruct Hedge as [[E1 E2] | [[E1 E2] | [[E1 E2] | [E1 E2]]]].
  - pose proof (Xlo _ A1 A1') as K. rewrite <- Ex, E1, E2 in K.
    assert (t * (inject_Z x0 - inject_Z x0) == 0) by ring. lra.
  - pose proof (Xhi _ A2 A2') as K. rewrite <- Ex, E1, E2 in K.
    assert (t * (inject_Z x1 - inject_Z x1) == 0) by ring. lra.
  - pose proof (Ylo _ A3 A3') as K. rewrite <- Ey, E1, E2 in K.
    assert (t * (inject_Z y0 - inject_Z y0) == 0) by ring. lra.
  - pose proof (Yhi _ A4 A4') as K. rewrite <- Ey, E1, E2 in K.
    assert (t * (inject_Z y1 - inject_Z y1) == 0) by ring. lra.
Qed.

Lemma box_no_strict_intersection_outer (B : Z) (x0 y0 x1 y1 : Z)
    (P : list QPointF) :
  (B <= 2 ^ 13)%Z -> pixels B P -> pixels B (rectangle x0 y0 x1 y1) ->
  (forall p, In p P -> strictly_in_box x0 y0 x1 y1 p) ->
  no_strict_intersection (rectangle x0 y0 x1 y1) P.
Proof.
  intros HB HP HR Hin j i Hj Hi.
  pose proof (next_index _ _ Hi) as Hi1. pose proof (next_index _ _ Hj) as Hj1.
  apply (box_edge_not_crossing B x0 y0 x1 y1); auto using pixels_at, at_In.
  change (length (rectangle x0 y0 x1 y1)) with 4%nat in *.
  destruct j as [|[|[|[|j]]]]; [| | | |lia].
  - right; right; left. split; reflexivity.
  - right; left. split; reflexivity.
  - right; right; right. split; reflexivity.
  - left. split; reflexivity.
Qed.

(** A corner of a rectangle is found outside a polygon strictly inside the
    rectangle. *)
Lemma corner_outside (B : Z) (x0 y0 x1 y1 : Z) (c : QPointF)
    (P : list QPointF) :
  (B <= 2 ^ 25)%Z -> pixels B P -> pixels B (rectangle x0 y0 x1 y1) ->
  (forall p, In p P -> strictly_in_box x0 y0 x1 y1 p) ->
  In c (rectangle x0 y0 x1 y1) ->
  isPointInsidePolygon c P = false.
Proof.
  intros HB HP HR Hin Hc.
  assert (Hpc : pixel_within B c).
  { unfold pixels in HR. rewrite Forall_forall in HR. apply HR. exact Hc. }
  apply (isPointInsidePolygon_apart B); auto.
  destruct Hc as [<- | [<- | [<- | [<- | []]]]]; cbn [px py pixel].
  - left. intros r Hr. apply Hin. exact Hr.
  - right; left. intros r Hr. apply Hin. exact Hr.
  - right; left. intros r Hr. apply Hin. exact Hr.
  - left. intros r Hr. apply Hin. exact Hr.
Qed.

Lemma fallback_table (opType : BooleanOpType) (polyA polyB : list QPointF)
    (a b : bool) :
  isPointInsidePolygon (at_ polyA 0) polyB = a ->
  isPointInsidePolygon (at_ polyB 0) polyA = b ->
  Weiler.fallback opType polyA polyB
  = match opType with
    | Intersection => if a then [polyA] else if b then [polyB] else []
    | Union => if a then [polyB] else if b then [polyA] else [polyA; polyB]
    end.
Proof. intros <- <-. reflexivity. Qed.

(** The touching operands are not detected by the intersection search. *)
Lemma touching_no_strict_intersection :
  no_strict_intersection touch_triangle touch_square.
Proof. apply no_strict_intersection_check. vm_compute. reflexivity. Qed.



